(** * react-scrollbars-custom: the Scrollbar component of src/index.js

    A shallow embedding of the class [Scrollbar]: its three static geometry
    functions, the synchronization pass [update], the public scroll accessors
    and commands, the track-click and thumb-drag handlers and the debounced
    scroll detector, followed by the properties proved about them.

    Conventions of the embedding.
    - A JavaScript number is a binary64 value: a rational, or one of the
      three special values [Infinity], [-Infinity], [NaN].  An arithmetic
      operation computes the exact rational result and rounds it to the
      nearest binary64 value, ties to even, overflowing to an infinity
      ([JS.round]); division by zero and the arithmetic of the special values
      follow ECMAScript.  The sign of zero is not represented (zero is [+0]).
      The type also holds rationals that are no binary64 values; no operation
      returns one, and a property stated for every rational holds for the
      binary64 values among them.
    - [null] is [None]; a missing DOM element is [None] and a property read
      on it is the completion [TypeError].
    - The DOM is the rendering host's: an element is a record of the
      properties the component reads and of the style properties it writes.
      An assignment to [scrollTop] or [scrollLeft] is recorded as the value
      assigned; what the browser makes of it (it clamps the position to the
      scrollable range) is not represented, and nothing is claimed about a
      position read back after an assignment beyond the value assigned.
    - [setState] merges the partial state.  Whether React renders again
      before [setState] returns is the host's: see [rendering].
    - A callback prop is represented by whether it is configured, and a call
      of it by an entry in the instance's list of calls, with the arguments
      as they are at the call.
    - Time is the host's clock in milliseconds; a pending [setTimeout] is the
      time at which it is due, and it runs when the clock reaches that time. *)

From Stdlib Require Import ZArith QArith Qround Qabs Qfield Qpower Bool List String Lia Lqa.
Import ListNotations.

Close Scope Q_scope.
Open Scope string_scope.

(* ================================================================== *)
(** ** JavaScript numbers *)

Module JS.

Inductive number : Type :=
| Num (q : Q)
| Infinity
| NegInfinity
| NaN.

Definition zero : number := Num 0.

(** *** binary64

    A finite binary64 value is [m * 2^c] for integers [m] and [c] with
    [|m| <= 2^53 - 1] and [-1074 <= c <= 971].  [round] maps a rational to
    the nearest such value, ties to the even [m]; a rational that rounds to
    [2^1024] or beyond in magnitude becomes an infinity. *)

Definition pow2 (e : Z) : Q := (2 ^ e)%Q.

(** The binary exponent of a positive rational: [2^e <= q < 2^(e+1)]. *)
Definition ilog2 (q : Q) : Z :=
  let e := (Z.log2 (Qnum q) - Z.log2 (Zpos (Qden q)))%Z in
  if Qle_bool (pow2 e) q then e else (e - 1)%Z.

(** The nearest integer, the even one of two that are equally near. *)
Definition rne (x : Q) : Z :=
  let f := Qfloor x in
  match (x - inject_Z f ?= 1 # 2)%Q with
  | Lt => f
  | Gt => (f + 1)%Z
  | Eq => if Z.even f then f else (f + 1)%Z
  end.

(** The exponent of the last place of a positive rational: 53 significant
    bits, and no place below [2^-1074]. *)
Definition quantum (q : Q) : Z := Z.max (ilog2 q - 52) (-1074).

(** A positive rational rounded to a multiple of its quantum. *)
Definition round_pos (q : Q) : Q :=
  (inject_Z (rne (q / pow2 (quantum q))) * pow2 (quantum q))%Q.

Definition round (q : Q) : number :=
  match Qnum q with
  | Z0 => Num 0
  | Zpos _ =>
      let r := round_pos q in
      if Qle_bool (pow2 1024) r then Infinity else Num (Qred r)
  | Zneg _ =>
      let r := round_pos (- q) in
      if Qle_bool (pow2 1024) r then NegInfinity else Num (Qred (- r))
  end.

(** *** Arithmetic *)

(** The sign of a rational: [-1], [0] or [1]. *)
Definition Qsgn (q : Q) : Z := Z.sgn (Qnum q).

Definition neg (a : number) : number :=
  match a with
  | Num q => Num (Qred (- q))
  | Infinity => NegInfinity
  | NegInfinity => Infinity
  | NaN => NaN
  end.

Definition add (a b : number) : number :=
  match a, b with
  | NaN, _ | _, NaN => NaN
  | Infinity, NegInfinity | NegInfinity, Infinity => NaN
  | Infinity, _ | _, Infinity => Infinity
  | NegInfinity, _ | _, NegInfinity => NegInfinity
  | Num x, Num y => round (x + y)
  end.

Definition sub (a b : number) : number := add a (neg b).

(** The infinity of sign [s], [NaN] when [s] is zero. *)
Definition signed_infinity (s : Z) : number :=
  match s with
  | Z0 => NaN
  | Zpos _ => Infinity
  | Zneg _ => NegInfinity
  end.

Definition sgn (a : number) : Z :=
  match a with
  | Num q => Qsgn q
  | Infinity => 1
  | NegInfinity => -1
  | NaN => 0
  end.

Definition mul (a b : number) : number :=
  match a, b with
  | NaN, _ | _, NaN => NaN
  | Num x, Num y => round (x * y)
  | _, _ => signed_infinity (sgn a * sgn b)
  end.

(** [x / 0] is an infinity of the sign of [x], and [0 / 0] is [NaN]. *)
Definition div (a b : number) : number :=
  match a, b with
  | NaN, _ | _, NaN => NaN
  | Num x, Num y =>
      if Qeq_bool y 0 then signed_infinity (Qsgn x) else round (x / y)
  | Num _, _ => Num 0
  | _, Num y => if Qeq_bool y 0 then a else signed_infinity (sgn a * Qsgn y)
  | _, _ => NaN
  end.

(** [Math.ceil]: the least integer not below a binary64 value is one too. *)
Definition ceil (a : number) : number :=
  match a with
  | Num q => Num (inject_Z (Qceiling q))
  | _ => a
  end.

(** [Math.max] of two arguments. *)
Definition max (a b : number) : number :=
  match a, b with
  | NaN, _ | _, NaN => NaN
  | Infinity, _ | _, Infinity => Infinity
  | NegInfinity, x | x, NegInfinity => x
  | Num x, Num y => if Qle_bool x y then b else a
  end.

(** [ToBoolean]: zero and [NaN] are falsy. *)
Definition truthy (a : number) : bool :=
  match a with
  | Num q => negb (Qeq_bool q 0)
  | NaN => false
  | _ => true
  end.

(** [a || b] and [a && b] on numbers. *)
Definition or (a b : number) : number := if truthy a then a else b.
Definition and (a b : number) : number := if truthy a then b else a.

(** [a === b]: [NaN] is not equal to itself. *)
Definition strict_eq (a b : number) : bool :=
  match a, b with
  | Num x, Num y => Qeq_bool x y
  | Infinity, Infinity | NegInfinity, NegInfinity => true
  | _, _ => false
  end.

(** [a < b]: false as soon as one side is [NaN]. *)
Definition lt (a b : number) : bool :=
  match a, b with
  | NaN, _ | _, NaN => false
  | Num x, Num y => negb (Qle_bool y x)
  | NegInfinity, NegInfinity | Infinity, _ | _, NegInfinity => false
  | _, _ => true
  end.

(** [isFinite]. *)
Definition is_finite (a : number) : bool :=
  match a with
  | Num _ => true
  | _ => false
  end.

End JS.

Import JS.

Declare Scope js_scope.
Delimit Scope js_scope with js.
Bind Scope js_scope with number.
Infix "+" := JS.add : js_scope.
Infix "-" := JS.sub : js_scope.
Infix "*" := JS.mul : js_scope.
Infix "/" := JS.div : js_scope.
Infix "||" := JS.or : js_scope.
Infix "&&" := JS.and : js_scope.
Infix "===" := JS.strict_eq (at level 70, no associativity) : js_scope.
Infix "<" := JS.lt : js_scope.

(** Integer and rational literals as numbers. *)
Definition int (z : Z) : number := Num (inject_Z z).
Coercion int : Z >-> number.

(* ================================================================== *)
(** ** GeometryMath: the three static functions *)

Section GeometryMath.

Local Open Scope js_scope.

(** [static computeThumbSize(trackSize, scrollableSize, viewportSize, minimalSize)] *)
Definition computeThumbSize (trackSize scrollableSize viewportSize minimalSize : number)
  : number :=
  let size := (JS.ceil ((viewportSize / scrollableSize) * trackSize)) || JS.zero in
  if trackSize === size then JS.zero else JS.max size minimalSize.

(** [static computeThumbOffset(trackSize, thumbSize, scrollableSize, viewportSize, scrollValue)] *)
Definition computeThumbOffset
  (trackSize thumbSize scrollableSize viewportSize scrollValue : number) : number :=
  (thumbSize && ((scrollValue / (scrollableSize - viewportSize)) * (trackSize - thumbSize)))
  || JS.zero.

(** [static computeScrollForOffset(trackSize, thumbSize, offset, scrollableSize, viewportSize)] *)
Definition computeScrollForOffset
  (trackSize thumbSize offset scrollableSize viewportSize : number) : number :=
  (((offset - (thumbSize / Num 2)) / (trackSize - thumbSize)) * (scrollableSize - viewportSize))
  || JS.zero.

End GeometryMath.

(* ================================================================== *)
(** ** Completions

    A method either returns normally or throws the [TypeError] of a property
    read on [null]; what a throwing method had already written is not kept.
    [OutOfFuel] belongs to the embedding only: [update] calls itself, and its
    embedding recurses on a counter. *)

Inductive completion (A : Type) : Type :=
| Normal (a : A)
| TypeError
| OutOfFuel.

Arguments Normal {A} a.
Arguments TypeError {A}.
Arguments OutOfFuel {A}.

Definition bind {A B : Type} (c : completion A) (k : A -> completion B) : completion B :=
  match c with
  | Normal a => k a
  | TypeError => TypeError
  | OutOfFuel => OutOfFuel
  end.

Notation "x <- c ;; k" := (bind c (fun x => k))
  (at level 100, c at next level, right associativity).

(** The truth value of a reference. *)
Definition present {A : Type} (ref : option A) : bool :=
  match ref with
  | Some _ => true
  | None => false
  end.

(** Reading a property of an element reference that may be [null]. *)
Definition deref {A : Type} (ref : option A) : completion A :=
  match ref with
  | Some el => Normal el
  | None => TypeError
  end.

(* ================================================================== *)
(** ** Data model *)

(** [ScrollValues] (the typedef at the top of the file): every property is
    [number|null] or [boolean|null]. *)
Module ScrollValues.

Record t : Type := mk {
  clientHeight : option number;
  clientWidth : option number;
  scrollHeight : option number;
  scrollWidth : option number;
  scrollTop : option number;
  scrollLeft : option number;
  scrollYBlocked : option bool;
  scrollXBlocked : option bool;
  scrollYPossible : option bool;
  scrollXPossible : option bool;
  trackYVisible : option bool;
  trackXVisible : option bool;
  isRtl : option bool
}.

(** The object the constructor stores in [this.scrollValues]. *)
Definition initial : t :=
  mk None None None None None None None None None None None None None.

Definition set_trackYVisible (v : option bool) (s : t) : t :=
  mk (clientHeight s) (clientWidth s) (scrollHeight s) (scrollWidth s)
     (scrollTop s) (scrollLeft s) (scrollYBlocked s) (scrollXBlocked s)
     (scrollYPossible s) (scrollXPossible s) v (trackXVisible s) (isRtl s).

Definition set_trackXVisible (v : option bool) (s : t) : t :=
  mk (clientHeight s) (clientWidth s) (scrollHeight s) (scrollWidth s)
     (scrollTop s) (scrollLeft s) (scrollYBlocked s) (scrollXBlocked s)
     (scrollYPossible s) (scrollXPossible s) (trackYVisible s) v (isRtl s).

End ScrollValues.

(** The values the component assigns to style properties. *)
Inductive css : Type :=
| css_null                      (* [null] *)
| css_none                      (* ["none"] *)
| css_px (n : number)           (* [n + "px"] *)
| css_translateX (n : number)   (* [`translateX(${n}px)`] *)
| css_translateY (n : number).  (* [`translateY(${n}px)`] *)

Module Style.

Record t : Type := mk {
  transform : css;
  width : css;
  height : css;
  display : css
}.

Definition empty : t := mk css_null css_null css_null css_null.

Definition set_transform (v : css) (s : t) : t := mk v (width s) (height s) (display s).
Definition set_width (v : css) (s : t) : t := mk (transform s) v (height s) (display s).
Definition set_height (v : css) (s : t) : t := mk (transform s) (width s) v (display s).
Definition set_display (v : css) (s : t) : t := mk (transform s) (width s) (height s) v.

End Style.

(** A DOM element, as far as the component looks at it.  [innerHeight] and
    [innerWidth] are its rendered lengths without padding; [direction] is
    [getComputedStyle(el).direction]. *)
Module Element.

Record t : Type := mk {
  clientHeight : number;
  clientWidth : number;
  scrollHeight : number;
  scrollWidth : number;
  scrollTop : number;
  scrollLeft : number;
  innerHeight : number;
  innerWidth : number;
  direction : string;
  style : Style.t
}.

Definition set_scrollTop (v : number) (e : t) : t :=
  mk (clientHeight e) (clientWidth e) (scrollHeight e) (scrollWidth e)
     v (scrollLeft e) (innerHeight e) (innerWidth e) (direction e) (style e).

Definition set_scrollLeft (v : number) (e : t) : t :=
  mk (clientHeight e) (clientWidth e) (scrollHeight e) (scrollWidth e)
     (scrollTop e) v (innerHeight e) (innerWidth e) (direction e) (style e).

Definition set_style (v : Style.t) (e : t) : t :=
  mk (clientHeight e) (clientWidth e) (scrollHeight e) (scrollWidth e)
     (scrollTop e) (scrollLeft e) (innerHeight e) (innerWidth e) (direction e) v.

End Element.

(** Modelled from the spec: [getInnerHeight] and [getInnerWidth] of
    util/getInnerSizes are not among the sources; by the specification a
    track exposes "its rendered inner length (padding-exclusive)", which the
    element carries here. *)
Definition getInnerHeight (el : Element.t) : number := Element.innerHeight el.
Definition getInnerWidth (el : Element.t) : number := Element.innerWidth el.

(** Modelled from the spec: the constants [TYPE_X] and [TYPE_Y] of Track are
    not among the sources; by the specification a gesture carries
    "axis: X|Y". *)
Inductive axis : Type := TYPE_X | TYPE_Y.

Definition axis_eqb (a b : axis) : bool :=
  match a, b with
  | TYPE_X, TYPE_X | TYPE_Y, TYPE_Y => true
  | _, _ => false
  end.

(** The [params] a track or a thumb hands to its handlers. *)
Record params : Type := mkParams {
  p_axis : axis;
  p_offset : number
}.

(** The props the modelled methods read.  A callback prop holds [true] when
    it is configured. *)
Module Props.

Record t : Type := mk {
  minimalThumbsSize : number;
  trackClickBehavior : string;
  rtl : option bool;
  scrollDetectionThreshold : nat;
  translateContentSizesToHolder : bool;
  noScrollX : bool;
  noScrollY : bool;
  noScroll : bool;
  permanentTrackX : bool;
  permanentTrackY : bool;
  permanentTracks : bool;
  trackXProps_onClick : bool;
  trackYProps_onClick : bool;
  thumbXProps_onDrag : bool;
  thumbYProps_onDrag : bool;
  onScroll : bool;
  onScrollStart : bool;
  onScrollStop : bool
}.

(** [static defaultProps], with no callback configured. *)
Definition default : t :=
  mk 30%Z "jump" None 100 false false false false false false false
     false false false false false false false.

End Props.

(** [this.state]. *)
Module State.

Record t : Type := mk {
  trackYVisible : option bool;
  trackXVisible : option bool;
  isRtl : option bool     (* [None]: not a boolean (undefined or null) *)
}.

End State.

(** A call of a callback prop, with its arguments. *)
Inductive call : Type :=
| call_onScroll (values prev : ScrollValues.t)
| call_onScrollStart (values : ScrollValues.t)
| call_onScrollStop (values : ScrollValues.t)
| call_track_onClick (p : params)
| call_thumb_onDrag (p : params).

(** A [Scrollbar] instance: props, state, the stored snapshot, the element
    references set by [render], the pending timer of [scrollDetect] (the time
    at which it is due), the host's clock in milliseconds, and the calls of
    callback props made so far, latest first. *)
Record Scrollbar : Type := mkScrollbar {
  props : Props.t;
  state : State.t;
  scrollValues : ScrollValues.t;
  contentEl : option Element.t;
  holderEl : option Element.t;
  wrapperEl : option Element.t;
  trackYEl : option Element.t;
  trackXEl : option Element.t;
  thumbYEl : option Element.t;
  thumbXEl : option Element.t;
  timeout : option nat;
  now : nat;
  calls : list call
}.

Section Setters.

Variable this : Scrollbar.

Definition set_state (v : State.t) : Scrollbar :=
  mkScrollbar (props this) v (scrollValues this) (contentEl this) (holderEl this)
    (wrapperEl this) (trackYEl this) (trackXEl this) (thumbYEl this) (thumbXEl this)
    (timeout this) (now this) (calls this).

Definition set_scrollValues (v : ScrollValues.t) : Scrollbar :=
  mkScrollbar (props this) (state this) v (contentEl this) (holderEl this)
    (wrapperEl this) (trackYEl this) (trackXEl this) (thumbYEl this) (thumbXEl this)
    (timeout this) (now this) (calls this).

Definition set_contentEl (v : option Element.t) : Scrollbar :=
  mkScrollbar (props this) (state this) (scrollValues this) v (holderEl this)
    (wrapperEl this) (trackYEl this) (trackXEl this) (thumbYEl this) (thumbXEl this)
    (timeout this) (now this) (calls this).

Definition set_holderEl (v : option Element.t) : Scrollbar :=
  mkScrollbar (props this) (state this) (scrollValues this) (contentEl this) v
    (wrapperEl this) (trackYEl this) (trackXEl this) (thumbYEl this) (thumbXEl this)
    (timeout this) (now this) (calls this).

Definition set_trackYEl (v : option Element.t) : Scrollbar :=
  mkScrollbar (props this) (state this) (scrollValues this) (contentEl this) (holderEl this)
    (wrapperEl this) v (trackXEl this) (thumbYEl this) (thumbXEl this)
    (timeout this) (now this) (calls this).

Definition set_trackXEl (v : option Element.t) : Scrollbar :=
  mkScrollbar (props this) (state this) (scrollValues this) (contentEl this) (holderEl this)
    (wrapperEl this) (trackYEl this) v (thumbYEl this) (thumbXEl this)
    (timeout this) (now this) (calls this).

Definition set_thumbYEl (v : option Element.t) : Scrollbar :=
  mkScrollbar (props this) (state this) (scrollValues this) (contentEl this) (holderEl this)
    (wrapperEl this) (trackYEl this) (trackXEl this) v (thumbXEl this)
    (timeout this) (now this) (calls this).

Definition set_thumbXEl (v : option Element.t) : Scrollbar :=
  mkScrollbar (props this) (state this) (scrollValues this) (contentEl this) (holderEl this)
    (wrapperEl this) (trackYEl this) (trackXEl this) (thumbYEl this) v
    (timeout this) (now this) (calls this).

Definition set_timeout (v : option nat) : Scrollbar :=
  mkScrollbar (props this) (state this) (scrollValues this) (contentEl this) (holderEl this)
    (wrapperEl this) (trackYEl this) (trackXEl this) (thumbYEl this) (thumbXEl this)
    v (now this) (calls this).

Definition set_now (v : nat) : Scrollbar :=
  mkScrollbar (props this) (state this) (scrollValues this) (contentEl this) (holderEl this)
    (wrapperEl this) (trackYEl this) (trackXEl this) (thumbYEl this) (thumbXEl this)
    (timeout this) v (calls this).

(** Calling a callback prop. *)
Definition invoke (c : call) : Scrollbar :=
  mkScrollbar (props this) (state this) (scrollValues this) (contentEl this) (holderEl this)
    (wrapperEl this) (trackYEl this) (trackXEl this) (thumbYEl this) (thumbXEl this)
    (timeout this) (now this) (c :: calls this).

End Setters.

(** [this.setState(partial)]: the partial state is merged into [this.state].
    The methods modelled here do not read a state property after they have
    set it, so the merged state stands for the pending one as well. *)
Definition setState_isRtl (v : bool) (this : Scrollbar) : Scrollbar :=
  set_state this
    (State.mk (State.trackYVisible (state this)) (State.trackXVisible (state this)) (Some v)).

Definition setState_tracks (trackYVisible trackXVisible : option bool) (this : Scrollbar)
  : Scrollbar :=
  set_state this (State.mk trackYVisible trackXVisible (State.isRtl (state this))).

(** The element references of an instance. *)
Module Elements.

Record t : Type := mk {
  content : option Element.t;
  holder : option Element.t;
  wrapper : option Element.t;
  trackY : option Element.t;
  trackX : option Element.t;
  thumbY : option Element.t;
  thumbX : option Element.t
}.

End Elements.

Definition elements (this : Scrollbar) : Elements.t :=
  Elements.mk (contentEl this) (holderEl this) (wrapperEl this)
    (trackYEl this) (trackXEl this) (thumbYEl this) (thumbXEl this).

Definition set_elements (els : Elements.t) (this : Scrollbar) : Scrollbar :=
  mkScrollbar (props this) (state this) (scrollValues this)
    (Elements.content els) (Elements.holder els) (Elements.wrapper els)
    (Elements.trackY els) (Elements.trackX els) (Elements.thumbY els) (Elements.thumbX els)
    (timeout this) (now this) (calls this).

(** When React renders after a [setState] is the host's.  Inside a batch (a
    lifecycle method such as [componentDidMount], which calls [update] at
    line 256, or a handler React dispatches) the component is rendered again
    only after the running method has returned: [Deferred].  Outside a batch
    (a callback of the update loop, a native event, a setter called by the
    application) React renders before [setState] returns: [render] of lines
    670 to 875 runs with the new state, it mounts a track with its thumb or
    unmounts them (lines 866 to 872), the ref callbacks of lines 821 to 841
    store the new references ([null] for an unmounted element), and the
    browser lays the viewport out again.  [Immediate render] is such a host,
    [render] giving the element references it leaves, with their metrics, for
    the instance as it is after the state is merged. *)
Inductive rendering : Type :=
| Deferred
| Immediate (render : Scrollbar -> Elements.t).

Definition rerender (host : rendering) (this : Scrollbar) : Scrollbar :=
  match host with
  | Deferred => this
  | Immediate render => set_elements (render this) this
  end.

(* ================================================================== *)
(** ** ScrollStateStore: the synchronization pass *)

(** [null] where a number or a boolean is expected: [ToNumber(null)] is [+0]
    and [ToBoolean(null)] is [false]. *)
Definition ToNumber (v : option number) : number :=
  match v with
  | Some n => n
  | None => JS.zero
  end.

Definition ToBoolean (v : option bool) : bool :=
  match v with
  | Some b => b
  | None => false
  end.

(** [a !== b] on [number|null] and on [boolean|null]. *)
Definition number_differs (a b : option number) : bool :=
  match a, b with
  | None, None => false
  | Some x, Some y => negb (JS.strict_eq x y)
  | _, _ => true
  end.

Definition boolean_differs (a b : option bool) : bool :=
  match a, b with
  | None, None => false
  | Some x, Some y => negb (Bool.eqb x y)
  | _, _ => true
  end.

(** [currentScrollValues], as lines 452 to 476 build it from the viewport,
    the props and [this.state.isRtl]. *)
Definition sample (p : Props.t) (el : Element.t) (isRtl : bool) : ScrollValues.t :=
  let scrollXBlocked := Props.noScroll p || Props.noScrollX p in
  let scrollYBlocked := Props.noScroll p || Props.noScrollY p in
  let scrollXPossible :=
    negb scrollXBlocked && JS.lt (Element.clientWidth el) (Element.scrollWidth el) in
  let scrollYPossible :=
    negb scrollYBlocked && JS.lt (Element.clientHeight el) (Element.scrollHeight el) in
  let trackXVisible := scrollXPossible || Props.permanentTracks p || Props.permanentTrackX p in
  let trackYVisible := scrollYPossible || Props.permanentTracks p || Props.permanentTrackY p in
  ScrollValues.mk
    (Some (Element.clientHeight el)) (Some (Element.clientWidth el))
    (Some (Element.scrollHeight el)) (Some (Element.scrollWidth el))
    (Some (Element.scrollTop el)) (Some (Element.scrollLeft el))
    (Some scrollYBlocked) (Some scrollXBlocked)
    (Some scrollYPossible) (Some scrollXPossible)
    (Some trackYVisible) (Some trackXVisible)
    (Some isRtl).

(** [cond && (mask |= 1 << k)]. *)
Definition flag (cond : bool) (k : Z) (mask : Z) : Z :=
  if cond then Z.lor mask (Z.shiftl 1 k) else mask.

(** The change mask of lines 478 to 492. *)
Definition changeMask (old cur : ScrollValues.t) : Z :=
  let mask := 0%Z in
  let mask := flag (number_differs (ScrollValues.clientHeight old) (ScrollValues.clientHeight cur)) 0 mask in
  let mask := flag (number_differs (ScrollValues.clientWidth old) (ScrollValues.clientWidth cur)) 1 mask in
  let mask := flag (number_differs (ScrollValues.scrollHeight old) (ScrollValues.scrollHeight cur)) 2 mask in
  let mask := flag (number_differs (ScrollValues.scrollWidth old) (ScrollValues.scrollWidth cur)) 3 mask in
  let mask := flag (number_differs (ScrollValues.scrollTop old) (ScrollValues.scrollTop cur)) 4 mask in
  let mask := flag (number_differs (ScrollValues.scrollLeft old) (ScrollValues.scrollLeft cur)) 5 mask in
  let mask := flag (boolean_differs (ScrollValues.scrollYBlocked old) (ScrollValues.scrollYBlocked cur)) 6 mask in
  let mask := flag (boolean_differs (ScrollValues.scrollXBlocked old) (ScrollValues.scrollXBlocked cur)) 7 mask in
  let mask := flag (boolean_differs (ScrollValues.scrollYPossible old) (ScrollValues.scrollYPossible cur)) 8 mask in
  let mask := flag (boolean_differs (ScrollValues.scrollXPossible old) (ScrollValues.scrollXPossible cur)) 9 mask in
  let mask := flag (boolean_differs (ScrollValues.trackYVisible old) (ScrollValues.trackYVisible cur)) 10 mask in
  let mask := flag (boolean_differs (ScrollValues.trackXVisible old) (ScrollValues.trackXVisible cur)) 11 mask in
  let mask := flag (boolean_differs (ScrollValues.isRtl old) (ScrollValues.isRtl cur)) 12 mask in
  mask.

(** The truth value of [mask & (1 << k)]. *)
Definition has (mask : Z) (k : Z) : bool :=
  negb (Z.land mask (Z.shiftl 1 k) =? 0)%Z.

(** Lines 501 to 507: the two visibility properties are assigned into the
    stored snapshot, and the state is asked to show or hide the tracks. *)
Definition write_visibility (currentScrollValues : ScrollValues.t) (this : Scrollbar)
  : Scrollbar :=
  let this :=
    set_scrollValues this
      (ScrollValues.set_trackYVisible (ScrollValues.trackYVisible currentScrollValues)
         (scrollValues this)) in
  let this :=
    set_scrollValues this
      (ScrollValues.set_trackXVisible (ScrollValues.trackXVisible currentScrollValues)
         (scrollValues this)) in
  setState_tracks (ScrollValues.trackYVisible currentScrollValues)
                  (ScrollValues.trackXVisible currentScrollValues) this.

(** Assigning to a style property of an element. *)
Definition style_transform (v : css) (e : Element.t) : Element.t :=
  Element.set_style (Style.set_transform v (Element.style e)) e.
Definition style_width (v : css) (e : Element.t) : Element.t :=
  Element.set_style (Style.set_width v (Element.style e)) e.
Definition style_height (v : css) (e : Element.t) : Element.t :=
  Element.set_style (Style.set_height v (Element.style e)) e.
Definition style_display (v : css) (e : Element.t) : Element.t :=
  Element.set_style (Style.set_display v (Element.style e)) e.

(** Lines 516 to 545: the vertical track and thumb. *)
Definition update_trackY (mask : Z) (currentScrollValues : ScrollValues.t) (this : Scrollbar)
  : completion Scrollbar :=
  match trackYEl this with
  | None => Normal this
  | Some trackY =>
      let trackY :=
        if has mask 10
        then style_display
               (if ToBoolean (ScrollValues.trackYVisible currentScrollValues)
                then css_null else css_none) trackY
        else trackY in
      let this := set_trackYEl this (Some trackY) in
      if has mask 0 || has mask 2 || has mask 4 || has mask 6 || has mask 8 then
        if ToBoolean (ScrollValues.scrollYPossible currentScrollValues) then
          let trackSize := getInnerHeight trackY in
          let thumbSize :=
            computeThumbSize trackSize
              (ToNumber (ScrollValues.scrollHeight currentScrollValues))
              (ToNumber (ScrollValues.clientHeight currentScrollValues))
              (Props.minimalThumbsSize (props this)) in
          let thumbOffset :=
            computeThumbOffset trackSize thumbSize
              (ToNumber (ScrollValues.scrollHeight currentScrollValues))
              (ToNumber (ScrollValues.clientHeight currentScrollValues))
              (ToNumber (ScrollValues.scrollTop currentScrollValues)) in
          thumbY <- deref (thumbYEl this) ;;
          let thumbY := style_transform (css_translateY thumbOffset) thumbY in
          let thumbY := style_height (css_px thumbSize) thumbY in
          let thumbY := style_display css_null thumbY in
          Normal (set_thumbYEl this (Some thumbY))
        else
          thumbY <- deref (thumbYEl this) ;;
          let thumbY := style_transform css_null thumbY in
          let thumbY := style_height (css_px 0%Z) thumbY in
          let thumbY := style_display css_none thumbY in
          Normal (set_thumbYEl this (Some thumbY))
      else Normal this
  end.

(** Lines 548 to 581: the horizontal track and thumb; [isRtl] is
    [this.state.isRtl]. *)
Definition update_trackX (mask : Z) (currentScrollValues : ScrollValues.t) (isRtl : bool)
  (this : Scrollbar) : completion Scrollbar :=
  match trackXEl this with
  | None => Normal this
  | Some trackX =>
      let trackX :=
        if has mask 11
        then style_display
               (if ToBoolean (ScrollValues.trackXVisible currentScrollValues)
                then css_null else css_none) trackX
        else trackX in
      let this := set_trackXEl this (Some trackX) in
      if has mask 1 || has mask 3 || has mask 5 || has mask 7 || has mask 9 then
        if ToBoolean (ScrollValues.scrollXPossible currentScrollValues) then
          let trackSize := getInnerWidth trackX in
          let thumbSize :=
            computeThumbSize trackSize
              (ToNumber (ScrollValues.scrollWidth currentScrollValues))
              (ToNumber (ScrollValues.clientWidth currentScrollValues))
              (Props.minimalThumbsSize (props this)) in
          let thumbOffset :=
            computeThumbOffset trackSize thumbSize
              (ToNumber (ScrollValues.scrollWidth currentScrollValues))
              (ToNumber (ScrollValues.clientWidth currentScrollValues))
              (ToNumber (ScrollValues.scrollLeft currentScrollValues)) in
          let thumbOffset :=
            if isRtl then JS.sub (JS.add thumbSize thumbOffset) trackSize else thumbOffset in
          thumbX <- deref (thumbXEl this) ;;
          let thumbX := style_transform (css_translateX thumbOffset) thumbX in
          let thumbX := style_width (css_px thumbSize) thumbX in
          let thumbX := style_display css_null thumbX in
          Normal (set_thumbXEl this (Some thumbX))
        else
          thumbX <- deref (thumbXEl this) ;;
          let thumbX := style_transform css_null thumbX in
          let thumbX := style_width (css_px 0%Z) thumbX in
          let thumbX := style_display css_none thumbX in
          Normal (set_thumbXEl this (Some thumbX))
      else Normal this
  end.

(** Lines 583 to 586: the holder takes the size of the content. *)
Definition update_holder (mask : Z) (currentScrollValues : ScrollValues.t) (this : Scrollbar)
  : completion Scrollbar :=
  if Props.translateContentSizesToHolder (props this)
     && present (wrapperEl this)
     && (has mask 2 || has mask 3)
  then
    holder <- deref (holderEl this) ;;
    let holder :=
      style_width (css_px (ToNumber (ScrollValues.scrollWidth currentScrollValues))) holder in
    let holder :=
      style_height (css_px (ToNumber (ScrollValues.scrollHeight currentScrollValues))) holder in
    Normal (set_holderEl this (Some holder))
  else Normal this.

(** Lines 512 to 592: the sampled values become the stored snapshot and the
    visuals follow the bits of [mask]. *)
Definition commit (mask : Z) (currentScrollValues : ScrollValues.t) (isRtl : bool)
  (this : Scrollbar) : completion (ScrollValues.t * Scrollbar) :=
  let prevScrollValues := scrollValues this in
  let this := set_scrollValues this currentScrollValues in
  this <- update_trackY mask currentScrollValues this ;;
  this <- update_trackX mask currentScrollValues isRtl this ;;
  this <- update_holder mask currentScrollValues this ;;
  let this :=
    match ScrollValues.scrollTop prevScrollValues with
    | Some _ =>
        if Props.onScroll (props this)
        then invoke this (call_onScroll (scrollValues this) prevScrollValues)
        else this
    | None => this
    end in
  Normal (scrollValues this, this).

(** [update = (forced = false) => ...], lines 439 to 593, in a host that
    renders as [host] says.  The result is the returned snapshot and the
    instance after the pass.  When the orientation is resolved outside a
    batch, the rendering ends in [componentDidUpdate] (lines 239 to 247),
    which finds [this.state.isRtl] changed and calls [update()] before
    [setState] returns. *)
Fixpoint update_in (host : rendering) (fuel : nat) (forced : bool) (this : Scrollbar)
  : completion (ScrollValues.t * Scrollbar) :=
  match fuel with
  | O => OutOfFuel
  | S fuel =>
      match State.isRtl (state this) with
      | None =>
          el <- deref (contentEl this) ;;
          let this :=
            rerender host (setState_isRtl (String.eqb (Element.direction el) "rtl") this) in
          match host with
          | Deferred => Normal (scrollValues this, this)
          | Immediate _ =>
              r <- update_in host fuel false this ;;
              Normal (scrollValues (snd r), snd r)
          end
      | Some isRtl =>
          el <- deref (contentEl this) ;;
          let currentScrollValues := sample (props this) el isRtl in
          let mask := changeMask (scrollValues this) currentScrollValues in
          if (mask =? 0)%Z && negb forced then Normal (scrollValues this, this)
          else if has mask 10 || has mask 11 then
            update_in host fuel true (rerender host (write_visibility currentScrollValues this))
          else commit mask currentScrollValues isRtl this
      end
  end.

(** [update] where rendering is deferred, as in [componentDidMount]. *)
Definition update : nat -> bool -> Scrollbar -> completion (ScrollValues.t * Scrollbar) :=
  update_in Deferred.

(** Two levels of calls are all a pass with deferred rendering needs (see
    [update_total] below). *)
Definition update_depth : nat := 2.

(* ================================================================== *)
(** ** ActivityDetector: [scrollDetect] and its timer *)

(** [scrollDetect], lines 271 to 286.  [setTimeout] arms a timer due
    [scrollDetectionThreshold] milliseconds from now; the handle kept in
    [this.scrollDetect.timeout] is represented by that due time. *)
Definition scrollDetect (this : Scrollbar) : Scrollbar :=
  if negb (Props.onScrollStart (props this)) && negb (Props.onScrollStop (props this))
  then this
  else
    let this :=
      if negb (present (timeout this)) && Props.onScrollStart (props this)
      then invoke this (call_onScrollStart (scrollValues this))
      else this in
    let this := if present (timeout this) then set_timeout this None else this in
    set_timeout this (Some (now this + Props.scrollDetectionThreshold (props this))).

(** The function handed to [setTimeout], lines 283 and 284. *)
Definition scrollDetect_elapsed (this : Scrollbar) : Scrollbar :=
  let this := set_timeout this None in
  if Props.onScrollStop (props this)
  then invoke this (call_onScrollStop (scrollValues this))
  else this.

(** The host lets [ms] milliseconds pass: a timer that becomes due in the
    meantime runs. *)
Definition wait (ms : nat) (this : Scrollbar) : Scrollbar :=
  let this := set_now this (now this + ms) in
  match timeout this with
  | Some due => if (due <=? now this)%nat then scrollDetect_elapsed this else this
  | None => this
  end.

(** [handleScrollEvent], lines 267 to 269. *)
Definition handleScrollEvent (this : Scrollbar) : Scrollbar := scrollDetect this.

(** A burst of scroll events: the first one now, each next one [gap]
    milliseconds after the one before. *)
Fixpoint burst (gaps : list nat) (this : Scrollbar) : Scrollbar :=
  match gaps with
  | [] => handleScrollEvent this
  | gap :: gaps => burst gaps (wait gap (handleScrollEvent this))
  end.

(** How often the start and the stop callbacks were called. *)
Definition is_start (c : call) : bool :=
  match c with call_onScrollStart _ => true | _ => false end.
Definition is_stop (c : call) : bool :=
  match c with call_onScrollStop _ => true | _ => false end.
Definition starts (this : Scrollbar) : nat := List.length (filter is_start (calls this)).
Definition stops (this : Scrollbar) : nat := List.length (filter is_stop (calls this)).

(* ================================================================== *)
(** ** Public accessors and commands, lines 293 to 432 *)

(** [get scrollTop()] and the five getters after it. *)
Definition get_scrollTop (this : Scrollbar) : number :=
  match contentEl this with
  | Some el => Element.scrollTop el
  | None => 0%Z
  end.

Definition get_scrollLeft (this : Scrollbar) : number :=
  match contentEl this with
  | Some el => Element.scrollLeft el
  | None => 0%Z
  end.

Definition get_scrollHeight (this : Scrollbar) : number :=
  match contentEl this with
  | Some el => Element.scrollHeight el
  | None => 0%Z
  end.

Definition get_scrollWidth (this : Scrollbar) : number :=
  match contentEl this with
  | Some el => Element.scrollWidth el
  | None => 0%Z
  end.

Definition get_clientHeight (this : Scrollbar) : number :=
  match contentEl this with
  | Some el => Element.clientHeight el
  | None => 0%Z
  end.

Definition get_clientWidth (this : Scrollbar) : number :=
  match contentEl this with
  | Some el => Element.clientWidth el
  | None => 0%Z
  end.

(** [set scrollTop(top)], lines 307 to 312. *)
Definition set_scrollTop (top : number) (this : Scrollbar) : completion Scrollbar :=
  match contentEl this with
  | Some el =>
      let this := set_contentEl this (Some (Element.set_scrollTop top el)) in
      r <- update update_depth false this ;;
      Normal (snd r)
  | None => Normal this
  end.

(** [set scrollLeft(left)], lines 332 to 336. *)
Definition set_scrollLeft (left : number) (this : Scrollbar) : completion Scrollbar :=
  match contentEl this with
  | Some el => Normal (set_contentEl this (Some (Element.set_scrollLeft left el)))
  | None => Normal this
  end.

(** The four commands; each ends in [return this]. *)
Definition scrollToTop (this : Scrollbar) : Scrollbar :=
  match contentEl this with
  | Some el => set_contentEl this (Some (Element.set_scrollTop 0%Z el))
  | None => this
  end.

Definition scrollToBottom (this : Scrollbar) : Scrollbar :=
  match contentEl this with
  | Some el => set_contentEl this (Some (Element.set_scrollTop (Element.scrollHeight el) el))
  | None => this
  end.

Definition scrollToLeft (this : Scrollbar) : Scrollbar :=
  match contentEl this with
  | Some el => set_contentEl this (Some (Element.set_scrollLeft 0%Z el))
  | None => this
  end.

Definition scrollToRight (this : Scrollbar) : Scrollbar :=
  match contentEl this with
  | Some el => set_contentEl this (Some (Element.set_scrollLeft (Element.scrollWidth el) el))
  | None => this
  end.

(* ================================================================== *)
(** ** InteractionController: track clicks and thumb drags *)

(** The [scrollTarget] of lines 599 to 614, also the value lines 649 and 660
    assign: [computeScrollForOffset] on the geometry of the axis. *)
Definition scrollTarget (p : params) (this : Scrollbar) : completion number :=
  match p_axis p with
  | TYPE_X =>
      trackX <- deref (trackXEl this) ;;
      thumbX <- deref (thumbXEl this) ;;
      content <- deref (contentEl this) ;;
      Normal (computeScrollForOffset (getInnerWidth trackX) (Element.clientWidth thumbX)
                (p_offset p) (Element.scrollWidth content) (Element.clientWidth content))
  | TYPE_Y =>
      trackY <- deref (trackYEl this) ;;
      thumbY <- deref (thumbYEl this) ;;
      content <- deref (contentEl this) ;;
      Normal (computeScrollForOffset (getInnerHeight trackY) (Element.clientHeight thumbY)
                (p_offset p) (Element.scrollHeight content) (Element.clientHeight content))
  end.

(** [handleTrackClick = (e, params) => ...], lines 595 to 631. *)
Definition handleTrackClick (p : params) (this : Scrollbar) : completion Scrollbar :=
  let this :=
    if axis_eqb (p_axis p) TYPE_X && Props.trackXProps_onClick (props this)
    then invoke this (call_track_onClick p) else this in
  let this :=
    if axis_eqb (p_axis p) TYPE_Y && Props.trackYProps_onClick (props this)
    then invoke this (call_track_onClick p) else this in
  target <- scrollTarget p this ;;
  if String.eqb (Props.trackClickBehavior (props this)) "jump" then
    content <- deref (contentEl this) ;;
    match p_axis p with
    | TYPE_X => Normal (set_contentEl this (Some (Element.set_scrollLeft target content)))
    | TYPE_Y => Normal (set_contentEl this (Some (Element.set_scrollTop target content)))
    end
  else if String.eqb (Props.trackClickBehavior (props this)) "step" then
    content <- deref (contentEl this) ;;
    match p_axis p with
    | TYPE_X =>
        Normal (set_contentEl this (Some (Element.set_scrollLeft
          (if JS.lt (Element.scrollLeft content) target
           then JS.add (Element.scrollLeft content) (Element.clientWidth content)
           else JS.sub (Element.scrollLeft content) (Element.clientWidth content))
          content)))
    | TYPE_Y =>
        Normal (set_contentEl this (Some (Element.set_scrollTop
          (if JS.lt (Element.scrollTop content) target
           then JS.add (Element.scrollTop content) (Element.clientHeight content)
           else JS.sub (Element.scrollTop content) (Element.clientHeight content))
          content)))
    end
  else Normal this.

(** [handleThumbDrag = params => ...], lines 643 to 668. *)
Definition handleThumbDrag (p : params) (this : Scrollbar) : completion Scrollbar :=
  let this := scrollDetect this in
  match p_axis p with
  | TYPE_X =>
      let this :=
        if Props.thumbXProps_onDrag (props this)
        then invoke this (call_thumb_onDrag p) else this in
      target <- scrollTarget p this ;;
      content <- deref (contentEl this) ;;
      Normal (set_contentEl this (Some (Element.set_scrollLeft target content)))
  | TYPE_Y =>
      let this :=
        if Props.thumbYProps_onDrag (props this)
        then invoke this (call_thumb_onDrag p) else this in
      target <- scrollTarget p this ;;
      content <- deref (contentEl this) ;;
      Normal (set_contentEl this (Some (Element.set_scrollTop target content)))
  end.

(* ================================================================== *)
(** ** Vocabulary of the properties *)

(** A thumb offset computed from a scroll value and fed back through
    [computeScrollForOffset] with the same geometry. *)
Definition roundTrip (trackSize thumbSize scrollableSize viewportSize scrollValue : number)
  : number :=
  computeScrollForOffset trackSize thumbSize
    (computeThumbOffset trackSize thumbSize scrollableSize viewportSize scrollValue)
    scrollableSize viewportSize.

(** The tolerance a [ceil] in the thumb size can account for: rounding up
    moves the thumb length by less than one pixel, and one pixel of thumb
    travel is this much scroll distance. *)
Definition ceil_tolerance (trackSize thumbSize scrollableSize viewportSize : Q) : Q :=
  ((scrollableSize - viewportSize) / (trackSize - thumbSize))%Q.

(** The round trip reproduces the scroll value within that tolerance. *)
Definition reproduces_within_tolerance
  (trackSize thumbSize scrollableSize viewportSize scrollValue : Q) : Prop :=
  exists r : Q,
    roundTrip (Num trackSize) (Num thumbSize) (Num scrollableSize) (Num viewportSize)
      (Num scrollValue) = Num r /\
    (Qabs (scrollValue - r) <= ceil_tolerance trackSize thumbSize scrollableSize viewportSize)%Q.

(** Half a thumb length expressed in scroll distance: what the round trip
    loses by design, [computeScrollForOffset] taking the offset it is given
    for the place of the middle of the thumb. *)
Definition half_thumb_shift (trackSize thumbSize scrollableSize viewportSize : Q) : Q :=
  ((thumbSize / 2) * ((scrollableSize - viewportSize) / (trackSize - thumbSize)))%Q.


(** The proportion the thumb size comes from, in exact arithmetic. *)
Definition exact_proportion (trackSize scrollableSize viewportSize : Q) : Q :=
  (trackSize * viewportSize / scrollableSize)%Q.

(** [a] is a finite number of value [q]. *)
Definition is_num (a : number) (q : Q) : Prop :=
  exists q', a = Num q' /\ (q' == q)%Q.

Notation "a ~= q" := (is_num a q) (at level 70).

(** The unit roundoff of binary64, and half its smallest positive value:
    rounding moves a rational [q] by at most [|q| * u64 + eta64]. *)
Definition u64 : Q := pow2 (-53).
Definition eta64 : Q := pow2 (-1075).

(** The viewport's scroll position and length along an axis. *)
Definition position (a : axis) (this : Scrollbar) : number :=
  match a with
  | TYPE_X => get_scrollLeft this
  | TYPE_Y => get_scrollTop this
  end.

Definition viewportLength (a : axis) (this : Scrollbar) : number :=
  match a with
  | TYPE_X => get_clientWidth this
  | TYPE_Y => get_clientHeight this
  end.

(** The track and the thumb of an axis. *)
Definition trackEl (a : axis) (this : Scrollbar) : option Element.t :=
  match a with
  | TYPE_X => trackXEl this
  | TYPE_Y => trackYEl this
  end.

Definition thumbEl (a : axis) (this : Scrollbar) : option Element.t :=
  match a with
  | TYPE_X => thumbXEl this
  | TYPE_Y => thumbYEl this
  end.

(** The scroll value for a pointer offset on an axis, the offset taken as it
    comes: [computeScrollForOffset] on the lengths of the axis, with no
    regard to the orientation. *)
Definition pointer_target (a : axis) (offset : number) (track thumb content : Element.t)
  : number :=
  match a with
  | TYPE_X =>
      computeScrollForOffset (getInnerWidth track) (Element.clientWidth thumb) offset
        (Element.scrollWidth content) (Element.clientWidth content)
  | TYPE_Y =>
      computeScrollForOffset (getInnerHeight track) (Element.clientHeight thumb) offset
        (Element.scrollHeight content) (Element.clientHeight content)
  end.

(** The [style.transform] of an element reference. *)
Definition transform_of (el : option Element.t) : option css :=
  option_map (fun e => Style.transform (Element.style e)) el.

Definition map_completion {A B : Type} (f : A -> B) (c : completion A) : completion B :=
  match c with
  | Normal a => Normal (f a)
  | TypeError => TypeError
  | OutOfFuel => OutOfFuel
  end.

(** What a caller can see of the scroll state: the viewport's position, the
    stored snapshot's position, and where the two thumbs are placed. *)
Definition observe (this : Scrollbar) :=
  (get_scrollTop this, get_scrollLeft this,
   ScrollValues.scrollTop (scrollValues this), ScrollValues.scrollLeft (scrollValues this),
   transform_of (thumbYEl this), transform_of (thumbXEl this)).

(** The debounce threshold, and whether a start or a stop observer is configured. *)
Definition threshold (this : Scrollbar) : nat := Props.scrollDetectionThreshold (props this).

Definition observed (this : Scrollbar) : bool :=
  Props.onScrollStart (props this) || Props.onScrollStop (props this).

(** *** Instances for the examples

    A viewport of 100 by 100 pixels over a content of 800 by 500, scrolled to
    (100, 200); tracks of inner length 100 and thumbs 30 pixels long. *)
Definition viewport : Element.t :=
  Element.mk 100%Z 100%Z 500%Z 800%Z 200%Z 100%Z 100%Z 100%Z "ltr" Style.empty.
Definition track : Element.t :=
  Element.mk 100%Z 100%Z 100%Z 100%Z 0%Z 0%Z 100%Z 100%Z "ltr" Style.empty.
Definition thumb : Element.t :=
  Element.mk 30%Z 30%Z 30%Z 30%Z 0%Z 0%Z 30%Z 30%Z "ltr" Style.empty.
Definition holder : Element.t :=
  Element.mk 108%Z 108%Z 108%Z 108%Z 0%Z 0%Z 108%Z 108%Z "ltr" Style.empty.

(** The default props with both scroll observers configured. *)
Definition watching : Props.t :=
  Props.mk 30%Z "jump" None 100 false false false false false false false
     false false false false false true true.

(** The default props with [trackClickBehavior] set to ["step"]. *)
Definition stepping : Props.t :=
  Props.mk 30%Z "step" None 100 false false false false false false false
     false false false false false false false.

(** The instance after the constructor and the first [render], with
    [this.state.isRtl] as given (the constructor takes it from [props.rtl],
    and a first [update] resolves it when it is not a boolean). *)
Definition mounted (p : Props.t) (isRtl : option bool) : Scrollbar :=
  mkScrollbar p (State.mk (Some true) (Some true) isRtl) ScrollValues.initial
    (Some viewport) (Some holder) (Some holder) (Some track) (Some track)
    (Some thumb) (Some thumb) None 0 [].

(** The same after one call of [update]. *)
Definition synchronized (p : Props.t) (isRtl : bool) : Scrollbar :=
  match update update_depth false (mounted p (Some isRtl)) with
  | Normal (_, this) => this
  | _ => mounted p (Some isRtl)
  end.

(** The synchronized instance with a horizontal track no longer than the
    minimal thumb size: the 30 pixel thumb fills the 30 pixel track. *)
Definition short_track : Element.t :=
  Element.mk 30%Z 30%Z 30%Z 30%Z 0%Z 0%Z 30%Z 30%Z "ltr" Style.empty.

Definition cramped : Scrollbar :=
  set_trackXEl (synchronized Props.default false) (Some short_track).

(** [render] puts each thumb inside its track and the holder around all of
    it (lines 862 to 874): where a track is mounted so is its thumb, and the
    holder is. *)
Definition thumbs_mounted (this : Scrollbar) : Prop :=
  (present (trackYEl this) = true -> present (thumbYEl this) = true) /\
  (present (trackXEl this) = true -> present (thumbXEl this) = true) /\
  present (holderEl this) = true.

(** The viewport of the examples while its content still fitted, and after
    two tracks of 8 pixels have taken their room beside it. *)
Definition fitting : Element.t :=
  Element.mk 100%Z 100%Z 100%Z 100%Z 0%Z 0%Z 100%Z 100%Z "ltr" Style.empty.
Definition narrowed : Element.t :=
  Element.mk 92%Z 92%Z 500%Z 800%Z 200%Z 100%Z 92%Z 92%Z "ltr" Style.empty.

(** An instance synchronized while its content fitted, with no track
    mounted, whose content has since grown to that of [viewport]. *)
Definition grown : Scrollbar :=
  mkScrollbar Props.default (State.mk (Some false) (Some false) (Some false))
    (sample Props.default fitting false)
    (Some viewport) (Some holder) (Some holder) None None None None None 0 [].

(** A host that renders at once: it mounts the track and the thumb of an
    axis the state shows and unmounts those of an axis it hides, and the
    viewport, laid out again, is [narrowed]. *)
Definition remounting : rendering :=
  Immediate (fun this =>
    Elements.mk (Some narrowed) (holderEl this) (wrapperEl this)
      (if ToBoolean (State.trackYVisible (state this)) then Some track else None)
      (if ToBoolean (State.trackXVisible (state this)) then Some track else None)
      (if ToBoolean (State.trackYVisible (state this)) then Some thumb else None)
      (if ToBoolean (State.trackXVisible (state this)) then Some thumb else None)).

(** An instance whose viewport reference is still [null]. *)
Definition detached : Scrollbar := set_contentEl (mounted Props.default None) None.

(* ================================================================== *)
(** ** The constructor and the element references *)

(** [constructor(props)], lines 210 to 237: the snapshot with every property
    [null], both tracks taken as visible and the orientation of [props.rtl];
    no element reference is set yet, and no timer is pending.  [clock] is the
    host's time. *)
Definition constructor (p : Props.t) (clock : nat) : Scrollbar :=
  mkScrollbar p (State.mk (Some true) (Some true) (Props.rtl p)) ScrollValues.initial
    None None None None None None None None clock [].

(** The ref callbacks [render] installs (lines 821 to 841), called by React
    with the rendered elements. *)
Definition attach (holder wrapper content trackY trackX thumbY thumbX : option Element.t)
  (this : Scrollbar) : Scrollbar :=
  mkScrollbar (props this) (state this) (scrollValues this) content holder wrapper
    trackY trackX thumbY thumbX (timeout this) (now this) (calls this).

(* ================================================================== *)
(** ** Vocabulary of the further properties *)

(** [a] is finite and at most [b]. *)
Definition num_le (a b : number) : Prop :=
  exists x y : Q, a ~= x /\ b ~= y /\ (x <= y)%Q.

(** What a pass leaves alone: the props, the viewport, the wrapper, the two
    track elements, the timer of the scroll detector and the clock. *)
Definition untouched_by_pass (this this' : Scrollbar) : Prop :=
  props this' = props this /\ contentEl this' = contentEl this /\
  wrapperEl this' = wrapperEl this /\
  trackYEl this' = trackYEl this /\ trackXEl this' = trackXEl this /\
  timeout this' = timeout this /\ now this' = now this.

(** The instance fields a layout step of [commit] can write are the two
    thumbs and the holder; everything else is as before. *)
Definition layout_frame (this this' : Scrollbar) : Prop :=
  props this' = props this /\ state this' = state this /\
  scrollValues this' = scrollValues this /\ contentEl this' = contentEl this /\
  wrapperEl this' = wrapperEl this /\
  trackYEl this' = trackYEl this /\ trackXEl this' = trackXEl this /\
  timeout this' = timeout this /\ now this' = now this /\ calls this' = calls this.

(** The calls after a pass that commits: [onScroll], once, when it is
    configured and the previous snapshot had a scroll position. *)
Definition calls_after_commit (cur : ScrollValues.t) (this : Scrollbar) : list call :=
  if present (ScrollValues.scrollTop (scrollValues this)) && Props.onScroll (props this)
  then call_onScroll cur (scrollValues this) :: calls this
  else calls this.


(** The style [update] gives a thumb: placed and sized when scrolling along
    the axis is possible, collapsed and hidden otherwise. *)
Definition vertical_thumb_style (possible : bool) (offset size : number) (old : Style.t)
  : Style.t :=
  if possible
  then Style.mk (css_translateY offset) (Style.width old) (css_px size) css_null
  else Style.mk css_null (Style.width old) (css_px 0%Z) css_none.

Definition horizontal_thumb_style (possible : bool) (offset size : number) (old : Style.t)
  : Style.t :=
  if possible
  then Style.mk (css_translateX offset) (css_px size) (Style.height old) css_null
  else Style.mk css_null (css_px 0%Z) (Style.height old) css_none.

(** The axis a gesture is not on. *)
Definition other_axis (a : axis) : axis :=
  match a with
  | TYPE_X => TYPE_Y
  | TYPE_Y => TYPE_X
  end.

(** Whether the callback prop of the clicked track, or of the dragged thumb,
    is configured. *)
Definition onClick_configured (p : params) (this : Scrollbar) : bool :=
  match p_axis p with
  | TYPE_X => Props.trackXProps_onClick (props this)
  | TYPE_Y => Props.trackYProps_onClick (props this)
  end.

Definition onDrag_configured (p : params) (this : Scrollbar) : bool :=
  match p_axis p with
  | TYPE_X => Props.thumbXProps_onDrag (props this)
  | TYPE_Y => Props.thumbYProps_onDrag (props this)
  end.

(** Whether the track, the thumb and the viewport a gesture on an axis
    reads are all present. *)
Definition axis_elements (a : axis) (this : Scrollbar) : bool :=
  match a with
  | TYPE_X => present (trackXEl this) && present (thumbXEl this) && present (contentEl this)
  | TYPE_Y => present (trackYEl this) && present (thumbYEl this) && present (contentEl this)
  end.

(** What a gesture handler leaves alone: everything but the viewport and
    the calls (and, for a drag, the timer). *)
Definition untouched_by_gesture (this this' : Scrollbar) : Prop :=
  props this' = props this /\ state this' = state this /\
  scrollValues this' = scrollValues this /\
  holderEl this' = holderEl this /\ wrapperEl this' = wrapperEl this /\
  trackYEl this' = trackYEl this /\ trackXEl this' = trackXEl this /\
  thumbYEl this' = thumbYEl this /\ thumbXEl this' = thumbXEl this /\
  now this' = now this /\
  get_scrollHeight this' = get_scrollHeight this /\
  get_scrollWidth this' = get_scrollWidth this /\
  get_clientHeight this' = get_clientHeight this /\
  get_clientWidth this' = get_clientWidth this.




(* ================================================================== *)
(** * Properties *)

(** ** binary64 rounding *)

Lemma pow2_pos (e : Z) : (0 < pow2 e)%Q.
Proof. apply Qpower_0_lt. reflexivity. Qed.

Lemma pow2_add (a b : Z) : (pow2 (a + b) == pow2 a * pow2 b)%Q.
Proof. apply Qpower_plus. discriminate. Qed.

Lemma pow2_le (a b : Z) : (a <= b)%Z -> (pow2 a <= pow2 b)%Q.
Proof. intros H. apply Qpower_le_compat_l; [exact H|discriminate]. Qed.

Lemma pow2_lt (a b : Z) : (a < b)%Z -> (pow2 a < pow2 b)%Q.
Proof. intros H. apply Qpower_lt_compat_l; [exact H|reflexivity]. Qed.

Lemma pow2_lt_inv (a b : Z) : (pow2 a < pow2 b)%Q -> (a < b)%Z.
Proof. intros H. apply (Qpower_lt_compat_l_inv 2); [exact H|reflexivity]. Qed.

Lemma pow2_Z (e : Z) : (0 <= e)%Z -> (pow2 e == inject_Z (2 ^ e))%Q.
Proof. intros H. unfold pow2. now rewrite Zpower_Qpower. Qed.

Lemma pow2_S (e : Z) : (pow2 (e + 1) == 2 * pow2 e)%Q.
Proof. rewrite pow2_add. change (pow2 1) with 2%Q. ring. Qed.

Lemma pow2_opp (e : Z) : (pow2 (- e) == / pow2 e)%Q.
Proof. apply Qpower_opp. Qed.

Lemma pow2_sub (a b : Z) : (pow2 (a - b) == pow2 a / pow2 b)%Q.
Proof. unfold Z.sub. rewrite pow2_add, pow2_opp. reflexivity. Qed.

Lemma Q_frac (q : Q) : (q == inject_Z (Qnum q) / inject_Z (Zpos (Qden q)))%Q.
Proof. destruct q as [n d]. cbn [Qnum Qden]. apply Qmake_Qdiv. Qed.

Lemma Qnum_pos (q : Q) : (0 < q)%Q -> (0 < Qnum q)%Z.
Proof. unfold Qlt. cbn. lia. Qed.

Lemma ilog2_spec (q : Q) : (0 < q)%Q -> (pow2 (ilog2 q) <= q < pow2 (ilog2 q + 1))%Q.
Proof.
  intros Hq. pose proof (Qnum_pos q Hq) as Hn.
  set (n := Qnum q) in *. set (d := Zpos (Qden q)).
  assert (0 < d)%Z as Hd by (unfold d; lia).
  destruct (Z.log2_spec n Hn) as [Ha1 Ha2].
  destruct (Z.log2_spec d Hd) as [Hb1 Hb2].
  pose proof (Z.log2_nonneg n) as Ha0. pose proof (Z.log2_nonneg d) as Hb0.
  set (a := Z.log2 n) in *. set (b := Z.log2 d) in *.
  assert (0 < inject_Z d)%Q as HdQ.
  { change 0%Q with (inject_Z 0). rewrite <- Zlt_Qlt. exact Hd. }
  assert (q * inject_Z d == inject_Z n)%Q as Hqd.
  { rewrite (Q_frac q) at 1. fold n d. field. intros E. rewrite E in HdQ. discriminate. }
  (* upper bound *)
  assert (q < pow2 (a - b + 1))%Q as Hup.
  { apply (Qmult_lt_r _ _ (inject_Z d) HdQ). rewrite Hqd.
    apply Qlt_le_trans with (pow2 (a + 1)).
    - rewrite pow2_Z by lia. rewrite <- Zlt_Qlt.
      replace (a + 1)%Z with (Z.succ a) by lia. exact Ha2.
    - replace (a + 1)%Z with ((a - b + 1) + b)%Z by lia. rewrite pow2_add.
      apply Qmult_le_l; [apply pow2_pos|].
      rewrite pow2_Z by lia. rewrite <- Zle_Qle. exact Hb1. }
  (* lower bound *)
  assert (pow2 (a - b - 1) <= q)%Q as Hlo.
  { apply (Qmult_le_r _ _ (inject_Z d) HdQ). rewrite Hqd.
    apply Qle_trans with (pow2 a).
    - replace a with ((a - b - 1) + (b + 1))%Z at 2 by lia. rewrite pow2_add.
      apply Qmult_le_l; [apply pow2_pos|].
      rewrite pow2_Z by lia. rewrite <- Zle_Qle.
      replace (b + 1)%Z with (Z.succ b) by lia. lia.
    - rewrite pow2_Z by lia. rewrite <- Zle_Qle. exact Ha1. }
  unfold ilog2. fold n d a b.
  destruct (Qle_bool (pow2 (a - b)) q) eqn:E.
  - apply Qle_bool_iff in E. split; assumption.
  - split; [exact Hlo|].
    replace (a - b - 1 + 1)%Z with (a - b)%Z by lia.
    apply Qnot_le_lt. intros H. apply Qle_bool_iff in H. congruence.
Qed.

Lemma ilog2_unique (q : Q) (e : Z) :
  (pow2 e <= q)%Q -> (q < pow2 (e + 1))%Q -> ilog2 q = e.
Proof.
  intros H1 H2.
  assert (0 < q)%Q as Hq by (eapply Qlt_le_trans; [apply pow2_pos|exact H1]).
  destruct (ilog2_spec q Hq) as [K1 K2].
  assert (ilog2 q < e + 1)%Z.
  { apply pow2_lt_inv. eapply Qle_lt_trans; eassumption. }
  assert (e < ilog2 q + 1)%Z.
  { apply pow2_lt_inv. eapply Qle_lt_trans; eassumption. }
  lia.
Qed.

Lemma ilog2_comp (q q' : Q) : (0 < q)%Q -> (q == q')%Q -> ilog2 q = ilog2 q'.
Proof.
  intros Hq E. symmetry. destruct (ilog2_spec q Hq) as [K1 K2].
  apply ilog2_unique; rewrite <- E; assumption.
Qed.

Lemma ilog2_mono (q q' : Q) : (0 < q)%Q -> (q <= q')%Q -> (ilog2 q <= ilog2 q')%Z.
Proof.
  intros Hq H.
  assert (0 < q')%Q as Hq' by (eapply Qlt_le_trans; eassumption).
  destruct (ilog2_spec q Hq) as [K1 _]. destruct (ilog2_spec q' Hq') as [_ K2].
  assert (ilog2 q < ilog2 q' + 1)%Z; [|lia].
  apply pow2_lt_inv. eapply Qle_lt_trans; [exact K1|].
  eapply Qle_lt_trans; eassumption.
Qed.

Lemma rne_comp (x y : Q) : (x == y)%Q -> rne x = rne y.
Proof.
  intros E. unfold rne.
  assert (Qfloor x = Qfloor y) as -> by now rewrite E.
  assert ((x - inject_Z (Qfloor y) ?= 1 # 2) = (y - inject_Z (Qfloor y) ?= 1 # 2))%Q as ->
    by now rewrite E.
  reflexivity.
Qed.

Lemma rne_cases (x : Q) :
  (rne x = Qfloor x /\ (x - inject_Z (Qfloor x) <= 1 # 2)%Q) \/
  (rne x = (Qfloor x + 1)%Z /\ (1 # 2 <= x - inject_Z (Qfloor x))%Q).
Proof.
  unfold rne. destruct (Qcompare_spec (x - inject_Z (Qfloor x)) (1 # 2)) as [E|E|E].
  - destruct (Z.even (Qfloor x)); [left|right]; split; try reflexivity; lra.
  - left. split; [reflexivity|apply Qlt_le_weak; exact E].
  - right. split; [reflexivity|apply Qlt_le_weak; exact E].
Qed.

Lemma rne_err (x : Q) : (Qabs (inject_Z (rne x) - x) <= 1 # 2)%Q.
Proof.
  pose proof (Qfloor_le x) as H1. pose proof (Qlt_floor x) as H2.
  rewrite inject_Z_plus in H2. change (inject_Z 1) with 1%Q in H2.
  apply Qabs_Qle_condition.
  destruct (rne_cases x) as [[-> H]|[-> H]].
  - split; lra.
  - rewrite inject_Z_plus. change (inject_Z 1) with 1%Q. split; lra.
Qed.

Lemma rne_Z (z : Z) : rne (inject_Z z) = z.
Proof.
  unfold rne. rewrite Qfloor_Z.
  assert (inject_Z z - inject_Z z == 0)%Q as -> by ring. reflexivity.
Qed.

Lemma rne_mono (x y : Q) : (x <= y)%Q -> (rne x <= rne y)%Z.
Proof.
  intros H. pose proof (Qfloor_resp_le x y H) as Hf.
  destruct (Z.eq_dec (Qfloor x) (Qfloor y)) as [E|NE].
  - unfold rne. rewrite <- E.
    destruct (Qcompare_spec (x - inject_Z (Qfloor x)) (1 # 2)) as [Ex|Ex|Ex];
    destruct (Qcompare_spec (y - inject_Z (Qfloor x)) (1 # 2)) as [Ey|Ey|Ey];
    try destruct (Z.even (Qfloor x)); try lia; exfalso; lra.
  - assert (Qfloor x + 1 <= Qfloor y)%Z by lia.
    destruct (rne_cases x) as [[-> _]|[-> _]]; destruct (rne_cases y) as [[-> _]|[-> _]]; lia.
Qed.

Lemma rne_nonneg (x : Q) : (0 <= x)%Q -> (0 <= rne x)%Z.
Proof. intros H. rewrite <- (rne_Z 0). apply rne_mono. exact H. Qed.

(* ---------------- round_pos ---------------- *)

Lemma quantum_comp (q q' : Q) : (0 < q)%Q -> (q == q')%Q -> quantum q = quantum q'.
Proof. intros H E. unfold quantum. now rewrite (ilog2_comp q q' H E). Qed.

Lemma round_pos_comp (q q' : Q) : (0 < q)%Q -> (q == q')%Q -> (round_pos q == round_pos q')%Q.
Proof.
  intros H E. unfold round_pos. rewrite <- (quantum_comp q q' H E).
  assert (rne (q / pow2 (quantum q)) = rne (q' / pow2 (quantum q))) as ->; [|reflexivity].
  apply rne_comp. apply Qmult_comp; [exact E|reflexivity].
Qed.

Lemma pow2_neq0 (e : Z) : ~ (pow2 e == 0)%Q.
Proof. intros E. pose proof (pow2_pos e) as H. rewrite E in H. discriminate. Qed.

Lemma div_pow2_lt (q : Q) (e c : Z) : (q < pow2 e)%Q -> (q / pow2 c < pow2 (e - c))%Q.
Proof.
  intros H. apply Qlt_shift_div_r; [apply pow2_pos|].
  rewrite <- pow2_add. replace (e - c + c)%Z with e by lia. exact H.
Qed.

Lemma div_pow2_le (q : Q) (e c : Z) : (pow2 e <= q)%Q -> (pow2 (e - c) <= q / pow2 c)%Q.
Proof.
  intros H. apply Qle_shift_div_l; [apply pow2_pos|].
  rewrite <- pow2_add. replace (e - c + c)%Z with e by lia. exact H.
Qed.

(** The significand of a positive rational is at most [2^53]. *)
Lemma significand_le (q : Q) :
  (0 < q)%Q -> (0 <= rne (q / pow2 (quantum q)) <= 2 ^ 53)%Z.
Proof.
  intros Hq. destruct (ilog2_spec q Hq) as [_ H2]. split.
  - apply rne_nonneg. apply Qle_shift_div_l; [apply pow2_pos|]. lra.
  - rewrite <- (rne_Z (2 ^ 53)). apply rne_mono.
    apply Qlt_le_weak. eapply Qlt_le_trans.
    + apply div_pow2_lt. exact H2.
    + rewrite <- pow2_Z by lia. apply pow2_le. unfold quantum. lia.
Qed.

(** In the normal range it is at least [2^52]. *)
Lemma significand_ge (q : Q) :
  (0 < q)%Q -> (-1074 <= ilog2 q - 52)%Z -> (2 ^ 52 <= rne (q / pow2 (quantum q)))%Z.
Proof.
  intros Hq Hn. destruct (ilog2_spec q Hq) as [H1 _].
  rewrite <- (rne_Z (2 ^ 52)). apply rne_mono.
  rewrite <- pow2_Z by lia.
  replace 52%Z with (ilog2 q - quantum q)%Z at 1 by (unfold quantum; lia).
  apply div_pow2_le. exact H1.
Qed.

Lemma round_pos_err (q : Q) :
  (Qabs (round_pos q - q) <= pow2 (quantum q) * (1 # 2))%Q.
Proof.
  unfold round_pos. set (c := quantum q).
  pose proof (pow2_pos c) as Hc. pose proof (pow2_neq0 c) as Hc0.
  assert (inject_Z (rne (q / pow2 c)) * pow2 c - q
          == (inject_Z (rne (q / pow2 c)) - q / pow2 c) * pow2 c)%Q as -> by (field; exact Hc0).
  rewrite Qabs_Qmult, (Qabs_pos (pow2 c)) by lra.
  rewrite (Qmult_comm (pow2 c)). apply Qmult_le_compat_r; [apply rne_err|lra].
Qed.

Lemma round_pos_nonneg (q : Q) : (0 < q)%Q -> (0 <= round_pos q)%Q.
Proof.
  intros Hq. unfold round_pos. apply Qmult_le_0_compat.
  - change 0%Q with (inject_Z 0). rewrite <- Zle_Qle. apply significand_le. exact Hq.
  - apply Qlt_le_weak, pow2_pos.
Qed.

Lemma round_pos_mono (q q' : Q) : (0 < q)%Q -> (q <= q')%Q -> (round_pos q <= round_pos q')%Q.
Proof.
  intros Hq H.
  assert (0 < q')%Q as Hq' by (eapply Qlt_le_trans; eassumption).
  pose proof (ilog2_mono q q' Hq H) as He.
  destruct (Z.eq_dec (quantum q) (quantum q')) as [E|NE].
  - unfold round_pos. rewrite <- E. apply Qmult_le_compat_r; [|apply Qlt_le_weak, pow2_pos].
    rewrite <- Zle_Qle. apply rne_mono.
    apply Qmult_le_compat_r; [exact H|]. apply Qlt_le_weak, Qinv_lt_0_compat, pow2_pos.
  - assert (quantum q + 1 <= quantum q')%Z as Hc by (unfold quantum in *; lia).
    assert (-1074 <= ilog2 q' - 52)%Z as Hn by (unfold quantum in *; lia).
    apply Qle_trans with (pow2 (53 + quantum q)).
    + unfold round_pos. rewrite pow2_add. apply Qmult_le_compat_r; [|apply Qlt_le_weak, pow2_pos].
      rewrite (pow2_Z 53) by lia. rewrite <- Zle_Qle. apply significand_le. exact Hq.
    + apply Qle_trans with (pow2 (52 + quantum q')); [apply pow2_le; lia|].
      unfold round_pos. rewrite pow2_add. apply Qmult_le_compat_r; [|apply Qlt_le_weak, pow2_pos].
      rewrite (pow2_Z 52) by lia. rewrite <- Zle_Qle. apply significand_ge; assumption.
Qed.

(** A rational on the grid of its own quantum is its own rounding. *)
Lemma round_pos_exact (q : Q) (z : Z) :
  (q / pow2 (quantum q) == inject_Z z)%Q -> (round_pos q == q)%Q.
Proof.
  intros E. unfold round_pos. rewrite (rne_comp _ _ E), rne_Z, <- E.
  field. apply pow2_neq0.
Qed.

Lemma round_pos_dyadic (z k : Z) :
  (0 < z < 2 ^ 53)%Z -> (-1074 <= k)%Z ->
  (round_pos (inject_Z z * pow2 k) == inject_Z z * pow2 k)%Q.
Proof.
  intros Hz Hk. set (q := (inject_Z z * pow2 k)%Q).
  assert (0 < q)%Q as Hq.
  { unfold q. apply Qmult_lt_0_compat; [|apply pow2_pos].
    change 0%Q with (inject_Z 0). rewrite <- Zlt_Qlt. lia. }
  assert (q < pow2 (53 + k))%Q as Hup.
  { unfold q. rewrite pow2_add. apply Qmult_lt_r; [apply pow2_pos|].
    rewrite pow2_Z by lia. rewrite <- Zlt_Qlt. lia. }
  destruct (ilog2_spec q Hq) as [H1 _].
  assert (ilog2 q < 53 + k)%Z as He.
  { apply pow2_lt_inv. eapply Qle_lt_trans; eassumption. }
  assert (quantum q <= k)%Z as Hc by (unfold quantum; lia).
  apply (round_pos_exact q (z * 2 ^ (k - quantum q))).
  rewrite inject_Z_mult, <- pow2_Z by lia. unfold q.
  rewrite pow2_sub. field. apply pow2_neq0.
Qed.

Lemma Qnum_neg (q : Q) : (q < 0)%Q -> (Qnum q < 0)%Z.
Proof. unfold Qlt. cbn. lia. Qed.

Lemma Qnum_zero (q : Q) : (q == 0)%Q -> Qnum q = 0%Z.
Proof. unfold Qeq. cbn. lia. Qed.

Lemma round_zero (q : Q) : (q == 0)%Q -> round q = Num 0.
Proof. intros E. unfold round. now rewrite (Qnum_zero q E). Qed.

Lemma round_positive (q : Q) :
  (0 < q)%Q ->
  round q = if Qle_bool (pow2 1024) (round_pos q) then Infinity else Num (Qred (round_pos q)).
Proof.
  intros H. apply Qnum_pos in H. unfold round. destruct (Qnum q); try lia. reflexivity.
Qed.

Lemma round_negative (q : Q) :
  (q < 0)%Q ->
  round q = if Qle_bool (pow2 1024) (round_pos (- q)) then NegInfinity
            else Num (Qred (- round_pos (- q))).
Proof.
  intros H. apply Qnum_neg in H. unfold round. destruct (Qnum q); try lia. reflexivity.
Qed.

Lemma round_comp (q q' : Q) : (q == q')%Q -> round q = round q'.
Proof.
  intros E. destruct (Qlt_le_dec 0 q) as [H|H].
  - rewrite (round_positive q H), (round_positive q') by (rewrite <- E; exact H).
    pose proof (round_pos_comp q q' H E) as Er.
    rewrite (Qred_complete _ _ Er).
    assert (Qle_bool (pow2 1024) (round_pos q) = Qle_bool (pow2 1024) (round_pos q')) as ->
      by now rewrite Er.
    reflexivity.
  - destruct (Qle_lt_or_eq _ _ H) as [H'|H'].
    + assert (0 < - q)%Q as Hn by lra.
      assert (- q == - q')%Q as En by now rewrite E.
      rewrite (round_negative q H'), (round_negative q') by (rewrite <- E; exact H').
      pose proof (round_pos_comp _ _ Hn En) as Er.
      assert (- round_pos (- q) == - round_pos (- q'))%Q as Er' by now rewrite Er.
      rewrite (Qred_complete _ _ Er').
      assert (Qle_bool (pow2 1024) (round_pos (- q)) = Qle_bool (pow2 1024) (round_pos (- q')))
        as -> by now rewrite Er.
      reflexivity.
    + rewrite (round_zero q H'), (round_zero q'); [reflexivity|]. now rewrite <- E.
Qed.

(** What [round] returns: the rounded magnitude with the sign of [q], unless
    it reaches [2^1024]. *)
Lemma round_Num (q r : Q) :
  round q = Num r ->
  ((q == 0)%Q /\ (r == 0)%Q) \/
  ((0 < q)%Q /\ (r == round_pos q)%Q /\ (r < pow2 1024)%Q) \/
  ((q < 0)%Q /\ (r == - round_pos (- q))%Q /\ (- pow2 1024 < r)%Q).
Proof.
  intros E. destruct (Qlt_le_dec 0 q) as [H|H].
  - right; left. rewrite (round_positive q H) in E.
    destruct (Qle_bool _ _) eqn:B; [discriminate|].
    assert (r = Qred (round_pos q)) as -> by congruence.
    split; [exact H|]. split; [apply Qred_correct|]. rewrite Qred_correct.
    apply Qnot_le_lt. intros K. apply Qle_bool_iff in K. congruence.
  - destruct (Qle_lt_or_eq _ _ H) as [H'|H'].
    + right; right. rewrite (round_negative q H') in E.
      destruct (Qle_bool _ _) eqn:B; [discriminate|].
      assert (r = Qred (- round_pos (- q))) as -> by congruence.
      split; [exact H'|]. split; [apply Qred_correct|]. rewrite Qred_correct.
      assert (round_pos (- q) < pow2 1024)%Q; [|lra].
      apply Qnot_le_lt. intros K. apply Qle_bool_iff in K. congruence.
    + left. rewrite (round_zero q H') in E.
      assert (r = 0%Q) as -> by congruence. split; [exact H'|reflexivity].
Qed.

Lemma round_nonneg (q r : Q) : (0 <= q)%Q -> round q = Num r -> (0 <= r)%Q.
Proof.
  intros H E. destruct (round_Num q r E) as [[_ K]|[(Hq & K & _)|(Hq & _)]].
  - rewrite K. apply Qle_refl.
  - rewrite K. apply round_pos_nonneg. exact Hq.
  - exfalso. lra.
Qed.

Lemma round_nonpos (q r : Q) : (q <= 0)%Q -> round q = Num r -> (r <= 0)%Q.
Proof.
  intros H E. destruct (round_Num q r E) as [[_ K]|[(Hq & _)|(Hq & K & _)]].
  - rewrite K. apply Qle_refl.
  - exfalso. lra.
  - rewrite K. assert (0 < - q)%Q as Hn by lra.
    pose proof (round_pos_nonneg _ Hn). lra.
Qed.

(** Rounding is monotone. *)
Lemma round_mono (q q' r r' : Q) :
  (q <= q')%Q -> round q = Num r -> round q' = Num r' -> (r <= r')%Q.
Proof.
  intros H E E'.
  destruct (Qlt_le_dec 0 q) as [Hq|Hq].
  - destruct (round_Num q r E) as [[K _]|[(_ & K & _)|(K & _)]]; try (exfalso; lra).
    assert (0 < q')%Q as Hq' by lra.
    destruct (round_Num q' r' E') as [[K' _]|[(_ & K' & _)|(K' & _)]]; try (exfalso; lra).
    rewrite K, K'. apply round_pos_mono; assumption.
  - pose proof (round_nonpos q r Hq E) as Hr.
    destruct (Qlt_le_dec q' 0) as [Hq'|Hq'].
    + assert (q < 0)%Q as Hq0 by lra.
      destruct (round_Num q r E) as [[K _]|[(K & _)|(_ & K & _)]]; try (exfalso; lra).
      destruct (round_Num q' r' E') as [[K' _]|[(K' & _)|(_ & K' & _)]]; try (exfalso; lra).
      rewrite K, K'.
      assert (round_pos (- q') <= round_pos (- q))%Q; [|lra].
      apply round_pos_mono; lra.
    + pose proof (round_nonneg q' r' Hq' E'). lra.
Qed.

(** A rational of magnitude at most [2^1023] rounds to a finite number. *)
Lemma round_pos_1023 : (round_pos (pow2 1023) == pow2 1023)%Q.
Proof.
  assert (pow2 1023 == inject_Z 1 * pow2 1023)%Q as E by ring.
  rewrite (round_pos_comp _ _ (pow2_pos 1023) E).
  rewrite round_pos_dyadic; [ring|lia|lia].
Qed.

Lemma round_finite (q : Q) : (Qabs q <= pow2 1023)%Q -> exists r, round q = Num r.
Proof.
  intros H. apply Qabs_Qle_condition in H. destruct H as [H1 H2].
  assert (pow2 1023 < pow2 1024)%Q as Hlt by (apply pow2_lt; lia).
  destruct (Qlt_le_dec 0 q) as [Hq|Hq].
  - rewrite (round_positive q Hq).
    pose proof (round_pos_mono q _ Hq H2) as K. rewrite round_pos_1023 in K.
    destruct (Qle_bool _ _) eqn:B; [|eauto].
    apply Qle_bool_iff in B. exfalso. lra.
  - destruct (Qle_lt_or_eq _ _ Hq) as [H'|H'].
    + rewrite (round_negative q H').
      assert (0 < - q)%Q as Hn by lra. assert (- q <= pow2 1023)%Q as Hb by lra.
      pose proof (round_pos_mono _ _ Hn Hb) as K. rewrite round_pos_1023 in K.
      destruct (Qle_bool _ _) eqn:B; [|eauto].
      apply Qle_bool_iff in B. exfalso. lra.
    + rewrite (round_zero q H'). eauto.
Qed.

Lemma Qred_inject_Z (z : Z) : Qred (inject_Z z) = inject_Z z.
Proof.
  unfold Qred, inject_Z.
  pose proof (Z.ggcd_gcd z 1) as G. pose proof (Z.ggcd_correct_divisors z 1) as D.
  destruct (Z.ggcd z 1) as [g [a b]]. cbn [fst snd] in *.
  rewrite Z.gcd_1_r in G. subst g. destruct D as [D1 D2].
  assert (a = z) as -> by lia. assert (b = 1%Z) as -> by lia. reflexivity.
Qed.

Lemma round_error (q r : Q) :
  round q = Num r -> (Qabs (r - q) <= Qabs q * u64 + eta64)%Q.
Proof.
  assert (forall p : Q, (0 < p)%Q -> (Qabs (round_pos p - p) <= p * u64 + eta64)%Q) as Pos.
  { intros p Hp. eapply Qle_trans; [apply round_pos_err|].
    destruct (ilog2_spec p Hp) as [H1 _].
    pose proof (pow2_pos (-1075)) as He. fold eta64 in He.
    assert (0 < p * u64)%Q as Hu by (apply Qmult_lt_0_compat; [exact Hp|apply pow2_pos]).
    unfold quantum. destruct (Z.max_spec (ilog2 p - 52) (-1074)) as [[_ ->]|[_ ->]].
    - assert (pow2 (-1074) * (1 # 2) == eta64)%Q as ->; [|lra].
      unfold eta64. replace (-1074)%Z with (-1075 + 1)%Z by lia. rewrite pow2_S. field.
    - assert (pow2 (ilog2 p - 52) * (1 # 2) == pow2 (ilog2 p) * u64)%Q as ->.
      { unfold u64. replace (ilog2 p - 52)%Z with (ilog2 p + -53 + 1)%Z by lia.
        rewrite pow2_S, pow2_add. field. }
      assert (pow2 (ilog2 p) * u64 <= p * u64)%Q; [|lra].
      apply Qmult_le_compat_r; [exact H1|apply Qlt_le_weak, pow2_pos]. }
  intros E. destruct (round_Num q r E) as [[K1 K2]|[(Hq & K & _)|(Hq & K & _)]].
  - rewrite K1, K2. vm_compute. discriminate.
  - rewrite K, (Qabs_pos q) by lra. apply Pos. exact Hq.
  - rewrite K, (Qabs_neg q) by lra.
    assert (- round_pos (- q) - q == - (round_pos (- q) - - q))%Q as -> by ring.
    rewrite Qabs_opp. apply Pos. lra.
Qed.

Lemma round_error_normal (q r : Q) :
  (pow2 (-1022) <= Qabs q)%Q -> round q = Num r -> (Qabs (r - q) <= Qabs q * u64)%Q.
Proof.
  assert (forall p : Q, (pow2 (-1022) <= p)%Q -> (Qabs (round_pos p - p) <= p * u64)%Q) as Pos.
  { intros p Hn.
    assert (0 < p)%Q as Hp by (pose proof (pow2_pos (-1022)); lra).
    eapply Qle_trans; [apply round_pos_err|].
    destruct (ilog2_spec p Hp) as [H1 H2].
    assert (-1022 < ilog2 p + 1)%Z as He.
    { apply pow2_lt_inv. eapply Qle_lt_trans; eassumption. }
    unfold quantum. rewrite Z.max_l by lia.
    assert (pow2 (ilog2 p - 52) * (1 # 2) == pow2 (ilog2 p) * u64)%Q as ->.
    { unfold u64. replace (ilog2 p - 52)%Z with (ilog2 p + -53 + 1)%Z by lia.
      rewrite pow2_S, pow2_add. field. }
    apply Qmult_le_compat_r; [exact H1|apply Qlt_le_weak, pow2_pos]. }
  intros Hn E. pose proof (pow2_pos (-1022)) as Hpos.
  destruct (round_Num q r E) as [[K1 K2]|[(Hq & K & _)|(Hq & K & _)]].
  - exfalso. rewrite K1 in Hn. change (Qabs 0) with 0%Q in Hn. lra.
  - rewrite (Qabs_pos q) in * by lra. rewrite K. apply Pos. exact Hn.
  - rewrite (Qabs_neg q) in * by lra. rewrite K.
    assert (- round_pos (- q) - q == - (round_pos (- q) - - q))%Q as -> by ring.
    rewrite Qabs_opp. apply Pos. exact Hn.
Qed.

(** Integers up to [2^53] in magnitude are binary64 numbers. *)
Lemma round_pos_int (z : Z) : (0 < z <= 2 ^ 53)%Z -> (round_pos (inject_Z z) == inject_Z z)%Q.
Proof.
  intros Hz.
  assert (0 < inject_Z z)%Q as Hq by (change 0%Q with (inject_Z 0); rewrite <- Zlt_Qlt; lia).
  destruct (Z.eq_dec z (2 ^ 53)) as [->|NE].
  - assert (inject_Z (2 ^ 53) == inject_Z (2 ^ 52) * pow2 1)%Q as E by reflexivity.
    rewrite (round_pos_comp _ _ Hq E). apply round_pos_dyadic; lia.
  - assert (inject_Z z == inject_Z z * pow2 0)%Q as E by (change (pow2 0) with 1%Q; ring).
    rewrite (round_pos_comp _ _ Hq E), round_pos_dyadic by lia. now rewrite <- E.
Qed.

Lemma round_int (z : Z) : (Z.abs z <= 2 ^ 53)%Z -> round (inject_Z z) = Num (inject_Z z).
Proof.
  intros Hz.
  assert (pow2 53 < pow2 1024)%Q as Hlt by (apply pow2_lt; lia).
  assert (forall p, (0 < p <= 2 ^ 53)%Z -> Qle_bool (pow2 1024) (round_pos (inject_Z p)) = false)
    as Fin.
  { intros p Hp. destruct (Qle_bool _ _) eqn:B; [|reflexivity].
    apply Qle_bool_iff in B. rewrite (round_pos_int p Hp) in B.
    assert (inject_Z p <= pow2 53)%Q; [|exfalso; lra].
    rewrite (pow2_Z 53) by lia. rewrite <- Zle_Qle. lia. }
  destruct (Z.lt_trichotomy z 0) as [H|[->|H]].
  - assert (inject_Z z < 0)%Q as Hq by (change 0%Q with (inject_Z 0); rewrite <- Zlt_Qlt; lia).
    rewrite (round_negative _ Hq), <- inject_Z_opp, Fin by lia.
    assert (- round_pos (inject_Z (- z)) == inject_Z z)%Q as E.
    { rewrite round_pos_int by lia. rewrite inject_Z_opp. ring. }
    rewrite (Qred_complete _ _ E), Qred_inject_Z. reflexivity.
  - reflexivity.
  - assert (0 < inject_Z z)%Q as Hq by (change 0%Q with (inject_Z 0); rewrite <- Zlt_Qlt; lia).
    rewrite (round_positive _ Hq), Fin by lia.
    rewrite (Qred_complete _ _ (round_pos_int z ltac:(lia))), Qred_inject_Z. reflexivity.
Qed.

Ltac halves := unfold Qdiv in *; change (/ 2)%Q with (1 # 2)%Q in *.

(** So are their halves. *)
Lemma round_half (z : Z) :
  (Z.abs z <= 2 ^ 53)%Z -> round (inject_Z z / 2) ~= (inject_Z z / 2)%Q.
Proof.
  intros Hz.
  assert (forall p, (0 < p <= 2 ^ 53)%Z ->
            (round_pos (inject_Z p / 2) == inject_Z p / 2)%Q) as Half.
  { intros p Hp.
    assert (0 < inject_Z p / 2)%Q as Hq.
    { apply Qlt_shift_div_l; [reflexivity|]. rewrite Qmult_0_l.
      change 0%Q with (inject_Z 0). rewrite <- Zlt_Qlt. lia. }
    destruct (Z.eq_dec p (2 ^ 53)) as [->|NE].
    - assert (inject_Z (2 ^ 53) / 2 == inject_Z (2 ^ 52) * pow2 0)%Q as E by reflexivity.
      rewrite (round_pos_comp _ _ Hq E), round_pos_dyadic by lia. now rewrite <- E.
    - assert (inject_Z p / 2 == inject_Z p * pow2 (-1))%Q as E by (change (pow2 (-1)) with (/ 2)%Q; reflexivity).
      rewrite (round_pos_comp _ _ Hq E), round_pos_dyadic by lia. now rewrite <- E. }
  assert (pow2 53 < pow2 1024)%Q as Hlt by (apply pow2_lt; lia).
  assert (forall p, (0 < p <= 2 ^ 53)%Z ->
            Qle_bool (pow2 1024) (round_pos (inject_Z p / 2)) = false) as Fin.
  { intros p Hp. destruct (Qle_bool _ _) eqn:B; [|reflexivity].
    apply Qle_bool_iff in B. rewrite (Half p Hp) in B.
    assert (inject_Z p <= pow2 53)%Q as K.
    { rewrite (pow2_Z 53) by lia. rewrite <- Zle_Qle. lia. }
    assert (0 < inject_Z p)%Q by (change 0%Q with (inject_Z 0); rewrite <- Zlt_Qlt; lia).
    exfalso. halves. lra. }
  destruct (Z.lt_trichotomy z 0) as [H|[->|H]].
  - assert (inject_Z z / 2 < 0)%Q as Hq.
    { assert (inject_Z z < 0)%Q by (change 0%Q with (inject_Z 0); rewrite <- Zlt_Qlt; lia).
      halves. lra. }
    assert (- (inject_Z z / 2) == inject_Z (- z) / 2)%Q as En by (rewrite inject_Z_opp; field).
    assert (0 < - (inject_Z z / 2))%Q as Hn by (halves; lra).
    rewrite (round_negative _ Hq).
    assert (Qle_bool (pow2 1024) (round_pos (- (inject_Z z / 2))) = false) as ->.
    { rewrite <- (Fin (- z)%Z) by lia. now rewrite (round_pos_comp _ _ Hn En). }
    eexists. split; [reflexivity|]. rewrite Qred_correct, (round_pos_comp _ _ Hn En), Half by lia.
    rewrite inject_Z_opp. field.
  - exists 0%Q. split; reflexivity.
  - assert (0 < inject_Z z / 2)%Q as Hq.
    { assert (0 < inject_Z z)%Q by (change 0%Q with (inject_Z 0); rewrite <- Zlt_Qlt; lia).
      halves. lra. }
    rewrite (round_positive _ Hq), Fin by lia.
    eexists. split; [reflexivity|]. rewrite Qred_correct. apply Half. lia.
Qed.

Lemma round_pos_pow2 (k : Z) : (-1074 <= k)%Z -> (round_pos (pow2 k) == pow2 k)%Q.
Proof.
  intros Hk.
  assert (pow2 k == inject_Z 1 * pow2 k)%Q as E by ring.
  rewrite (round_pos_comp _ _ (pow2_pos k) E).
  rewrite round_pos_dyadic; [ring|lia|lia].
Qed.

(** A rational within [2^k] in magnitude rounds to a number within [2^k]. *)
Lemma round_bound (q : Q) (k : Z) :
  (-1074 <= k <= 1023)%Z -> (Qabs q <= pow2 k)%Q ->
  exists r, round q = Num r /\ (Qabs r <= pow2 k)%Q.
Proof.
  intros Hk H.
  assert (Qabs q <= pow2 1023)%Q as Hfin.
  { eapply Qle_trans; [exact H|]. apply pow2_le. lia. }
  destruct (round_finite q Hfin) as [r E]. exists r. split; [exact E|].
  apply Qabs_Qle_condition in H. destruct H as [H1 H2].
  pose proof (pow2_pos k) as Hp.
  destruct (round_Num q r E) as [[_ K]|[(Hq & K & _)|(Hq & K & _)]].
  - rewrite K. change (Qabs 0) with 0%Q. lra.
  - pose proof (round_pos_nonneg q Hq) as Hr.
    pose proof (round_pos_mono q _ Hq H2) as Hm. rewrite (round_pos_pow2 k) in Hm by lia.
    rewrite K, Qabs_pos by exact Hr. exact Hm.
  - assert (0 < - q)%Q as Hn by lra. assert (- q <= pow2 k)%Q as Hb by lra.
    pose proof (round_pos_nonneg _ Hn) as Hr.
    pose proof (round_pos_mono _ _ Hn Hb) as Hm. rewrite (round_pos_pow2 k) in Hm by lia.
    rewrite K, Qabs_opp, Qabs_pos by exact Hr. exact Hm.
Qed.

(** A rational between two integers of binary64 rounds to a number between
    them. *)
Lemma round_between (q : Q) (a b : Z) :
  (Z.abs a <= 2 ^ 53)%Z -> (Z.abs b <= 2 ^ 53)%Z ->
  (inject_Z a <= q)%Q -> (q <= inject_Z b)%Q ->
  exists r, round q = Num r /\ (inject_Z a <= r)%Q /\ (r <= inject_Z b)%Q.
Proof.
  intros Ha Hb H1 H2.
  assert (Qabs q <= pow2 1023)%Q as Hfin.
  { apply Qle_trans with (pow2 53); [|apply pow2_le; lia].
    rewrite (pow2_Z 53) by lia. apply Qabs_Qle_condition. split.
    - eapply Qle_trans; [|exact H1]. rewrite <- inject_Z_opp, <- Zle_Qle. lia.
    - eapply Qle_trans; [exact H2|]. rewrite <- Zle_Qle. lia. }
  destruct (round_finite q Hfin) as [r E]. exists r. split; [exact E|]. split.
  - exact (round_mono _ _ _ _ H1 (round_int a Ha) E).
  - exact (round_mono _ _ _ _ H2 E (round_int b Hb)).
Qed.

(** In the normal range rounding is a relative perturbation of at most
    [u64]. *)
Lemma round_relative (q r : Q) :
  (pow2 (-1022) <= Qabs q)%Q -> round q = Num r ->
  (q - Qabs q * u64 <= r)%Q /\ (r <= q + Qabs q * u64)%Q.
Proof.
  intros Hn E. pose proof (round_error_normal q r Hn E) as H.
  apply Qabs_Qle_condition in H. destruct H as [H1 H2]. split; lra.
Qed.

(* ================================================================== *)
(** ** Arithmetic on finite numbers *)

Lemma Qeq_bool_false_iff (x y : Q) : Qeq_bool x y = false <-> ~ (x == y)%Q.
Proof.
  split.
  - intros H E. apply Qeq_bool_iff in E. congruence.
  - intros H. destruct (Qeq_bool x y) eqn:E; [|reflexivity].
    apply Qeq_bool_iff in E. contradiction.
Qed.

Lemma Qsgn_zero (q : Q) : (q == 0)%Q -> JS.Qsgn q = 0%Z.
Proof.
  unfold Qeq, JS.Qsgn. cbn. intros H.
  assert (Qnum q = 0%Z) as -> by lia. reflexivity.
Qed.

Lemma is_num_Num (q : Q) : Num q ~= q.
Proof. exists q. split; reflexivity. Qed.

Lemma is_num_eqv (a : number) (q r : Q) : a ~= q -> (q == r)%Q -> a ~= r.
Proof. intros (q' & -> & E) H. exists q'. split; [reflexivity|]. now rewrite E. Qed.

Lemma is_num_finite (a : number) (q : Q) : a ~= q -> JS.is_finite a = true.
Proof. intros (q' & -> & _). reflexivity. Qed.

(** Each operation on finite numbers is the exact operation, rounded. *)
Lemma add_round (a b : number) (x y : Q) : a ~= x -> b ~= y -> JS.add a b = round (x + y).
Proof.
  intros (x' & -> & Ex) (y' & -> & Ey). cbn [JS.add].
  apply round_comp. now rewrite Ex, Ey.
Qed.

Lemma neg_is_num (a : number) (x : Q) : a ~= x -> JS.neg a ~= (- x)%Q.
Proof.
  intros (x' & -> & Ex). cbn [JS.neg].
  eexists; split; [reflexivity|]. now rewrite Qred_correct, Ex.
Qed.

Lemma sub_round (a b : number) (x y : Q) : a ~= x -> b ~= y -> JS.sub a b = round (x - y).
Proof.
  intros Ha Hb. unfold JS.sub. apply add_round; [assumption|now apply neg_is_num].
Qed.

Lemma mul_round (a b : number) (x y : Q) : a ~= x -> b ~= y -> JS.mul a b = round (x * y).
Proof.
  intros (x' & -> & Ex) (y' & -> & Ey). cbn [JS.mul].
  apply round_comp. now rewrite Ex, Ey.
Qed.

Lemma div_round (a b : number) (x y : Q) :
  a ~= x -> b ~= y -> ~ (y == 0)%Q -> JS.div a b = round (x / y).
Proof.
  intros (x' & -> & Ex) (y' & -> & Ey) Hy. cbn [JS.div].
  assert (Qeq_bool y' 0 = false) as ->.
  { apply Qeq_bool_false_iff. now rewrite Ey. }
  apply round_comp. now rewrite Ex, Ey.
Qed.

Lemma ceil_is_num (a : number) (x : Q) : a ~= x -> JS.ceil a = Num (inject_Z (Qceiling x)).
Proof. intros (x' & -> & Ex). cbn [JS.ceil]. now rewrite Ex. Qed.

(** [|| 0] keeps a finite number. *)
Lemma or_zero_is_num (a : number) (x : Q) : a ~= x -> JS.or a JS.zero ~= x.
Proof.
  intros (x' & -> & Ex). unfold JS.or, JS.truthy.
  destruct (Qeq_bool x' 0) eqn:E; cbn [negb].
  - apply Qeq_bool_iff in E. exists 0%Q. split; [reflexivity|]. now rewrite <- Ex, E.
  - exists x'. now split.
Qed.

Lemma or_zero_int (z : Z) : JS.or (Num (inject_Z z)) JS.zero = Num (inject_Z z).
Proof.
  unfold JS.or, JS.truthy. destruct (Qeq_bool (inject_Z z) 0) eqn:E; [|reflexivity].
  apply Qeq_bool_iff in E. unfold Qeq in E. cbn in E.
  assert (z = 0%Z) as -> by lia. reflexivity.
Qed.

(** [a && b] is [b] for a non-zero finite [a]. *)
Lemma and_is_num (a b : number) (x : Q) : a ~= x -> ~ (x == 0)%Q -> JS.and a b = b.
Proof.
  intros (x' & -> & Ex) Hx. unfold JS.and, JS.truthy.
  assert (Qeq_bool x' 0 = false) as ->; [|reflexivity].
  apply Qeq_bool_false_iff. now rewrite Ex.
Qed.

Lemma Qminus_neq_0 (x y : Q) : ~ (x == y)%Q -> ~ (x - y == 0)%Q.
Proof.
  intros H E. apply H. rewrite <- (Qplus_0_r y), <- E. ring.
Qed.

Lemma inject_Z_pos (z : Z) : (0 < z)%Z -> (0 < inject_Z z)%Q.
Proof. intros H. change 0%Q with (inject_Z 0). now rewrite <- Zlt_Qlt. Qed.

Lemma inject_Z_nonneg (z : Z) : (0 <= z)%Z -> (0 <= inject_Z z)%Q.
Proof. intros H. change 0%Q with (inject_Z 0). now rewrite <- Zle_Qle. Qed.

Lemma inject_Z_neq0 (z : Z) : z <> 0%Z -> ~ (inject_Z z == 0)%Q.
Proof. intros H E. apply H. unfold Qeq in E. cbn in E. lia. Qed.

(** The difference of two integers of binary64 is exact when it is one. *)
Lemma sub_int (a b : Z) :
  (Z.abs (a - b) <= 2 ^ 53)%Z -> JS.sub (int a) (int b) = int (a - b).
Proof.
  intros H. unfold int. rewrite (sub_round _ _ _ _ (is_num_Num _) (is_num_Num _)).
  rewrite <- (round_int (a - b) H). apply round_comp.
  unfold Z.sub. rewrite inject_Z_plus, inject_Z_opp. reflexivity.
Qed.

(** ** GeometryMath *)

(** C1 (defect of the code).  The claim: the three GeometryMath functions
    return a finite number for every input, the result falling back to 0
    whenever a denominator is zero.  The code's [|| 0] replaces only [NaN]
    (and zero): a non-zero numerator over a zero denominator is an infinity
    and passes through.  Evaluated here: [computeThumbSize(100, 0, 100, 30)]
    is [Infinity], [computeThumbOffset(100, 30, 100, 100, 50)] is [Infinity]
    and [computeScrollForOffset(100, 100, 10, 500, 100)] is [-Infinity]; and
    on an instance whose horizontal thumb fills its track, a drag to offset 20
    assigns [Infinity] to the viewport's [scrollLeft]. *)
Theorem geometry_zero_denominator_not_finite :
  computeThumbSize 100%Z 0%Z 100%Z 30%Z = Infinity /\
  computeThumbOffset 100%Z 30%Z 100%Z 100%Z 50%Z = Infinity /\
  computeScrollForOffset 100%Z 100%Z 10%Z 500%Z 100%Z = NegInfinity /\
  map_completion (position TYPE_X) (handleThumbDrag (mkParams TYPE_X 20%Z) cramped)
    = Normal Infinity.
Proof. repeat split. Qed.

(** One rounding in a chain of operations: when [q], scaled by [k], is
    within [e] of [x], so is its rounding, up to the rounding error. *)
Lemma approx_step (q r x e k bound : Q) :
  (0 < k)%Q -> (Qabs x <= bound)%Q -> round q = Num r -> (Qabs (q * k - x) <= e)%Q ->
  (Qabs (r * k - x) <= e + (bound + e) * u64 + k * eta64)%Q.
Proof.
  intros Hk Hx E H. pose proof (round_error q r E) as Hr.
  assert (r * k - x == (r - q) * k + (q * k - x))%Q as -> by ring.
  eapply Qle_trans; [apply Qabs_triangle|].
  rewrite Qabs_Qmult, (Qabs_pos k) by lra.
  assert (Qabs q * k <= bound + e)%Q as Hq.
  { rewrite <- (Qabs_pos k) at 1 by lra. rewrite <- Qabs_Qmult.
    assert (q * k == (q * k - x) + x)%Q as -> by ring.
    eapply Qle_trans; [apply Qabs_triangle|]. lra. }
  assert (Qabs (r - q) * k <= (Qabs q * u64 + eta64) * k)%Q as Hm.
  { apply Qmult_le_compat_r; [exact Hr|lra]. }
  assert (0 < u64)%Q as Hu by apply pow2_pos.
  assert (Qabs q * k * u64 <= (bound + e) * u64)%Q as Hm2.
  { apply Qmult_le_compat_r; [exact Hq|lra]. }
  lra.
Qed.

Lemma Qabs_mul_bound (x y : Q) (i j : Z) :
  (Qabs x <= pow2 i)%Q -> (Qabs y <= pow2 j)%Q -> (Qabs (x * y) <= pow2 (i + j))%Q.
Proof.
  intros Hx Hy. rewrite Qabs_Qmult, pow2_add.
  apply Qmult_le_compat_nonneg; split; try apply Qabs_nonneg; assumption.
Qed.

Lemma Qabs_sub_bound (x y : Q) (i : Z) :
  (Qabs x <= pow2 i)%Q -> (Qabs y <= pow2 i)%Q -> (Qabs (x - y) <= pow2 (i + 1))%Q.
Proof.
  intros Hx Hy. rewrite pow2_S.
  apply Qabs_Qle_condition in Hx, Hy. apply Qabs_Qle_condition. split; lra.
Qed.

Lemma Qabs_div_bound (x y : Q) (i : Z) :
  (Qabs x <= pow2 i)%Q -> (1 <= y)%Q -> (Qabs (x / y) <= pow2 i)%Q.
Proof.
  intros Hx Hy. unfold Qdiv. rewrite Qabs_Qmult, Qabs_Qinv, (Qabs_pos y) by lra.
  apply Qle_shift_div_r; [lra|].
  pose proof (Qabs_nonneg x). pose proof (pow2_pos i).
  assert (pow2 i * 1 <= pow2 i * y)%Q; [|lra].
  apply Qmult_le_l; lra.
Qed.

Lemma inject_Z_le_pow2 (z k : Z) : (0 <= k)%Z -> (Z.abs z <= 2 ^ k)%Z -> (Qabs (inject_Z z) <= pow2 k)%Q.
Proof.
  intros Hk Hz. rewrite pow2_Z by exact Hk. apply Qabs_Qle_condition.
  rewrite <- inject_Z_opp, <- !Zle_Qle. lia.
Qed.

(** C2 (amended).  For lengths in whole pixels (integers up to [2^53], with
    a content larger than the viewport and a thumb shorter than the track,
    not 0) and a scroll value [s] from 0 to [2^53], whole or not, the round
    trip of [s] is a finite number, and it is [s - half_thumb_shift]: the
    scroll value moved back by half a thumb length expressed in scroll
    distance, within the rounding of the seven binary64 operations, at most
    [2^-50] of [s + half_thumb_shift]. *)
Theorem roundTrip_centering (T t S V : Z) (s : Q) :
  (0 <= V < S)%Z -> (S <= 2 ^ 53)%Z -> (0 < t < T)%Z -> (T <= 2 ^ 53)%Z ->
  (0 <= s)%Q -> (s <= pow2 53)%Q ->
  exists r : Q,
    roundTrip T t S V (Num s) = Num r /\
    (Qabs (r - (s
                - half_thumb_shift (inject_Z T) (inject_Z t) (inject_Z S) (inject_Z V)))
     <= pow2 (-50)
        * (s
           + half_thumb_shift (inject_Z T) (inject_Z t) (inject_Z S) (inject_Z V)))%Q.
Proof.
  intros HV HS Ht HT Hs0 Hs.
  set (D := (S - V)%Z). set (L := (T - t)%Z).
  assert (1 <= D <= 2 ^ 53)%Z as HD by (unfold D; lia).
  assert (1 <= L <= 2 ^ 53)%Z as HL by (unfold L; lia).
  assert (1 <= inject_Z D)%Q as HD1 by (change 1%Q with (inject_Z 1); rewrite <- Zle_Qle; lia).
  assert (1 <= inject_Z L)%Q as HL1 by (change 1%Q with (inject_Z 1); rewrite <- Zle_Qle; lia).
  assert (inject_Z D <= pow2 53)%Q as HD2 by (rewrite (pow2_Z 53) by lia; rewrite <- Zle_Qle; lia).
  assert (inject_Z L <= pow2 53)%Q as HL2 by (rewrite (pow2_Z 53) by lia; rewrite <- Zle_Qle; lia).
  assert (1 <= inject_Z t)%Q as Ht1 by (change 1%Q with (inject_Z 1); rewrite <- Zle_Qle; lia).
  assert (half_thumb_shift (inject_Z T) (inject_Z t) (inject_Z S) (inject_Z V)
          == inject_Z t / 2 * (inject_Z D / inject_Z L))%Q as Eshift.
  { unfold half_thumb_shift, D, L, Z.sub. rewrite !inject_Z_plus, !inject_Z_opp. reflexivity. }
  set (k := (inject_Z D / inject_Z L)%Q). set (h := (inject_Z t / 2)%Q).
  assert (0 < k)%Q as Hk by (apply Qlt_shift_div_l; lra).
  assert (k <= pow2 53)%Q as Hk2.
  { apply Qle_trans with (inject_Z D); [|exact HD2]. apply Qle_shift_div_r; [lra|].
    assert (inject_Z D * 1 <= inject_Z D * inject_Z L)%Q; [|lra]. apply Qmult_le_l; lra. }
  assert (u64 <= k)%Q as Hk3.
  { apply Qle_shift_div_l; [lra|]. apply Qle_trans with (u64 * pow2 53)%Q.
    - apply Qmult_le_l; [apply pow2_pos|exact HL2].
    - unfold u64. rewrite <- pow2_add. change (pow2 (-53 + 53)) with 1%Q. exact HD1. }
  assert (1 # 2 <= h)%Q as Hh by (unfold h; halves; lra).
  unfold roundTrip, computeScrollForOffset, computeThumbOffset.
  fold D L.
  rewrite (sub_int S V), (sub_int T t) by (fold D L; lia). fold D L.
  rewrite (and_is_num (int t) _ (inject_Z t) (is_num_Num _)) by lra.
  (* the offset *)
  rewrite (div_round (Num s) (int D) _ _ (is_num_Num _) (is_num_Num _)) by lra.
  destruct (round_bound (s / inject_Z D) 53 ltac:(lia)) as (a & Ea & Ba).
  { apply Qabs_div_bound; [rewrite Qabs_pos by exact Hs0; exact Hs|exact HD1]. }
  rewrite Ea.
  rewrite (mul_round (Num a) (int L) _ _ (is_num_Num _) (is_num_Num _)).
  destruct (round_bound (a * inject_Z L) 106 ltac:(lia)) as (o & Eo & Bo).
  { apply (Qabs_mul_bound a (inject_Z L) 53 53 Ba). rewrite Qabs_pos by lra. exact HL2. }
  rewrite Eo.
  (* the scroll value for it *)
  destruct (round_half t ltac:(lia)) as (h' & Eh & Eh').
  change (JS.div (int t) (Num 2)) with (round (inject_Z t / 2)). rewrite Eh.
  assert (Num h' ~= h) as Hh' by (exists h'; split; [reflexivity|exact Eh']).
  rewrite (sub_round _ _ o h (or_zero_is_num _ _ (is_num_Num o)) Hh').
  assert (Qabs h <= pow2 106)%Q as Bh.
  { rewrite Qabs_pos by lra. apply Qle_trans with (pow2 53); [|apply pow2_le; lia].
    assert (inject_Z t <= pow2 53)%Q by (rewrite (pow2_Z 53) by lia; rewrite <- Zle_Qle; lia).
    unfold h. halves. lra. }
  destruct (round_bound (o - h) 107 ltac:(lia)) as (b & Eb & Bb).
  { apply (Qabs_sub_bound o h 106); assumption. }
  rewrite Eb.
  rewrite (div_round (Num b) (int L) _ _ (is_num_Num _) (is_num_Num _)) by lra.
  destruct (round_bound (b / inject_Z L) 107 ltac:(lia)) as (c & Ec & Bc).
  { apply Qabs_div_bound; assumption. }
  rewrite Ec.
  rewrite (mul_round (Num c) (int D) _ _ (is_num_Num _) (is_num_Num _)).
  destruct (round_bound (c * inject_Z D) 160 ltac:(lia)) as (r & Er & Br).
  { apply (Qabs_mul_bound c (inject_Z D) 107 53 Bc). rewrite Qabs_pos by lra. exact HD2. }
  rewrite Er.
  destruct (or_zero_is_num _ _ (is_num_Num r)) as (r' & -> & Er').
  exists r'. split; [reflexivity|]. rewrite Er', Eshift. fold k h. clear Eshift.
  (* the errors *)
  set (M := (s + h * k)%Q).
  assert (0 <= h * k)%Q as Hhk by (apply Qmult_le_0_compat; lra).
  assert (u64 * (1 # 2) <= h * k)%Q as Hhk'.
  { rewrite (Qmult_comm u64). apply Qmult_le_compat_nonneg; split; try lra.
    apply Qlt_le_weak, pow2_pos. }
  assert (Qabs (s) <= M)%Q as X1 by (rewrite Qabs_pos by lra; unfold M; lra).
  assert (Qabs (s - h * k) <= M)%Q as X5
    by (apply Qabs_Qle_condition; unfold M; split; lra).
  assert (0 < inject_Z D)%Q as HD0 by lra.
  assert (~ (inject_Z D == 0)%Q) as ND by lra.
  assert (~ (inject_Z L == 0)%Q) as NL by lra.
  pose proof (approx_step _ a (s) 0 (inject_Z D) M HD0 X1 Ea) as A1.
  assert (Qabs (s / inject_Z D * inject_Z D - s) <= 0)%Q as Z1.
  { assert (s / inject_Z D * inject_Z D - s == 0)%Q as -> by (field; exact ND).
    apply Qle_refl. }
  specialize (A1 Z1). clear Z1.
  assert (a * inject_Z L * k == a * inject_Z D)%Q as I2 by (unfold k; field; exact NL).
  rewrite <- I2 in A1.
  pose proof (approx_step _ o (s) _ k M Hk X1 Eo A1) as A2.
  assert ((o - h) * k - (s - h * k) == o * k - s)%Q as I3 by ring.
  rewrite <- I3 in A2.
  pose proof (approx_step _ b (s - h * k) _ k M Hk X5 Eb A2) as A3.
  assert (b / inject_Z L * inject_Z D == b * k)%Q as I4 by (unfold k; field; exact NL).
  rewrite <- I4 in A3.
  pose proof (approx_step _ c (s - h * k) _ (inject_Z D) M HD0 X5 Ec A3) as A4.
  assert (c * inject_Z D * 1 == c * inject_Z D)%Q as I5 by ring.
  rewrite <- I5 in A4.
  pose proof (approx_step _ r (s - h * k) _ 1 M ltac:(reflexivity) X5 Er A4) as A5.
  rewrite Qmult_1_r in A5.
  eapply Qle_trans; [exact A5|]. clear A1 A2 A3 A4 A5 I2 I3 I4 I5.
  (* the arithmetic of the bound *)
  assert (inject_Z D * eta64 <= u64 * u64 * u64)%Q as N1.
  { apply Qle_trans with (pow2 53 * eta64)%Q.
    - apply Qmult_le_compat_r; [exact HD2|apply Qlt_le_weak, pow2_pos].
    - unfold eta64, u64. rewrite <- !pow2_add. apply pow2_le. lia. }
  assert (k * eta64 <= u64 * u64 * u64)%Q as N2.
  { apply Qle_trans with (pow2 53 * eta64)%Q.
    - apply Qmult_le_compat_r; [exact Hk2|apply Qlt_le_weak, pow2_pos].
    - unfold eta64, u64. rewrite <- !pow2_add. apply pow2_le. lia. }
  assert (1 * eta64 <= u64 * u64 * u64)%Q as N3.
  { rewrite Qmult_1_l. unfold eta64, u64. rewrite <- !pow2_add. apply pow2_le. lia. }
  assert (0 <= inject_Z D * eta64)%Q as P1
    by (apply Qmult_le_0_compat; [lra|apply Qlt_le_weak, pow2_pos]).
  assert (0 <= k * eta64)%Q as P2
    by (apply Qmult_le_0_compat; [lra|apply Qlt_le_weak, pow2_pos]).
  assert (s <= M)%Q as SM by (unfold M; lra).
  assert (u64 * (1 # 2) <= M)%Q as UM by (unfold M; lra).
  assert (u64 == 1 # 9007199254740992)%Q as Eu by reflexivity.
  assert (pow2 (-50) == 1 # 1125899906842624)%Q as E50 by reflexivity.
  rewrite Eu in *. rewrite E50.
  fold M. lra.
Qed.

(** C2 (counterexample).  The claim: [computeScrollForOffset] applied to
    [computeThumbOffset] reproduces the scroll value within the tolerance of
    the [ceil] of the thumb size.  For a track of 100, a thumb of 30, a
    content of 500 in a viewport of 100 and the scroll value 200 the round
    trip gives 114.28571428571428: more than 85 away from 200, while one
    pixel of thumb travel is less than 6 of scroll distance. *)
Lemma roundTrip_off_by_half_thumb :
  roundTrip 100%Z 30%Z 500%Z 100%Z 200%Z = Num (2010535547933257 # 17592186044416) /\
  (85 < 200 - (2010535547933257 # 17592186044416) < 86)%Q /\
  (ceil_tolerance 100 30 500 100 < 6)%Q /\
  ~ reproduces_within_tolerance 100 30 500 100 200.
Proof.
  split; [vm_compute; reflexivity|]. split; [split; reflexivity|]. split; [reflexivity|].
  intros (r & E & H).
  assert (r = (2010535547933257 # 17592186044416)%Q) as -> by (vm_compute in E; congruence).
  vm_compute in H. apply H. reflexivity.
Qed.

Lemma roundTrip_centering_witness :
  exists r : Q,
    roundTrip 100%Z 30%Z 500%Z 100%Z (Num (401 # 2)) = Num r /\
    (Qabs (r - ((401 # 2)
                - half_thumb_shift (inject_Z 100) (inject_Z 30) (inject_Z 500) (inject_Z 100)))
     <= pow2 (-50)
        * ((401 # 2)
           + half_thumb_shift (inject_Z 100) (inject_Z 30) (inject_Z 500) (inject_Z 100)))%Q.
Proof.
  apply (roundTrip_centering 100 30 500 100 (401 # 2)); try lia.
  - unfold Qle. cbn. lia.
  - apply Qle_bool_iff. vm_compute. reflexivity.
Defined.

Lemma Qeq_bool_inject_Z (a b : Z) : Qeq_bool (inject_Z a) (inject_Z b) = (a =? b)%Z.
Proof.
  destruct (Z.eqb_spec a b) as [->|NE].
  - apply Qeq_bool_iff. reflexivity.
  - apply Qeq_bool_false_iff. intros E. apply NE. unfold Qeq in E. cbn in E. lia.
Qed.

Lemma computeThumbSize_of_proportion (T S V : Z) (m : number) (x : Q) :
  JS.mul (JS.div (int V) (int S)) (int T) = Num x ->
  computeThumbSize T S V m =
    if (T =? Qceiling x)%Z then JS.zero else JS.max (int (Qceiling x)) m.
Proof.
  intros E. unfold computeThumbSize. rewrite E. cbn [JS.ceil]. rewrite or_zero_int.
  unfold JS.strict_eq, int. rewrite Qeq_bool_inject_Z. reflexivity.
Qed.

(** The proportion as the code computes it, [(viewportSize / scrollableSize)
    * trackSize] with two roundings, is within a relative [2^-51] of the
    exact one. *)
Lemma proportion_rounded (T S V : Z) :
  (0 <= T <= 2 ^ 53)%Z -> (0 < S <= 2 ^ 53)%Z -> (0 <= V <= 2 ^ 53)%Z ->
  exists x : Q,
    JS.mul (JS.div (int V) (int S)) (int T) = Num x /\
    (exact_proportion (inject_Z T) (inject_Z S) (inject_Z V) * (1 - pow2 (-51)) <= x)%Q /\
    (x <= exact_proportion (inject_Z T) (inject_Z S) (inject_Z V) * (1 + pow2 (-51)))%Q.
Proof.
  intros HT HS HV. unfold exact_proportion.
  assert (1 <= inject_Z S)%Q as HS1 by (change 1%Q with (inject_Z 1); rewrite <- Zle_Qle; lia).
  assert (inject_Z S <= pow2 53)%Q as HS2 by (rewrite (pow2_Z 53) by lia; rewrite <- Zle_Qle; lia).
  assert (inject_Z T <= pow2 53)%Q as HT2 by (rewrite (pow2_Z 53) by lia; rewrite <- Zle_Qle; lia).
  assert (~ (inject_Z S == 0)%Q) as NS by lra.
  assert (u64 == 1 # 9007199254740992)%Q as Eu by reflexivity.
  assert (pow2 (-51) == 1 # 2251799813685248)%Q as E51 by reflexivity.
  rewrite (div_round (int V) (int S) _ _ (is_num_Num _) (is_num_Num _)) by exact NS.
  destruct (round_bound (inject_Z V / inject_Z S) 53 ltac:(lia)) as (a & Ea & Ba).
  { apply Qabs_div_bound; [apply inject_Z_le_pow2; lia|exact HS1]. }
  rewrite Ea. rewrite (mul_round (Num a) (int T) _ _ (is_num_Num _) (is_num_Num _)).
  destruct (round_bound (a * inject_Z T) 106 ltac:(lia)) as (x & Ex & Bx).
  { apply (Qabs_mul_bound a (inject_Z T) 53 53 Ba).
    rewrite Qabs_pos by (apply inject_Z_nonneg; lia). exact HT2. }
  exists x. split; [exact Ex|].
  destruct (Z.eq_dec V 0) as [->|NV].
  { assert (inject_Z 0 / inject_Z S == 0)%Q as Z0 by (field; exact NS).
    rewrite (round_comp _ _ Z0) in Ea. cbn in Ea. assert (a = 0%Q) as -> by congruence.
    assert (0 * inject_Z T == 0)%Q as Z1 by ring.
    rewrite (round_comp _ _ Z1) in Ex. cbn in Ex. assert (x = 0%Q) as -> by congruence.
    assert (inject_Z T * inject_Z 0 / inject_Z S == 0)%Q as -> by (field; exact NS).
    split; lra. }
  destruct (Z.eq_dec T 0) as [->|NT].
  { assert (a * inject_Z 0 == 0)%Q as Z1 by ring.
    rewrite (round_comp _ _ Z1) in Ex. cbn in Ex. assert (x = 0%Q) as -> by congruence.
    assert (inject_Z 0 * inject_Z V / inject_Z S == 0)%Q as -> by (field; exact NS).
    split; lra. }
  assert (1 <= inject_Z V)%Q as HV1 by (change 1%Q with (inject_Z 1); rewrite <- Zle_Qle; lia).
  assert (1 <= inject_Z T)%Q as HT1 by (change 1%Q with (inject_Z 1); rewrite <- Zle_Qle; lia).
  set (x1 := (inject_Z V / inject_Z S)%Q) in *.
  assert (pow2 (-53) <= x1)%Q as Hx1.
  { apply Qle_shift_div_l; [lra|].
    apply Qle_trans with (pow2 (-53) * pow2 53)%Q.
    - apply Qmult_le_l; [apply pow2_pos|exact HS2].
    - rewrite <- pow2_add. change (pow2 (-53 + 53)) with 1%Q. exact HV1. }
  assert (pow2 (-1022) <= pow2 (-54))%Q as Hlow by (apply pow2_le; lia).
  assert (pow2 (-54) == pow2 (-53) * (1 # 2))%Q as E54 by reflexivity.
  pose proof (pow2_pos (-53)) as Hp53.
  destruct (round_relative x1 a) as [Ra1 Ra2]; [|exact Ea|].
  { rewrite Qabs_pos by lra. lra. }
  rewrite (Qabs_pos x1) in Ra1, Ra2 by lra.
  assert (0 < a)%Q as Ha by (rewrite Eu in *; lra).
  assert (pow2 (-54) <= a * inject_Z T)%Q as Hq2.
  { apply Qle_trans with (a * 1)%Q; [|apply Qmult_le_l; [exact Ha|exact HT1]].
    rewrite Eu in *. lra. }
  destruct (round_relative (a * inject_Z T) x) as [Rx1 Rx2]; [|exact Ex|].
  { rewrite Qabs_pos by lra. lra. }
  rewrite (Qabs_pos (a * inject_Z T)) in Rx1, Rx2 by lra.
  assert (inject_Z T * inject_Z V / inject_Z S == x1 * inject_Z T)%Q as -> by (unfold x1; field; exact NS).
  assert ((x1 - x1 * u64) * inject_Z T <= a * inject_Z T)%Q as M1
    by (apply Qmult_le_compat_r; lra).
  assert (a * inject_Z T <= (x1 + x1 * u64) * inject_Z T)%Q as M2
    by (apply Qmult_le_compat_r; lra).
  assert (0 <= x1 * inject_Z T)%Q as P by (apply Qmult_le_0_compat; lra).
  rewrite Eu in *. rewrite E51. split; lra.
Qed.




(* ================================================================== *)
(** ** The change mask *)

Lemma has_testbit (mask k : Z) : (0 <= k)%Z -> has mask k = Z.testbit mask k.
Proof.
  intros Hk. unfold has. rewrite Z.shiftl_1_l.
  destruct (Z.testbit mask k) eqn:E.
  - apply negb_true_iff, Z.eqb_neq. intros H.
    assert (Z.testbit (Z.land mask (2 ^ k)) k = true) as T.
    { rewrite Z.land_spec, E, Z.pow2_bits_true by assumption. reflexivity. }
    rewrite H, Z.bits_0 in T. discriminate.
  - apply negb_false_iff, Z.eqb_eq. apply Z.bits_inj'. intros n Hn.
    rewrite Z.land_spec, Z.bits_0, Z.pow2_bits_eqb by assumption.
    destruct (Z.eqb_spec k n) as [->|]; [now rewrite E | apply andb_false_r].
Qed.

Lemma has_flag (cond : bool) (k j mask : Z) :
  (0 <= k)%Z -> (0 <= j)%Z ->
  has (flag cond k mask) j = (cond && (k =? j)%Z) || has mask j.
Proof.
  intros Hk Hj. rewrite !has_testbit by assumption. unfold flag.
  destruct cond; [|reflexivity].
  rewrite Z.lor_spec, Z.shiftl_1_l, Z.pow2_bits_eqb by assumption.
  apply orb_comm.
Qed.

Lemma has_0 (k : Z) : has 0 k = false.
Proof. unfold has. now rewrite Z.land_0_l. Qed.

Lemma has_nonzero (mask k : Z) : has mask k = true -> (mask =? 0)%Z = false.
Proof.
  intros H. apply Z.eqb_neq. intros ->. rewrite has_0 in H. discriminate.
Qed.

Lemma flag_eq_0 (cond : bool) (k mask : Z) :
  (0 <= k)%Z -> flag cond k mask = 0%Z <-> cond = false /\ mask = 0%Z.
Proof.
  intros Hk. unfold flag. destruct cond.
  - split; [|intros [? _]; discriminate].
    intros H. apply Z.lor_eq_0_iff in H. destruct H as [_ H].
    rewrite Z.shiftl_1_l in H. pose proof (Z.pow_pos_nonneg 2 k). lia.
  - tauto.
Qed.

(** Reads bit [k] of [changeMask old cur] off its definition. *)
Ltac has_mask :=
  unfold changeMask; rewrite !has_flag, has_0 by lia;
  cbn [Z.eqb Pos.eqb andb orb];
  rewrite ?andb_false_r, ?andb_true_r, ?orb_false_r.

Lemma has_changeMask_10 (old cur : ScrollValues.t) :
  has (changeMask old cur) 10 =
  boolean_differs (ScrollValues.trackYVisible old) (ScrollValues.trackYVisible cur).
Proof. has_mask. reflexivity. Qed.

Lemma has_changeMask_11 (old cur : ScrollValues.t) :
  has (changeMask old cur) 11 =
  boolean_differs (ScrollValues.trackXVisible old) (ScrollValues.trackXVisible cur).
Proof. has_mask. reflexivity. Qed.

(** The mask is zero exactly when none of the thirteen properties differs. *)
Lemma changeMask_eq_0 (old cur : ScrollValues.t) :
  changeMask old cur = 0%Z <->
  number_differs (ScrollValues.clientHeight old) (ScrollValues.clientHeight cur) = false /\
  number_differs (ScrollValues.clientWidth old) (ScrollValues.clientWidth cur) = false /\
  number_differs (ScrollValues.scrollHeight old) (ScrollValues.scrollHeight cur) = false /\
  number_differs (ScrollValues.scrollWidth old) (ScrollValues.scrollWidth cur) = false /\
  number_differs (ScrollValues.scrollTop old) (ScrollValues.scrollTop cur) = false /\
  number_differs (ScrollValues.scrollLeft old) (ScrollValues.scrollLeft cur) = false /\
  boolean_differs (ScrollValues.scrollYBlocked old) (ScrollValues.scrollYBlocked cur) = false /\
  boolean_differs (ScrollValues.scrollXBlocked old) (ScrollValues.scrollXBlocked cur) = false /\
  boolean_differs (ScrollValues.scrollYPossible old) (ScrollValues.scrollYPossible cur) = false /\
  boolean_differs (ScrollValues.scrollXPossible old) (ScrollValues.scrollXPossible cur) = false /\
  boolean_differs (ScrollValues.trackYVisible old) (ScrollValues.trackYVisible cur) = false /\
  boolean_differs (ScrollValues.trackXVisible old) (ScrollValues.trackXVisible cur) = false /\
  boolean_differs (ScrollValues.isRtl old) (ScrollValues.isRtl cur) = false.
Proof. unfold changeMask. rewrite !flag_eq_0 by lia. tauto. Qed.

Lemma boolean_differs_refl (v : option bool) : boolean_differs v v = false.
Proof. destruct v as [[]|]; reflexivity. Qed.

(* ================================================================== *)
(** ** The synchronization pass *)

(** One level of [update] with deferred rendering. *)
Ltac step_update := unfold update; cbn [update_in rerender]; fold update.
Ltac step_update_in E :=
  unfold update in E; cbn [update_in rerender] in E; fold update in E.

Section Visibility.

Variables (this : Scrollbar) (cur : ScrollValues.t).

Lemma write_visibility_scrollValues :
  scrollValues (write_visibility cur this) =
  ScrollValues.mk
    (ScrollValues.clientHeight (scrollValues this))
    (ScrollValues.clientWidth (scrollValues this))
    (ScrollValues.scrollHeight (scrollValues this))
    (ScrollValues.scrollWidth (scrollValues this))
    (ScrollValues.scrollTop (scrollValues this))
    (ScrollValues.scrollLeft (scrollValues this))
    (ScrollValues.scrollYBlocked (scrollValues this))
    (ScrollValues.scrollXBlocked (scrollValues this))
    (ScrollValues.scrollYPossible (scrollValues this))
    (ScrollValues.scrollXPossible (scrollValues this))
    (ScrollValues.trackYVisible cur) (ScrollValues.trackXVisible cur)
    (ScrollValues.isRtl (scrollValues this)).
Proof. reflexivity. Qed.

(** After the visibility is written, the two visibility bits are clear. *)
Lemma write_visibility_settles :
  has (changeMask (scrollValues (write_visibility cur this)) cur) 10 = false /\
  has (changeMask (scrollValues (write_visibility cur this)) cur) 11 = false.
Proof.
  rewrite has_changeMask_10, has_changeMask_11, write_visibility_scrollValues.
  cbn [ScrollValues.trackYVisible ScrollValues.trackXVisible].
  split; apply boolean_differs_refl.
Qed.

(** Every other bit of the mask is what it was before the write. *)
Lemma write_visibility_keeps_bits (k : Z) :
  (0 <= k)%Z -> k <> 10%Z -> k <> 11%Z ->
  has (changeMask (scrollValues (write_visibility cur this)) cur) k
    = has (changeMask (scrollValues this) cur) k.
Proof.
  intros Hk H10 H11. rewrite write_visibility_scrollValues.
  unfold changeMask. rewrite !has_flag, has_0 by lia.
  cbn [ScrollValues.clientHeight ScrollValues.clientWidth ScrollValues.scrollHeight
       ScrollValues.scrollWidth ScrollValues.scrollTop ScrollValues.scrollLeft
       ScrollValues.scrollYBlocked ScrollValues.scrollXBlocked
       ScrollValues.scrollYPossible ScrollValues.scrollXPossible
       ScrollValues.trackYVisible ScrollValues.trackXVisible ScrollValues.isRtl].
  rewrite !boolean_differs_refl.
  apply Z.eqb_neq in H10, H11.
  rewrite (Z.eqb_sym 10 k), (Z.eqb_sym 11 k), H10, H11, !andb_false_r.
  reflexivity.
Qed.

End Visibility.

(** One call of [update] once the orientation is known and the viewport attached. *)
Lemma update_resolved (fuel : nat) (forced : bool) (this : Scrollbar)
  (isRtl : bool) (el : Element.t) :
  State.isRtl (state this) = Some isRtl -> contentEl this = Some el ->
  update (S fuel) forced this =
  let currentScrollValues := sample (props this) el isRtl in
  let mask := changeMask (scrollValues this) currentScrollValues in
  if (mask =? 0)%Z && negb forced then Normal (scrollValues this, this)
  else if has mask 10 || has mask 11 then
    update fuel true (write_visibility currentScrollValues this)
  else commit mask currentScrollValues isRtl this.
Proof. intros H1 H2. step_update. rewrite H1, H2. reflexivity. Qed.

Lemma update_visibility (fuel : nat) (forced : bool) (this : Scrollbar)
  (isRtl : bool) (el : Element.t) :
  State.isRtl (state this) = Some isRtl -> contentEl this = Some el ->
  let cur := sample (props this) el isRtl in
  has (changeMask (scrollValues this) cur) 10
  || has (changeMask (scrollValues this) cur) 11 = true ->
  update (S fuel) forced this = update fuel true (write_visibility cur this).
Proof.
  intros H1 H2 cur H3. erewrite update_resolved by eassumption. cbv zeta. fold cur.
  rewrite H3.
  assert ((changeMask (scrollValues this) cur =? 0)%Z = false) as ->; [|reflexivity].
  apply orb_true_iff in H3. destruct H3 as [H|H]; revert H; apply has_nonzero.
Qed.

(** The forced pass that follows a visibility change commits. *)
Lemma update_rerun (fuel : nat) (this : Scrollbar) (isRtl : bool) (el : Element.t) :
  State.isRtl (state this) = Some isRtl -> contentEl this = Some el ->
  let cur := sample (props this) el isRtl in
  let this' := write_visibility cur this in
  update (S fuel) true this' = commit (changeMask (scrollValues this') cur) cur isRtl this'.
Proof.
  intros H1 H2 cur this'.
  assert (State.isRtl (state this') = Some isRtl) as H1' by exact H1.
  assert (contentEl this' = Some el) as H2' by exact H2.
  erewrite update_resolved by eassumption. cbv zeta.
  change (sample (props this') el isRtl) with cur.
  destruct (write_visibility_settles this cur) as [E1 E2].
  fold this' in E1, E2. rewrite E1, E2.
  rewrite andb_false_r. reflexivity.
Qed.

Lemma commit_returns (mask : Z) (cur : ScrollValues.t) (isRtl : bool) (this : Scrollbar) :
  commit mask cur isRtl this <> OutOfFuel.
Proof.
  unfold commit.
  destruct (update_trackY mask cur (set_scrollValues this cur)) as [a| |] eqn:EY;
    cbn [bind]; try discriminate.
  2:{ exfalso. revert EY. unfold update_trackY.
      destruct (trackYEl _); [|discriminate].
      repeat match goal with |- context [if ?c then _ else _] => destruct c end;
      try discriminate; destruct (thumbYEl _); discriminate. }
  destruct (update_trackX mask cur isRtl a) as [b| |] eqn:EX; cbn [bind]; try discriminate.
  2:{ exfalso. revert EX. unfold update_trackX.
      destruct (trackXEl _); [|discriminate].
      repeat match goal with |- context [if ?c then _ else _] => destruct c end;
      try discriminate; destruct (thumbXEl _); discriminate. }
  destruct (update_holder mask cur b) as [c| |] eqn:EH; cbn [bind]; try discriminate.
  exfalso. revert EH. unfold update_holder.
  destruct (_ && _ && _); [|discriminate]. destruct (holderEl _); discriminate.
Qed.

(** A pass that commits returns the sampled values, now the stored snapshot. *)
Lemma commit_stores (mask : Z) (cur : ScrollValues.t) (isRtl : bool)
  (this this' : Scrollbar) (v : ScrollValues.t) :
  commit mask cur isRtl this = Normal (v, this') -> v = cur /\ scrollValues this' = cur.
Proof.
  unfold commit.
  destruct (update_trackY mask cur (set_scrollValues this cur)) as [a| |] eqn:EY;
    cbn [bind]; try discriminate.
  assert (scrollValues a = cur) as Ha.
  { revert EY. unfold update_trackY. cbn [trackYEl set_scrollValues].
    destruct (trackYEl this); [|intros E; injection E as <-; reflexivity].
    repeat match goal with |- context [if ?c then _ else _] => destruct c end;
      cbn [thumbYEl set_trackYEl set_scrollValues];
      try (destruct (thumbYEl this); cbn [deref bind]; [|discriminate]);
      intros E; injection E as <-; reflexivity. }
  destruct (update_trackX mask cur isRtl a) as [b| |] eqn:EX; cbn [bind]; try discriminate.
  assert (scrollValues b = cur) as Hb.
  { revert EX. unfold update_trackX.
    destruct (trackXEl a); [|intros E; injection E as <-; exact Ha].
    repeat match goal with |- context [if ?c then _ else _] => destruct c end;
      cbn [thumbXEl set_trackXEl];
      try (destruct (thumbXEl a); cbn [deref bind]; [|discriminate]);
      intros E; injection E as <-; exact Ha. }
  destruct (update_holder mask cur b) as [c| |] eqn:EH; cbn [bind]; try discriminate.
  assert (scrollValues c = cur) as Hc.
  { revert EH. unfold update_holder.
    destruct (_ && _ && _); [|intros E; injection E as <-; exact Hb].
    destruct (holderEl b); cbn [deref bind]; [|discriminate].
    intros E; injection E as <-; exact Hb. }
  destruct (ScrollValues.scrollTop (scrollValues this));
    [destruct (Props.onScroll (props c))|]; intros E; injection E as <- <-; auto.
Qed.

(** What the three layout steps of a commit leave alone. *)
Ltac case_if_in E :=
  match type of E with
  | context [if ?c then _ else _] => destruct c
  end.

Lemma update_trackY_frame (mask : Z) (cur : ScrollValues.t) (this this' : Scrollbar) :
  has mask 10 = false -> update_trackY mask cur this = Normal this' ->
  layout_frame this this' /\ thumbXEl this' = thumbXEl this /\ holderEl this' = holderEl this.
Proof.
  intros H10 E. unfold update_trackY in E. rewrite H10 in E.
  destruct this as [p st sv ce he we ty tx thy thx to nw cl].
  cbn [trackYEl thumbYEl set_trackYEl set_thumbYEl props] in E.
  destruct ty as [trackY|]; [|injection E as <-; repeat split].
  repeat case_if_in E; try (destruct thy; cbn [deref bind] in E; [|discriminate E]);
    injection E as <-; repeat split.
Qed.

Lemma update_trackX_frame (mask : Z) (cur : ScrollValues.t) (isRtl : bool)
  (this this' : Scrollbar) :
  has mask 11 = false -> update_trackX mask cur isRtl this = Normal this' ->
  layout_frame this this' /\ thumbYEl this' = thumbYEl this /\ holderEl this' = holderEl this.
Proof.
  intros H11 E. unfold update_trackX in E. rewrite H11 in E.
  destruct this as [p st sv ce he we ty tx thy thx to nw cl].
  cbn [trackXEl thumbXEl set_trackXEl set_thumbXEl props] in E.
  destruct tx as [trackX|]; [|injection E as <-; repeat split].
  repeat case_if_in E; try (destruct thx; cbn [deref bind] in E; [|discriminate E]);
    injection E as <-; repeat split.
Qed.

Lemma update_holder_frame (mask : Z) (cur : ScrollValues.t) (this this' : Scrollbar) :
  update_holder mask cur this = Normal this' ->
  layout_frame this this' /\ thumbYEl this' = thumbYEl this /\ thumbXEl this' = thumbXEl this.
Proof.
  intros E. unfold update_holder in E.
  destruct this as [p st sv ce he we ty tx thy thx to nw cl].
  cbn [holderEl set_holderEl props wrapperEl] in E.
  case_if_in E; [destruct he; cbn [deref bind] in E; [|discriminate E]|];
    injection E as <-; repeat split.
Qed.

Lemma commit_effect (mask : Z) (cur : ScrollValues.t) (isRtl : bool)
  (this this' : Scrollbar) (v : ScrollValues.t) :
  has mask 10 = false -> has mask 11 = false ->
  commit mask cur isRtl this = Normal (v, this') ->
  v = cur /\ scrollValues this' = cur /\ state this' = state this /\
  untouched_by_pass this this' /\
  calls this' = calls_after_commit cur this /\
  exists a b c,
    update_trackY mask cur (set_scrollValues this cur) = Normal a /\
    update_trackX mask cur isRtl a = Normal b /\
    update_holder mask cur b = Normal c /\
    thumbYEl this' = thumbYEl a /\ thumbXEl this' = thumbXEl b /\
    holderEl this' = holderEl c.
Proof.
  intros H10 H11. unfold commit.
  destruct (update_trackY mask cur (set_scrollValues this cur)) as [a| |] eqn:EY;
    cbn [bind]; try discriminate.
  destruct (update_trackX mask cur isRtl a) as [b| |] eqn:EX; cbn [bind]; try discriminate.
  destruct (update_holder mask cur b) as [c| |] eqn:EH; cbn [bind]; try discriminate.
  destruct (update_trackY_frame _ _ _ _ H10 EY)
    as ((Yp & Yst & Ysv & Yce & Ywe & Yty & Ytx & Yto & Ynw & Ycl) & Ythx & Yhe).
  destruct (update_trackX_frame _ _ _ _ _ H11 EX)
    as ((Xp & Xst & Xsv & Xce & Xwe & Xty & Xtx & Xto & Xnw & Xcl) & Xthy & Xhe).
  destruct (update_holder_frame _ _ _ _ EH)
    as ((Hp & Hst & Hsv & Hce & Hwe & Hty & Htx & Hto & Hnw & Hcl) & Hthy & Hthx).
  cbn [set_scrollValues props state scrollValues contentEl wrapperEl trackYEl trackXEl
       timeout now calls] in Yp, Yst, Ysv, Yce, Ywe, Yty, Ytx, Yto, Ynw, Ycl.
  intros E.
  assert (exists d, this' = d /\ v = scrollValues d /\
            scrollValues d = scrollValues c /\ props d = props c /\ state d = state c /\
            contentEl d = contentEl c /\ wrapperEl d = wrapperEl c /\
            trackYEl d = trackYEl c /\ trackXEl d = trackXEl c /\
            timeout d = timeout c /\ now d = now c /\
            thumbYEl d = thumbYEl c /\ thumbXEl d = thumbXEl c /\ holderEl d = holderEl c /\
            calls d =
              (if present (ScrollValues.scrollTop (scrollValues this)) && Props.onScroll (props c)
               then call_onScroll (scrollValues c) (scrollValues this) :: calls c
               else calls c))
    as (d & -> & -> & Dsv & Dp & Dst & Dce & Dwe & Dty & Dtx & Dto & Dnw & Dthy & Dthx & Dhe & Dcl).
  { destruct (ScrollValues.scrollTop (scrollValues this)); cbn [present andb] in *;
      [destruct (Props.onScroll (props c))|]; injection E as <- <-;
      eexists; repeat split. }
  unfold untouched_by_pass, calls_after_commit.
  rewrite Dsv, Hsv, Xsv, Ysv.
  split; [reflexivity|]. split; [reflexivity|].
  split; [congruence|].
  split; [repeat split; congruence|].
  split.
  - rewrite Dcl, Hsv, Xsv, Ysv, Hp, Xp, Yp, Hcl, Xcl, Ycl. reflexivity.
  - exists a, b, c. repeat split; congruence.
Qed.

(** [update] terminates within two levels of calls: with that much fuel it
    never runs out, and more fuel changes nothing. *)
Lemma update_total (fuel : nat) (forced : bool) (this : Scrollbar) :
  update (S (S fuel)) forced this <> OutOfFuel /\
  update (S (S fuel)) forced this = update update_depth forced this.
Proof.
  unfold update_depth.
  destruct (State.isRtl (state this)) as [isRtl|] eqn:H1.
  2:{ step_update. rewrite H1. destruct (contentEl this); cbn; split; congruence. }
  destruct (contentEl this) as [el|] eqn:H2.
  2:{ step_update. rewrite H1, H2. cbn. split; congruence. }
  erewrite !update_resolved by eassumption. cbv zeta.
  destruct (_ && negb forced); [split; congruence|].
  destruct (has _ 10 || has _ 11).
  - erewrite !update_rerun by eassumption. cbv zeta.
    split; [apply commit_returns|reflexivity].
  - split; [apply commit_returns|reflexivity].
Qed.

(** C4.  A pass that reaches the comparison (orientation known, viewport
    attached) with an all-zero change mask and [forced = false] returns the
    stored snapshot and leaves the instance exactly as it was: no style of a
    track, thumb or holder written, no state changed, no callback called. *)
Theorem update_unchanged_is_noop (fuel : nat) (this : Scrollbar)
  (isRtl : bool) (el : Element.t) :
  State.isRtl (state this) = Some isRtl -> contentEl this = Some el ->
  changeMask (scrollValues this) (sample (props this) el isRtl) = 0%Z ->
  update (S fuel) false this = Normal (scrollValues this, this).
Proof.
  intros H1 H2 H3. erewrite update_resolved by eassumption. cbv zeta.
  rewrite H3. reflexivity.
Qed.

Lemma update_unchanged_is_noop_witness :
  changeMask (scrollValues (synchronized Props.default false))
    (sample Props.default viewport false) = 0%Z /\
  update 1 false (synchronized Props.default false)
    = Normal (scrollValues (synchronized Props.default false),
              synchronized Props.default false).
Proof.
  split; [vm_compute; reflexivity|].
  apply (@update_unchanged_is_noop 0 (synchronized Props.default false) false viewport);
    vm_compute; reflexivity.
Defined.

(** *** The pass in a host that renders at once *)

(** Rendering replaces element references and nothing else. *)
Lemma rerender_keeps (host : rendering) (w : Scrollbar) :
  props (rerender host w) = props w /\ state (rerender host w) = state w /\
  scrollValues (rerender host w) = scrollValues w /\ timeout (rerender host w) = timeout w /\
  now (rerender host w) = now w /\ calls (rerender host w) = calls w.
Proof. destruct host; repeat split. Qed.

Lemma update_in_resolved (host : rendering) (fuel : nat) (forced : bool) (this : Scrollbar)
  (isRtl : bool) (el : Element.t) :
  State.isRtl (state this) = Some isRtl -> contentEl this = Some el ->
  update_in host (S fuel) forced this =
  let currentScrollValues := sample (props this) el isRtl in
  let mask := changeMask (scrollValues this) currentScrollValues in
  if (mask =? 0)%Z && negb forced then Normal (scrollValues this, this)
  else if has mask 10 || has mask 11 then
    update_in host fuel true (rerender host (write_visibility currentScrollValues this))
  else commit mask currentScrollValues isRtl this.
Proof. intros H1 H2. cbn [update_in]. rewrite H1, H2. reflexivity. Qed.


(** What lines 519 to 544 leave in the vertical thumb, and lines 551 to 580
    in the horizontal one. *)
Lemma update_trackY_layout (mask : Z) (cur : ScrollValues.t) (this a : Scrollbar)
  (trackY thumbY : Element.t) :
  has mask 10 = false -> trackYEl this = Some trackY -> thumbYEl this = Some thumbY ->
  has mask 0 || has mask 2 || has mask 4 || has mask 6 || has mask 8 = true ->
  update_trackY mask cur this = Normal a ->
  let size :=
    computeThumbSize (getInnerHeight trackY) (ToNumber (ScrollValues.scrollHeight cur))
      (ToNumber (ScrollValues.clientHeight cur)) (Props.minimalThumbsSize (props this)) in
  let offset :=
    computeThumbOffset (getInnerHeight trackY) size (ToNumber (ScrollValues.scrollHeight cur))
      (ToNumber (ScrollValues.clientHeight cur)) (ToNumber (ScrollValues.scrollTop cur)) in
  thumbYEl a =
    Some (Element.set_style
            (vertical_thumb_style (ToBoolean (ScrollValues.scrollYPossible cur)) offset size
               (Element.style thumbY)) thumbY).
Proof.
  intros H10 HT HY Hbits E. cbv zeta. revert E. unfold update_trackY.
  rewrite HT. cbv zeta. rewrite H10, Hbits.
  change (thumbYEl (set_trackYEl this _)) with (thumbYEl this).
  change (props (set_trackYEl this _)) with (props this).
  rewrite HY. cbn [deref bind]. unfold vertical_thumb_style.
  destruct (ToBoolean (ScrollValues.scrollYPossible cur)); intros E; injection E as <-;
    reflexivity.
Qed.

Lemma update_trackX_layout (mask : Z) (cur : ScrollValues.t) (isRtl : bool)
  (this a : Scrollbar) (trackX thumbX : Element.t) :
  has mask 11 = false -> trackXEl this = Some trackX -> thumbXEl this = Some thumbX ->
  has mask 1 || has mask 3 || has mask 5 || has mask 7 || has mask 9 = true ->
  update_trackX mask cur isRtl this = Normal a ->
  let size :=
    computeThumbSize (getInnerWidth trackX) (ToNumber (ScrollValues.scrollWidth cur))
      (ToNumber (ScrollValues.clientWidth cur)) (Props.minimalThumbsSize (props this)) in
  let offset :=
    computeThumbOffset (getInnerWidth trackX) size (ToNumber (ScrollValues.scrollWidth cur))
      (ToNumber (ScrollValues.clientWidth cur)) (ToNumber (ScrollValues.scrollLeft cur)) in
  let placed :=
    if isRtl then JS.sub (JS.add size offset) (getInnerWidth trackX) else offset in
  thumbXEl a =
    Some (Element.set_style
            (horizontal_thumb_style (ToBoolean (ScrollValues.scrollXPossible cur)) placed size
               (Element.style thumbX)) thumbX).
Proof.
  intros H11 HT HX Hbits E. cbv zeta. revert E. unfold update_trackX.
  rewrite HT. cbv zeta. rewrite H11, Hbits.
  change (thumbXEl (set_trackXEl this _)) with (thumbXEl this).
  change (props (set_trackXEl this _)) with (props this).
  rewrite HX. cbn [deref bind]. unfold horizontal_thumb_style.
  destruct (ToBoolean (ScrollValues.scrollXPossible cur)); intros E; injection E as <-;
    reflexivity.
Qed.

(** A commit returns when every thumb it may write is there. *)
Lemma commit_returns_mounted (mask : Z) (cur : ScrollValues.t) (isRtl : bool)
  (this : Scrollbar) :
  has mask 10 = false -> has mask 11 = false -> thumbs_mounted this ->
  exists v this', commit mask cur isRtl this = Normal (v, this').
Proof.
  intros H10 H11 (MY & MX & MH). unfold commit.
  assert (exists a, update_trackY mask cur (set_scrollValues this cur) = Normal a) as [a Ea].
  { unfold update_trackY. cbn [trackYEl set_scrollValues].
    destruct (trackYEl this) as [trackY|] eqn:T; [|eauto].
    specialize (MY eq_refl). destruct (thumbYEl this) as [thumbY|] eqn:Th; [|discriminate MY].
    cbv zeta. change (thumbYEl (set_trackYEl (set_scrollValues this cur) _)) with (thumbYEl this).
    rewrite Th. cbn [deref bind].
    repeat match goal with |- context [if ?c then _ else _] => destruct c end; eauto. }
  rewrite Ea. cbn [bind].
  destruct (update_trackY_frame _ _ _ _ H10 Ea)
    as ((_ & _ & _ & _ & _ & _ & Atx & _) & Athx & Ah).
  cbn [set_scrollValues trackXEl thumbXEl holderEl] in Atx, Athx, Ah.
  assert (exists b, update_trackX mask cur isRtl a = Normal b) as [b Eb].
  { unfold update_trackX. rewrite Atx.
    destruct (trackXEl this) as [trackX|] eqn:T; [|eauto].
    specialize (MX eq_refl). destruct (thumbXEl this) as [thumbX|] eqn:Th; [|discriminate MX].
    cbv zeta. change (thumbXEl (set_trackXEl a _)) with (thumbXEl a).
    rewrite Athx. cbn [deref bind].
    repeat match goal with |- context [if ?c then _ else _] => destruct c end; eauto. }
  rewrite Eb. cbn [bind].
  destruct (update_trackX_frame _ _ _ _ _ H11 Eb) as (_ & _ & Bh).
  assert (exists c, update_holder mask cur b = Normal c) as [c Ec].
  { unfold update_holder. rewrite Bh, Ah.
    destruct (holderEl this); [|discriminate MH]. cbn [deref bind].
    destruct (_ && _ && _); eauto. }
  rewrite Ec. cbn [bind]. eauto.
Qed.



(* ================================================================== *)
(** ** Public accessors and commands *)

(** [set scrollTop] is the write to the viewport followed by [update()]. *)
Lemma set_scrollTop_synchronizes (top : number) (this : Scrollbar) (el : Element.t) :
  contentEl this = Some el ->
  set_scrollTop top this =
    (r <- update update_depth false
            (set_contentEl this (Some (Element.set_scrollTop top el))) ;;
     Normal (snd r)).
Proof. intros H. unfold set_scrollTop. rewrite H. reflexivity. Qed.

(** C6 (defect of the code).  The claim: setting [scrollTop] or [scrollLeft]
    writes the value to the viewport and runs [update].  [set scrollTop] does
    both; [set scrollLeft] only writes.  On the synchronized example instance
    (viewport at (100, 200)), [scrollLeft = 450] moves the viewport to 450 and
    leaves the stored snapshot at 100 and the horizontal thumb at 10 pixels,
    where a pass run afterwards stores 450 and places the thumb at 45;
    [scrollTop = 300] stores 300 and places the vertical thumb at 52.5. *)
Theorem set_scrollLeft_does_not_synchronize :
  map_completion observe (set_scrollLeft 450%Z (synchronized Props.default false))
    = Normal (Num 200, Num 450, Some (Num 200), Some (Num 100),
              Some (css_translateY 35%Z), Some (css_translateX 10%Z)) /\
  map_completion observe
    (this <- set_scrollLeft 450%Z (synchronized Props.default false) ;;
     r <- update update_depth false this ;;
     Normal (snd r))
    = Normal (Num 200, Num 450, Some (Num 200), Some (Num 450),
              Some (css_translateY 35%Z), Some (css_translateX 45%Z)) /\
  map_completion observe (set_scrollTop 300%Z (synchronized Props.default false))
    = Normal (Num 300, Num 100, Some (Num 300), Some (Num 100),
              Some (css_translateY (Num (105 # 2))), Some (css_translateX 10%Z)).
Proof. repeat split; vm_compute; reflexivity. Qed.

(** C10.  With no viewport element attached the six getters return 0, the
    two setters do nothing and return normally, and the four [scrollTo]
    commands leave the instance untouched and return it. *)
Theorem unattached_viewport_is_inert (this : Scrollbar) :
  contentEl this = None ->
  (get_scrollTop this = 0%Z /\ get_scrollLeft this = 0%Z /\
   get_scrollHeight this = 0%Z /\ get_scrollWidth this = 0%Z /\
   get_clientHeight this = 0%Z /\ get_clientWidth this = 0%Z) /\
  (forall v, set_scrollTop v this = Normal this) /\
  (forall v, set_scrollLeft v this = Normal this) /\
  scrollToTop this = this /\ scrollToBottom this = this /\
  scrollToLeft this = this /\ scrollToRight this = this.
Proof.
  intros H.
  unfold get_scrollTop, get_scrollLeft, get_scrollHeight, get_scrollWidth,
    get_clientHeight, get_clientWidth, set_scrollTop, set_scrollLeft,
    scrollToTop, scrollToBottom, scrollToLeft, scrollToRight.
  rewrite H. repeat split.
Qed.

Lemma unattached_viewport_is_inert_witness :
  contentEl detached = None /\
  get_scrollTop detached = 0%Z /\
  set_scrollTop 40%Z detached = Normal detached /\
  scrollToBottom detached = detached.
Proof.
  pose proof (@unattached_viewport_is_inert detached eq_refl)
    as ((H1 & _) & H2 & _ & _ & H3 & _).
  exact (conj eq_refl (conj H1 (conj (H2 (int 40)) H3))).
Defined.

(* ================================================================== *)
(** ** Track clicks and thumb drags *)

(** Projections of an instance after a setter that leaves them alone. *)
Ltac project :=
  repeat match goal with
  | |- context [props (invoke ?w ?c)] => change (props (invoke w c)) with (props w)
  | |- context [props (set_state ?w ?s)] => change (props (set_state w s)) with (props w)
  | |- context [props (set_timeout ?w ?s)] => change (props (set_timeout w s)) with (props w)
  | |- context [timeout (invoke ?w ?c)] => change (timeout (invoke w c)) with (timeout w)
  | |- context [timeout (set_state ?w ?s)] => change (timeout (set_state w s)) with (timeout w)
  | |- context [timeout (set_timeout ?w ?s)] => change (timeout (set_timeout w s)) with s
  | |- context [contentEl (invoke ?w ?c)] => change (contentEl (invoke w c)) with (contentEl w)
  | |- context [contentEl (set_state ?w ?s)] =>
      change (contentEl (set_state w s)) with (contentEl w)
  | |- context [contentEl (set_timeout ?w ?s)] =>
      change (contentEl (set_timeout w s)) with (contentEl w)
  | |- context [scrollTarget ?p (invoke ?w ?c)] =>
      change (scrollTarget p (invoke w c)) with (scrollTarget p w)
  | |- context [scrollTarget ?p (set_state ?w ?s)] =>
      change (scrollTarget p (set_state w s)) with (scrollTarget p w)
  | |- context [scrollTarget ?p (set_timeout ?w ?s)] =>
      change (scrollTarget p (set_timeout w s)) with (scrollTarget p w)
  end.

Ltac case_if :=
  match goal with
  | |- context [if ?c then _ else _] => destruct c
  end.

Lemma scrollTarget_attached (p : params) (this : Scrollbar) (target : number) :
  scrollTarget p this = Normal target -> exists content, contentEl this = Some content.
Proof.
  unfold scrollTarget. destruct (p_axis p).
  - destruct (trackXEl this); [|discriminate]. destruct (thumbXEl this); [|discriminate].
    destruct (contentEl this); [eauto|discriminate].
  - destruct (trackYEl this); [|discriminate]. destruct (thumbYEl this); [|discriminate].
    destruct (contentEl this); [eauto|discriminate].
Qed.

Lemma scrollDetect_set_state (this : Scrollbar) (st : State.t) :
  scrollDetect (set_state this st) = set_state (scrollDetect this) st.
Proof.
  unfold scrollDetect. project.
  destruct (Props.onScrollStart (props this)), (Props.onScrollStop (props this)),
    (timeout this) eqn:E; cbn [negb andb present]; project; rewrite ?E; cbn [present];
    project; reflexivity.
Qed.

(** The two handlers neither read nor write [this.state]: run on an instance
    with any other state, they do the same to everything else. *)
Lemma handlers_ignore_state (p : params) (this : Scrollbar) (st : State.t) :
  handleTrackClick p (set_state this st)
    = map_completion (fun w => set_state w st) (handleTrackClick p this) /\
  handleThumbDrag p (set_state this st)
    = map_completion (fun w => set_state w st) (handleThumbDrag p this).
Proof.
  split.
  - unfold handleTrackClick. project.
    destruct (axis_eqb (p_axis p) TYPE_X && Props.trackXProps_onClick (props this)); project;
    destruct (axis_eqb (p_axis p) TYPE_Y && Props.trackYProps_onClick (props this)); project;
    destruct (scrollTarget p this) as [target| |]; cbn [bind map_completion]; try reflexivity;
    repeat (case_if; project);
    destruct (contentEl this); cbn [deref bind map_completion];
      try reflexivity; destruct (p_axis p); reflexivity.
  - unfold handleThumbDrag. rewrite scrollDetect_set_state.
    generalize (scrollDetect this) as w. intros w. project.
    destruct (p_axis p);
      [destruct (Props.thumbXProps_onDrag (props w))
      |destruct (Props.thumbYProps_onDrag (props w))]; project;
    destruct (scrollTarget p w) as [target| |]; cbn [bind map_completion]; try reflexivity;
    destruct (contentEl w); reflexivity.
Qed.

Lemma scrollTarget_elements (p : params) (this : Scrollbar) :
  (axis_elements (p_axis p) this = true -> exists target, scrollTarget p this = Normal target) /\
  (axis_elements (p_axis p) this = false -> scrollTarget p this = TypeError).
Proof.
  unfold axis_elements, scrollTarget. destruct (p_axis p).
  - destruct (trackXEl this), (thumbXEl this), (contentEl this); cbn; split;
      intros; try discriminate; eauto.
  - destruct (trackYEl this), (thumbYEl this), (contentEl this); cbn; split;
      intros; try discriminate; eauto.
Qed.

Lemma scrollTarget_scrollDetect (p : params) (this : Scrollbar) :
  scrollTarget p (scrollDetect this) = scrollTarget p this.
Proof.
  unfold scrollDetect.
  repeat match goal with |- context [if ?c then _ else _] => destruct c end; reflexivity.
Qed.

Lemma scrollDetect_keeps (this : Scrollbar) :
  props (scrollDetect this) = props this /\
  contentEl (scrollDetect this) = contentEl this /\
  untouched_by_gesture this (scrollDetect this).
Proof.
  unfold scrollDetect, untouched_by_gesture.
  repeat match goal with |- context [if ?c then _ else _] => destruct c end;
    repeat split.
Qed.

Lemma untouched_by_gesture_trans (a b c : Scrollbar) :
  untouched_by_gesture a b -> untouched_by_gesture b c -> untouched_by_gesture a c.
Proof.
  unfold untouched_by_gesture. intros H1 H2.
  repeat match goal with H : _ /\ _ |- _ => destruct H end.
  repeat split; congruence.
Qed.

(** Writing the position of one axis of the viewport. *)
Lemma write_position (w : Scrollbar) (content : Element.t) (a : axis) (v : number) :
  contentEl w = Some content ->
  let w' :=
    set_contentEl w
      (Some (match a with
             | TYPE_X => Element.set_scrollLeft v content
             | TYPE_Y => Element.set_scrollTop v content
             end)) in
  position a w' = v /\ position (other_axis a) w' = position (other_axis a) w /\
  timeout w' = timeout w /\ calls w' = calls w /\ untouched_by_gesture w w'.
Proof.
  intros Hc. cbv zeta.
  unfold untouched_by_gesture, position, get_scrollLeft, get_scrollTop,
    get_scrollHeight, get_scrollWidth, get_clientHeight, get_clientWidth.
  cbn [set_contentEl contentEl timeout calls props state scrollValues holderEl wrapperEl
       trackYEl trackXEl thumbYEl thumbXEl now other_axis].
  rewrite Hc. destruct a; repeat split.
Qed.

Lemma invoke_keeps (w : Scrollbar) (c : call) :
  contentEl (invoke w c) = contentEl w /\ timeout (invoke w c) = timeout w /\
  untouched_by_gesture w (invoke w c) /\
  position TYPE_X (invoke w c) = position TYPE_X w /\
  position TYPE_Y (invoke w c) = position TYPE_Y w.
Proof. repeat split. Qed.

Lemma handleThumbDrag_effect (p : params) (this : Scrollbar) (target : number) :
  scrollTarget p this = Normal target ->
  exists this',
    handleThumbDrag p this = Normal this' /\
    position (p_axis p) this' = target /\
    position (other_axis (p_axis p)) this' = position (other_axis (p_axis p)) this /\
    timeout this' = timeout (scrollDetect this) /\
    calls this' =
      (if onDrag_configured p this
       then call_thumb_onDrag p :: calls (scrollDetect this)
       else calls (scrollDetect this)) /\
    untouched_by_gesture this this'.
Proof.
  intros Ht. rewrite <- scrollTarget_scrollDetect in Ht.
  destruct (scrollDetect_keeps this) as (Hp & Hce & U).
  destruct (scrollTarget_attached _ _ _ Ht) as [content Hc].
  assert (position (other_axis (p_axis p)) (scrollDetect this)
          = position (other_axis (p_axis p)) this) as Ho.
  { unfold position, get_scrollLeft, get_scrollTop. rewrite Hce. reflexivity. }
  unfold handleThumbDrag, onDrag_configured. cbv zeta. rewrite <- Hp, <- Ho.
  revert Ht Hc U. generalize (scrollDetect this) as w. clear Hp Hce Ho. intros w Ht Hc U.
  set (w1 := if onDrag_configured p w then invoke w (call_thumb_onDrag p) else w).
  assert (contentEl w1 = Some content /\ scrollTarget p w1 = Normal target /\
          timeout w1 = timeout w /\ untouched_by_gesture w w1 /\
          position (other_axis (p_axis p)) w1 = position (other_axis (p_axis p)) w /\
          calls w1 = (if onDrag_configured p w then call_thumb_onDrag p :: calls w
                      else calls w)) as (Hc1 & Ht1 & To1 & U1 & O1 & C1).
  { subst w1. destruct (onDrag_configured p w); repeat split; assumption. }
  unfold onDrag_configured in w1, C1.
  destruct (p_axis p) eqn:A.
  - pose proof (write_position w1 content TYPE_X target Hc1) as W. cbv zeta in W.
    destruct W as (W1 & W2 & W3 & W4 & W5).
    eexists. split; [fold w1; rewrite Ht1; cbn [bind]; rewrite Hc1; reflexivity|].
    split; [exact W1|]. split; [congruence|]. split; [congruence|].
    split; [congruence|].
    eapply untouched_by_gesture_trans; [exact U|].
    eapply untouched_by_gesture_trans; [exact U1|exact W5].
  - pose proof (write_position w1 content TYPE_Y target Hc1) as W. cbv zeta in W.
    destruct W as (W1 & W2 & W3 & W4 & W5).
    eexists. split; [fold w1; rewrite Ht1; cbn [bind]; rewrite Hc1; reflexivity|].
    split; [exact W1|]. split; [congruence|]. split; [congruence|].
    split; [congruence|].
    eapply untouched_by_gesture_trans; [exact U|].
    eapply untouched_by_gesture_trans; [exact U1|exact W5].
Qed.

Lemma handleTrackClick_effect (p : params) (this : Scrollbar) (target : number) :
  scrollTarget p this = Normal target ->
  exists this',
    handleTrackClick p this = Normal this' /\
    position (other_axis (p_axis p)) this' = position (other_axis (p_axis p)) this /\
    timeout this' = timeout this /\
    calls this' =
      (if onClick_configured p this then call_track_onClick p :: calls this else calls this) /\
    untouched_by_gesture this this' /\
    (Props.trackClickBehavior (props this) <> "jump" ->
     Props.trackClickBehavior (props this) <> "step" ->
     contentEl this' = contentEl this).
Proof.
  intros Ht. destruct (scrollTarget_attached _ _ _ Ht) as [content Hc].
  unfold handleTrackClick.
  set (w1 := if axis_eqb (p_axis p) TYPE_X && Props.trackXProps_onClick (props this)
             then invoke this (call_track_onClick p) else this).
  assert (props w1 = props this) as P1 by (subst w1; destruct (_ && _); reflexivity).
  rewrite P1.
  set (w2 := if axis_eqb (p_axis p) TYPE_Y && Props.trackYProps_onClick (props this)
             then invoke w1 (call_track_onClick p) else w1).
  assert (props w2 = props this /\ contentEl w2 = Some content /\
          scrollTarget p w2 = Normal target /\ timeout w2 = timeout this /\
          untouched_by_gesture this w2 /\
          position (other_axis (p_axis p)) w2 = position (other_axis (p_axis p)) this /\
          calls w2 = (if onClick_configured p this then call_track_onClick p :: calls this
                      else calls this)) as (P2 & Hc2 & Ht2 & To2 & U2 & O2 & C2).
  { subst w2 w1. unfold onClick_configured.
    destruct (p_axis p); cbn [axis_eqb andb];
      [destruct (Props.trackXProps_onClick (props this))
      |destruct (Props.trackYProps_onClick (props this))];
      repeat split; assumption. }
  rewrite Ht2, P2. cbn [bind]. rewrite Hc2. cbn [deref bind].
  destruct (String.eqb_spec (Props.trackClickBehavior (props this)) "jump") as [J|J].
  - destruct (p_axis p) eqn:A.
    + pose proof (write_position w2 content TYPE_X target Hc2) as W. cbv zeta in W.
      destruct W as (W1 & W2 & W3 & W4 & W5).
      eexists. split; [reflexivity|].
      split; [congruence|]. split; [congruence|]. split; [congruence|].
      split; [eapply untouched_by_gesture_trans; eassumption|].
      intros NJ NS; congruence.
    + pose proof (write_position w2 content TYPE_Y target Hc2) as W. cbv zeta in W.
      destruct W as (W1 & W2 & W3 & W4 & W5).
      eexists. split; [reflexivity|].
      split; [congruence|]. split; [congruence|]. split; [congruence|].
      split; [eapply untouched_by_gesture_trans; eassumption|].
      intros NJ NS; congruence.
  - destruct (String.eqb_spec (Props.trackClickBehavior (props this)) "step") as [St|St].
    + destruct (p_axis p) eqn:A.
      * match goal with |- context [Element.set_scrollLeft ?v content] =>
          pose proof (write_position w2 content TYPE_X v Hc2) as W end.
        cbv zeta in W. destruct W as (W1 & W2 & W3 & W4 & W5).
        eexists. split; [reflexivity|].
        split; [congruence|]. split; [congruence|]. split; [congruence|].
        split; [eapply untouched_by_gesture_trans; eassumption|].
        intros NJ NS; congruence.
      * match goal with |- context [Element.set_scrollTop ?v content] =>
          pose proof (write_position w2 content TYPE_Y v Hc2) as W end.
        cbv zeta in W. destruct W as (W1 & W2 & W3 & W4 & W5).
        eexists. split; [reflexivity|].
        split; [congruence|]. split; [congruence|]. split; [congruence|].
        split; [eapply untouched_by_gesture_trans; eassumption|].
        intros NJ NS; congruence.
    + exists w2. split; [reflexivity|].
      split; [exact O2|]. split; [exact To2|]. split; [exact C2|]. split; [exact U2|].
      intros _ _. subst w2 w1.
      repeat match goal with |- context [if ?c then _ else _] => destruct c end;
        reflexivity.
Qed.

(** The horizontal thumb is placed at the raw offset, mirrored when [isRtl]. *)
Lemma update_trackX_placement (mask : Z) (cur : ScrollValues.t) (isRtl : bool)
  (this : Scrollbar) (trackX thumbX : Element.t) :
  trackXEl this = Some trackX -> thumbXEl this = Some thumbX ->
  has mask 1 || has mask 3 || has mask 5 || has mask 7 || has mask 9 = true ->
  ScrollValues.scrollXPossible cur = Some true ->
  let trackSize := getInnerWidth trackX in
  let thumbSize :=
    computeThumbSize trackSize (ToNumber (ScrollValues.scrollWidth cur))
      (ToNumber (ScrollValues.clientWidth cur)) (Props.minimalThumbsSize (props this)) in
  let rawOffset :=
    computeThumbOffset trackSize thumbSize (ToNumber (ScrollValues.scrollWidth cur))
      (ToNumber (ScrollValues.clientWidth cur)) (ToNumber (ScrollValues.scrollLeft cur)) in
  exists this',
    update_trackX mask cur isRtl this = Normal this' /\
    transform_of (thumbXEl this') =
      Some (css_translateX
              (if isRtl then JS.sub (JS.add thumbSize rawOffset) trackSize else rawOffset)).
Proof.
  intros Ht Hth Hbits Hposs. cbv zeta. unfold update_trackX. rewrite Ht.
  cbv zeta. rewrite Hbits, Hposs. cbn [ToBoolean].
  change (thumbXEl (set_trackXEl this _)) with (thumbXEl this). rewrite Hth.
  cbn [deref bind]. eexists. split; [reflexivity|].
  destruct (has mask 11); reflexivity.
Qed.

(** The vertical thumb is placed at the raw offset, whatever the orientation. *)
Lemma update_trackY_placement (mask : Z) (cur : ScrollValues.t)
  (this : Scrollbar) (trackY thumbY : Element.t) :
  trackYEl this = Some trackY -> thumbYEl this = Some thumbY ->
  has mask 0 || has mask 2 || has mask 4 || has mask 6 || has mask 8 = true ->
  ScrollValues.scrollYPossible cur = Some true ->
  let trackSize := getInnerHeight trackY in
  let thumbSize :=
    computeThumbSize trackSize (ToNumber (ScrollValues.scrollHeight cur))
      (ToNumber (ScrollValues.clientHeight cur)) (Props.minimalThumbsSize (props this)) in
  let rawOffset :=
    computeThumbOffset trackSize thumbSize (ToNumber (ScrollValues.scrollHeight cur))
      (ToNumber (ScrollValues.clientHeight cur)) (ToNumber (ScrollValues.scrollTop cur)) in
  exists this',
    update_trackY mask cur this = Normal this' /\
    transform_of (thumbYEl this') = Some (css_translateY rawOffset).
Proof.
  intros Ht Hth Hbits Hposs. cbv zeta. unfold update_trackY. rewrite Ht.
  cbv zeta. rewrite Hbits, Hposs. cbn [ToBoolean].
  change (thumbYEl (set_trackYEl this _)) with (thumbYEl this). rewrite Hth.
  cbn [deref bind]. eexists. split; [reflexivity|].
  destruct (has mask 10); reflexivity.
Qed.

(** The target of a gesture is the scroll value of its offset as it comes. *)
Lemma scrollTarget_pointer (a : axis) (offset : number) (this : Scrollbar)
  (track thumb content : Element.t) :
  trackEl a this = Some track -> thumbEl a this = Some thumb -> contentEl this = Some content ->
  scrollTarget (mkParams a offset) this = Normal (pointer_target a offset track thumb content).
Proof.
  intros H1 H2 H3. unfold scrollTarget, pointer_target. cbn [p_axis p_offset].
  destruct a; cbn [trackEl thumbEl] in H1, H2; rewrite H1, H2, H3; reflexivity.
Qed.

(** What a track click writes. *)
Lemma handleTrackClick_writes (p : params) (this : Scrollbar) (target : number) :
  scrollTarget p this = Normal target ->
  (Props.trackClickBehavior (props this) = "jump" ->
   exists this', handleTrackClick p this = Normal this' /\
     position (p_axis p) this' = target) /\
  (Props.trackClickBehavior (props this) = "step" ->
   exists this', handleTrackClick p this = Normal this' /\
     position (p_axis p) this' =
       if JS.lt (position (p_axis p) this) target
       then JS.add (position (p_axis p) this) (viewportLength (p_axis p) this)
       else JS.sub (position (p_axis p) this) (viewportLength (p_axis p) this)).
Proof.
  intros Ht.
  destruct (@scrollTarget_attached p this target Ht) as [content Hc].
  split; intros Hb; unfold handleTrackClick;
    destruct (axis_eqb (p_axis p) TYPE_X && Props.trackXProps_onClick (props this));
    project;
    destruct (axis_eqb (p_axis p) TYPE_Y && Props.trackYProps_onClick (props this));
    project;
    rewrite Ht, Hb; cbn [bind String.eqb Ascii.eqb Bool.eqb]; project;
    rewrite Hc; cbn [deref bind];
    unfold position, viewportLength, get_scrollLeft, get_scrollTop,
      get_clientWidth, get_clientHeight;
    rewrite ?Hc; destruct (p_axis p); eexists; (split; [reflexivity|]); reflexivity.
Qed.

(** C7.  Only the placement of the horizontal thumb is mirrored.  When
    [update] lays out the horizontal thumb its transform is
    [translateX(thumbSize + rawOffset - trackSize)] if [isRtl] and
    [translateX(rawOffset)] otherwise, while the vertical thumb always gets
    [translateY(rawOffset)].  A drag assigns to the scroll position of its
    axis [computeScrollForOffset] of [params.offset] itself, a click with
    ["jump"] does the same, and a click with ["step"] compares the current
    position with that value: for every instance, so whatever the
    orientation in its state and in its snapshot; and both handlers do the
    same to an instance whatever its state.  On the example instance (raw
    offset 10, thumb 30, track 100) the pass places the horizontal thumb at
    -60 when right-to-left and at 10 when left-to-right, and a drag to offset
    85 assigns 700 in both orientations. *)
Theorem rtl_mirrors_horizontal_placement_only :
  (forall mask cur isRtl this trackX thumbX,
     trackXEl this = Some trackX -> thumbXEl this = Some thumbX ->
     has mask 1 || has mask 3 || has mask 5 || has mask 7 || has mask 9 = true ->
     ScrollValues.scrollXPossible cur = Some true ->
     let trackSize := getInnerWidth trackX in
     let thumbSize :=
       computeThumbSize trackSize (ToNumber (ScrollValues.scrollWidth cur))
         (ToNumber (ScrollValues.clientWidth cur)) (Props.minimalThumbsSize (props this)) in
     let rawOffset :=
       computeThumbOffset trackSize thumbSize (ToNumber (ScrollValues.scrollWidth cur))
         (ToNumber (ScrollValues.clientWidth cur)) (ToNumber (ScrollValues.scrollLeft cur)) in
     exists this',
       update_trackX mask cur isRtl this = Normal this' /\
       transform_of (thumbXEl this') =
         Some (css_translateX
                 (if isRtl then JS.sub (JS.add thumbSize rawOffset) trackSize
                  else rawOffset))) /\
  (forall mask cur this trackY thumbY,
     trackYEl this = Some trackY -> thumbYEl this = Some thumbY ->
     has mask 0 || has mask 2 || has mask 4 || has mask 6 || has mask 8 = true ->
     ScrollValues.scrollYPossible cur = Some true ->
     let trackSize := getInnerHeight trackY in
     let thumbSize :=
       computeThumbSize trackSize (ToNumber (ScrollValues.scrollHeight cur))
         (ToNumber (ScrollValues.clientHeight cur)) (Props.minimalThumbsSize (props this)) in
     let rawOffset :=
       computeThumbOffset trackSize thumbSize (ToNumber (ScrollValues.scrollHeight cur))
         (ToNumber (ScrollValues.clientHeight cur)) (ToNumber (ScrollValues.scrollTop cur)) in
     exists this',
       update_trackY mask cur this = Normal this' /\
       transform_of (thumbYEl this') = Some (css_translateY rawOffset)) /\
  (forall a offset this track thumb content,
     trackEl a this = Some track -> thumbEl a this = Some thumb ->
     contentEl this = Some content ->
     exists this',
       handleThumbDrag (mkParams a offset) this = Normal this' /\
       position a this' = pointer_target a offset track thumb content) /\
  (forall a offset this track thumb content,
     trackEl a this = Some track -> thumbEl a this = Some thumb ->
     contentEl this = Some content ->
     Props.trackClickBehavior (props this) = "jump" ->
     exists this',
       handleTrackClick (mkParams a offset) this = Normal this' /\
       position a this' = pointer_target a offset track thumb content) /\
  (forall a offset this track thumb content,
     trackEl a this = Some track -> thumbEl a this = Some thumb ->
     contentEl this = Some content ->
     Props.trackClickBehavior (props this) = "step" ->
     exists this',
       handleTrackClick (mkParams a offset) this = Normal this' /\
       position a this' =
         if JS.lt (position a this) (pointer_target a offset track thumb content)
         then JS.add (position a this) (viewportLength a this)
         else JS.sub (position a this) (viewportLength a this)) /\
  (forall p this st,
     handleTrackClick p (set_state this st)
       = map_completion (fun w => set_state w st) (handleTrackClick p this) /\
     handleThumbDrag p (set_state this st)
       = map_completion (fun w => set_state w st) (handleThumbDrag p this)) /\
  map_completion (fun r => transform_of (thumbXEl (snd r)))
    (update update_depth false (mounted Props.default (Some true)))
    = Normal (Some (css_translateX (-60)%Z)) /\
  map_completion (fun r => transform_of (thumbXEl (snd r)))
    (update update_depth false (mounted Props.default (Some false)))
    = Normal (Some (css_translateX 10%Z)) /\
  map_completion (position TYPE_X)
    (handleThumbDrag (mkParams TYPE_X 85%Z) (synchronized Props.default true))
    = Normal (int 700) /\
  map_completion (position TYPE_X)
    (handleThumbDrag (mkParams TYPE_X 85%Z) (synchronized Props.default false))
    = Normal (int 700).
Proof.
  split; [exact update_trackX_placement|].
  split; [exact update_trackY_placement|].
  split.
  { intros a offset this track thumb content H1 H2 H3.
    destruct (handleThumbDrag_effect _ _ _ (scrollTarget_pointer a offset this _ _ _ H1 H2 H3))
      as (this' & E & P & _).
    exists this'. split; [exact E|exact P]. }
  split.
  { intros a offset this track thumb content H1 H2 H3 Hb.
    exact (proj1 (handleTrackClick_writes _ _ _
                    (scrollTarget_pointer a offset this _ _ _ H1 H2 H3)) Hb). }
  split.
  { intros a offset this track thumb content H1 H2 H3 Hb.
    exact (proj2 (handleTrackClick_writes _ _ _
                    (scrollTarget_pointer a offset this _ _ _ H1 H2 H3)) Hb). }
  split; [exact handlers_ignore_state|].
  repeat split; vm_compute; reflexivity.
Qed.

Lemma rtl_mirrors_horizontal_placement_only_witness :
  (exists this',
     update_trackX (changeMask ScrollValues.initial (sample Props.default viewport true))
       (sample Props.default viewport true) true (mounted Props.default (Some true))
       = Normal this' /\
     transform_of (thumbXEl this') = Some (css_translateX (-60)%Z)) /\
  (exists this',
     handleThumbDrag (mkParams TYPE_X 85%Z) (mounted Props.default (Some true)) = Normal this' /\
     position TYPE_X this' = int 700).
Proof.
  split.
  - destruct (proj1 rtl_mirrors_horizontal_placement_only
                (changeMask ScrollValues.initial (sample Props.default viewport true))
                (sample Props.default viewport true) true
                (mounted Props.default (Some true)) track thumb
                eq_refl eq_refl eq_refl eq_refl) as (this' & E1 & E2).
    exists this'. split; [exact E1|]. rewrite E2. vm_compute. reflexivity.
  - destruct (proj1 (proj2 (proj2 rtl_mirrors_horizontal_placement_only))
                TYPE_X 85%Z (mounted Props.default (Some true)) track thumb viewport
                eq_refl eq_refl eq_refl) as (this' & E1 & E2).
    exists this'. split; [exact E1|]. rewrite E2. vm_compute. reflexivity.
Defined.

(** C8.  A track click whose target [computeScrollForOffset] gives as
    [target]: with ["jump"] the scroll position of the clicked axis becomes
    [target]; with ["step"] it becomes the current position plus one viewport
    length when the current position is below [target] and minus one viewport
    length otherwise, however far away [target] is. *)
Theorem track_click_jump_or_step :
  forall (p : params) (this : Scrollbar) (target : number),
    scrollTarget p this = Normal target ->
    (Props.trackClickBehavior (props this) = "jump" ->
     exists this', handleTrackClick p this = Normal this' /\
       position (p_axis p) this' = target) /\
    (Props.trackClickBehavior (props this) = "step" ->
     exists this', handleTrackClick p this = Normal this' /\
       position (p_axis p) this' =
         if JS.lt (position (p_axis p) this) target
         then JS.add (position (p_axis p) this) (viewportLength (p_axis p) this)
         else JS.sub (position (p_axis p) this) (viewportLength (p_axis p) this)).
Proof.
  intros p this target Ht.
  destruct (@scrollTarget_attached p this target Ht) as [content Hc].
  split; intros Hb; unfold handleTrackClick;
    destruct (axis_eqb (p_axis p) TYPE_X && Props.trackXProps_onClick (props this));
    project;
    destruct (axis_eqb (p_axis p) TYPE_Y && Props.trackYProps_onClick (props this));
    project;
    rewrite Ht, Hb; cbn [bind String.eqb Ascii.eqb Bool.eqb]; project;
    rewrite Hc; cbn [deref bind];
    unfold position, viewportLength, get_scrollLeft, get_scrollTop,
      get_clientWidth, get_clientHeight;
    rewrite ?Hc; destruct (p_axis p); eexists; (split; [reflexivity|]); reflexivity.
Qed.

Lemma track_click_jump_or_step_witness :
  (exists this',
     handleTrackClick (mkParams TYPE_X 85%Z) (synchronized Props.default false)
       = Normal this' /\
     position TYPE_X this' = 700%Z) /\
  (exists this',
     handleTrackClick (mkParams TYPE_X 85%Z) (synchronized stepping false) = Normal this' /\
     position TYPE_X this' = 200%Z).
Proof.
  split.
  - destruct (proj1 (@track_click_jump_or_step (mkParams TYPE_X 85%Z)
                       (synchronized Props.default false) 700%Z eq_refl) eq_refl)
      as (this' & E1 & E2).
    exists this'. split; [exact E1 | exact E2].
  - destruct (proj2 (@track_click_jump_or_step (mkParams TYPE_X 85%Z)
                       (synchronized stepping false) 700%Z eq_refl) eq_refl)
      as (this' & E1 & E2).
    exists this'. split; [exact E1 | exact E2].
Defined.

(* ================================================================== *)
(** ** The scroll detector *)

(** A scroll signal with no observer configured does nothing. *)
Lemma scrollDetect_unobserved (this : Scrollbar) :
  observed this = false -> scrollDetect this = this.
Proof.
  unfold observed, scrollDetect. intros H.
  apply orb_false_iff in H. destruct H as [-> ->]. reflexivity.
Qed.

(** A scroll signal with an observer: the timer is armed afresh, and
    [onScrollStart] is called when it is configured and no timer was pending. *)
Lemma scrollDetect_observed (this : Scrollbar) :
  observed this = true ->
  let this' := scrollDetect this in
  timeout this' = Some (now this + threshold this)%nat /\
  now this' = now this /\ props this' = props this /\
  starts this' =
    (starts this
     + Nat.b2n (negb (present (timeout this)) && Props.onScrollStart (props this)))%nat /\
  stops this' = stops this.
Proof.
  unfold observed, scrollDetect, threshold. intros H.
  destruct (Props.onScrollStart (props this)) eqn:E1,
           (Props.onScrollStop (props this)) eqn:E2; try discriminate; cbn [negb andb];
  destruct (timeout this) eqn:E3; cbn [present negb andb];
  cbn; rewrite ?E3; cbn; unfold starts, stops; cbn; repeat split; lia.
Qed.

Section Waiting.

Variables (ms : nat) (this : Scrollbar).

(** Waiting short of the due time leaves the timer pending. *)
Lemma wait_pending (due : nat) :
  timeout this = Some due -> (now this + ms < due)%nat ->
  timeout (wait ms this) = Some due /\ now (wait ms this) = (now this + ms)%nat /\
  props (wait ms this) = props this /\
  starts (wait ms this) = starts this /\ stops (wait ms this) = stops this.
Proof.
  intros H L. unfold wait. cbn. rewrite H.
  destruct (Nat.leb_spec due (now this + ms)); [lia|]. cbn. auto.
Qed.

(** Waiting up to the due time or beyond runs the timer: [onScrollStop] is
    called when configured, and no timer is left. *)
Lemma wait_due (due : nat) :
  timeout this = Some due -> (due <= now this + ms)%nat ->
  timeout (wait ms this) = None /\
  starts (wait ms this) = starts this /\
  stops (wait ms this) = (stops this + Nat.b2n (Props.onScrollStop (props this)))%nat.
Proof.
  intros H L. unfold wait. cbn. rewrite H.
  destruct (Nat.leb_spec due (now this + ms)); [|lia].
  unfold scrollDetect_elapsed. cbn.
  destruct (Props.onScrollStop (props this)); cbn; unfold starts, stops; cbn;
    repeat split; lia.
Qed.

Lemma wait_idle :
  timeout this = None ->
  timeout (wait ms this) = None /\ props (wait ms this) = props this /\
  starts (wait ms this) = starts this /\ stops (wait ms this) = stops this.
Proof. intros H. unfold wait. cbn. rewrite H. cbn. auto. Qed.

End Waiting.

(** During a burst whose gaps stay below the threshold the timer never
    becomes due: only the first signal can call [onScrollStart], and
    [onScrollStop] is not called. *)
Lemma burst_observed (gaps : list nat) : forall this : Scrollbar,
  observed this = true ->
  Forall (fun gap => gap < threshold this)%nat gaps ->
  let this' := burst gaps this in
  timeout this' = Some (now this' + threshold this)%nat /\
  props this' = props this /\
  starts this' =
    (starts this
     + Nat.b2n (negb (present (timeout this)) && Props.onScrollStart (props this)))%nat /\
  stops this' = stops this.
Proof.
  induction gaps as [|gap gaps IH]; intros this Hobs Hgaps; cbn [burst];
    unfold handleScrollEvent.
  - destruct (@scrollDetect_observed this Hobs) as (T & N & P & S1 & S2).
    cbv zeta. rewrite N. auto.
  - destruct (@scrollDetect_observed this Hobs) as (T & N & P & S1 & S2).
    inversion Hgaps as [|? ? Hgap Hrest]; subst.
    destruct (@wait_pending gap (scrollDetect this) _ T) as (T' & N' & P' & S1' & S2');
      [lia|].
    set (b := wait gap (scrollDetect this)) in *.
    assert (threshold b = threshold this) as Hthr by (unfold threshold; now rewrite P', P).
    assert (observed b = true) as Hobs' by (unfold observed; now rewrite P', P).
    destruct (IH b Hobs') as (T2 & P2 & S12 & S22).
    { now rewrite Hthr. }
    cbv zeta. rewrite T2, P2, S12, S22, T', Hthr, P', P, S1', S2', S1, S2.
    cbn [present negb andb Nat.b2n]. repeat split; lia.
Qed.

Lemma burst_unobserved (gaps : list nat) : forall this : Scrollbar,
  observed this = false -> timeout this = None ->
  let this' := burst gaps this in
  timeout this' = None /\ props this' = props this /\
  starts this' = starts this /\ stops this' = stops this.
Proof.
  induction gaps as [|gap gaps IH]; intros this Hobs T; cbn [burst];
    unfold handleScrollEvent; rewrite (@scrollDetect_unobserved this Hobs).
  - auto.
  - destruct (@wait_idle gap this T) as (T' & P' & S1 & S2).
    destruct (IH (wait gap this)) as (T2 & P2 & S12 & S22).
    { unfold observed. now rewrite P'. }
    { exact T'. }
    cbv zeta. rewrite T2, P2, S12, S22. auto.
Qed.

(** C9.  A burst of [1 + length gaps] scroll signals, each less than the
    threshold after the one before, starting with no timer pending and
    followed by at least the threshold without a signal: [onScrollStart] is
    called exactly once if configured (and that by the first signal),
    [onScrollStop] exactly once if configured (and not before the final
    wait), and no timer is left pending.  With neither observer configured a
    signal leaves the instance as it is. *)
Theorem scroll_burst_one_start_one_stop :
  forall (this : Scrollbar) (gaps : list nat) (final : nat),
    timeout this = None ->
    Forall (fun gap => gap < threshold this)%nat gaps ->
    (threshold this <= final)%nat ->
    let finished := wait final (burst gaps this) in
    starts finished = (starts this + Nat.b2n (Props.onScrollStart (props this)))%nat /\
    stops finished = (stops this + Nat.b2n (Props.onScrollStop (props this)))%nat /\
    starts (handleScrollEvent this) = starts finished /\
    stops (burst gaps this) = stops this /\
    timeout finished = None /\
    (observed this = false -> handleScrollEvent this = this).
Proof.
  intros this gaps final T Hgaps Hfinal finished. subst finished.
  destruct (observed this) eqn:Hobs.
  - destruct (@burst_observed gaps this Hobs Hgaps) as (T' & P' & S1 & S2).
    destruct (@wait_due final (burst gaps this) _ T') as (T2 & S12 & S22); [lia|].
    destruct (@scrollDetect_observed this Hobs) as (_ & _ & _ & S0 & _).
    unfold handleScrollEvent. cbv zeta in *.
    rewrite T2, S12, S22, S1, S2, S0, P', T. cbn [present negb andb].
    repeat split; try lia; discriminate.
  - destruct (@burst_unobserved gaps this Hobs T) as (T' & P' & S1 & S2).
    destruct (@wait_idle final _ T') as (T2 & P2 & S12 & S22).
    unfold handleScrollEvent. rewrite (@scrollDetect_unobserved this Hobs).
    cbv zeta in *. rewrite T2, S12, S22, S1, S2.
    unfold observed in Hobs. apply orb_false_iff in Hobs. destruct Hobs as [-> ->].
    cbn. repeat split; lia.
Qed.

Lemma scroll_burst_one_start_one_stop_witness :
  Forall (fun gap => gap < 100)%nat [10; 50; 99] /\
  starts (wait 100 (burst [10; 50; 99] (mounted watching None))) = 1 /\
  stops (wait 100 (burst [10; 50; 99] (mounted watching None))) = 1.
Proof.
  assert (Forall (fun gap => gap < threshold (mounted watching None))%nat [10; 50; 99])
    as Hgaps by (repeat constructor).
  split; [exact Hgaps|].
  destruct (@scroll_burst_one_start_one_stop (mounted watching None) [10; 50; 99] 100
              eq_refl Hgaps (le_n 100)) as (H1 & H2 & _).
  split; [exact H1 | exact H2].
Defined.

(** * Further properties *)

(** ** GeometryMath on whole pixels *)

(** The two conversions, operation by operation. *)
Lemma computeThumbOffset_rounded (T t S V : Z) (s a o : Q) :
  (Z.abs (S - V) <= 2 ^ 53)%Z -> (Z.abs (T - t) <= 2 ^ 53)%Z -> S <> V -> t <> 0%Z ->
  round (s / inject_Z (S - V)) = Num a -> round (a * inject_Z (T - t)) = Num o ->
  computeThumbOffset T t S V (Num s) ~= o.
Proof.
  intros HD HL ND Nt Ea Eo. unfold computeThumbOffset.
  rewrite (sub_int S V HD), (sub_int T t HL).
  rewrite (and_is_num (int t) _ (inject_Z t) (is_num_Num _)) by (apply inject_Z_neq0; exact Nt).
  rewrite (div_round (Num s) (int (S - V)) _ _ (is_num_Num _) (is_num_Num _))
    by (apply inject_Z_neq0; lia).
  rewrite Ea, (mul_round (Num a) (int (T - t)) _ _ (is_num_Num _) (is_num_Num _)), Eo.
  apply or_zero_is_num, is_num_Num.
Qed.

Lemma computeThumbOffset_no_thumb (T S V s : number) :
  computeThumbOffset T 0%Z S V s = 0%Z.
Proof. reflexivity. Qed.

Lemma computeScrollForOffset_rounded (T t S V : Z) (o b c r : Q) :
  (Z.abs t <= 2 ^ 53)%Z -> (Z.abs (S - V) <= 2 ^ 53)%Z -> (Z.abs (T - t) <= 2 ^ 53)%Z ->
  T <> t ->
  round (o - inject_Z t / 2) = Num b -> round (b / inject_Z (T - t)) = Num c ->
  round (c * inject_Z (S - V)) = Num r ->
  computeScrollForOffset T t (Num o) S V ~= r.
Proof.
  intros Ht HD HL NL Eb Ec Er. unfold computeScrollForOffset.
  rewrite (sub_int S V HD), (sub_int T t HL).
  destruct (round_half t Ht) as (h' & Eh & Eh').
  change (JS.div (int t) (Num 2)) with (round (inject_Z t / 2)). rewrite Eh.
  assert (Num h' ~= (inject_Z t / 2)%Q) as Hh' by (exists h'; split; [reflexivity|exact Eh']).
  rewrite (sub_round _ _ o _ (is_num_Num o) Hh'), Eb.
  rewrite (div_round (Num b) (int (T - t)) _ _ (is_num_Num _) (is_num_Num _))
    by (apply inject_Z_neq0; lia).
  rewrite Ec, (mul_round (Num c) (int (S - V)) _ _ (is_num_Num _) (is_num_Num _)), Er.
  apply or_zero_is_num, is_num_Num.
Qed.

Lemma round_one : round 1 = Num 1.
Proof. reflexivity. Qed.

(** X2.  On whole pixels up to [2^53], with non-zero denominators and a thumb
    that is not 0: the scroll value 0 gives the thumb offset 0 and the
    largest scroll value gives [trackSize - thumbSize]; a pointer at half a
    thumb gives the scroll value 0 and a pointer half a thumb before the end
    of the track gives the largest scroll value.  These four are exact in
    binary64. *)
Theorem geometry_reaches_both_ends (T t S V : Z) :
  (0 <= T <= 2 ^ 53)%Z -> (0 <= t <= 2 ^ 53)%Z ->
  (0 <= S <= 2 ^ 53)%Z -> (0 <= V <= 2 ^ 53)%Z ->
  S <> V -> t <> 0%Z -> T <> t ->
  computeThumbOffset T t S V 0%Z ~= 0%Q /\
  computeThumbOffset T t S V (S - V)%Z ~= inject_Z (T - t) /\
  computeScrollForOffset T t (Num (inject_Z t / 2)) S V ~= 0%Q /\
  computeScrollForOffset T t (Num (inject_Z T - inject_Z t / 2)) S V ~= inject_Z (S - V).
Proof.
  intros HT Ht HS HV ND Nt NL.
  assert (Z.abs (S - V) <= 2 ^ 53)%Z as HD by lia.
  assert (Z.abs (T - t) <= 2 ^ 53)%Z as HL by lia.
  assert (~ (inject_Z (S - V) == 0)%Q) as ND' by (apply inject_Z_neq0; lia).
  assert (~ (inject_Z (T - t) == 0)%Q) as NL' by (apply inject_Z_neq0; lia).
  repeat split.
  - apply (computeThumbOffset_rounded T t S V _ 0 0 HD HL ND Nt).
    + apply round_zero. field. exact ND'.
    + apply round_zero. ring.
  - apply (computeThumbOffset_rounded T t S V _ 1 (inject_Z (T - t)) HD HL ND Nt).
    + rewrite <- round_one. apply round_comp. field. exact ND'.
    + rewrite <- (round_int (T - t) HL). apply round_comp. ring.
  - apply (computeScrollForOffset_rounded T t S V _ 0 0 0 ltac:(lia) HD HL NL).
    + apply round_zero. ring.
    + apply round_zero. field. exact NL'.
    + apply round_zero. ring.
  - apply (computeScrollForOffset_rounded T t S V _ (inject_Z (T - t)) 1 (inject_Z (S - V))
             ltac:(lia) HD HL NL).
    + rewrite <- (round_int (T - t) HL). apply round_comp.
      unfold Z.sub. rewrite inject_Z_plus, inject_Z_opp. field.
    + rewrite <- round_one. apply round_comp. field. exact NL'.
    + rewrite <- (round_int (S - V) HD). apply round_comp. ring.
Qed.

Lemma geometry_reaches_both_ends_witness :
  computeThumbOffset 100%Z 30%Z 500%Z 100%Z 0%Z ~= 0%Q /\
  computeThumbOffset 100%Z 30%Z 500%Z 100%Z 400%Z ~= inject_Z 70 /\
  computeScrollForOffset 100%Z 30%Z (Num (inject_Z 30 / 2)) 500%Z 100%Z ~= 0%Q /\
  computeScrollForOffset 100%Z 30%Z (Num (inject_Z 100 - inject_Z 30 / 2)) 500%Z 100%Z
    ~= inject_Z 400.
Proof. apply (geometry_reaches_both_ends 100 30 500 100); lia. Defined.

(** With a content larger than the viewport, the offset of a scroll value
    of magnitude up to [2^900] is finite, and it grows with the scroll
    value. *)
Lemma computeThumbOffset_steps (T t S V : Z) (s : Q) :
  (0 <= V < S)%Z -> (S <= 2 ^ 53)%Z -> (0 <= t <= T)%Z -> (T <= 2 ^ 53)%Z ->
  (Qabs s <= pow2 900)%Q ->
  exists a o : Q,
    round (s / inject_Z (S - V)) = Num a /\ round (a * inject_Z (T - t)) = Num o.
Proof.
  intros HV HS Ht HT Hs.
  assert (1 <= inject_Z (S - V))%Q as HD1
    by (change 1%Q with (inject_Z 1); rewrite <- Zle_Qle; lia).
  destruct (round_bound (s / inject_Z (S - V)) 900 ltac:(lia)) as (a & Ea & Ba).
  { apply Qabs_div_bound; assumption. }
  destruct (round_bound (a * inject_Z (T - t)) 953 ltac:(lia)) as (o & Eo & Bo).
  { apply (Qabs_mul_bound a _ 900 53 Ba). apply inject_Z_le_pow2; lia. }
  eauto.
Qed.

Lemma computeScrollForOffset_steps (T t S V : Z) (o : Q) :
  (0 <= V <= S)%Z -> (S <= 2 ^ 53)%Z -> (0 <= t < T)%Z -> (T <= 2 ^ 53)%Z ->
  (Qabs o <= pow2 900)%Q ->
  exists b c r : Q,
    round (o - inject_Z t / 2) = Num b /\ round (b / inject_Z (T - t)) = Num c /\
    round (c * inject_Z (S - V)) = Num r.
Proof.
  intros HV HS Ht HT Ho.
  assert (1 <= inject_Z (T - t))%Q as HL1
    by (change 1%Q with (inject_Z 1); rewrite <- Zle_Qle; lia).
  assert (Qabs (inject_Z t / 2) <= pow2 900)%Q as Hh.
  { apply Qle_trans with (pow2 53); [|apply pow2_le; lia].
    assert (0 <= inject_Z t)%Q by (apply inject_Z_nonneg; lia).
    assert (inject_Z t <= pow2 53)%Q by (rewrite (pow2_Z 53) by lia; rewrite <- Zle_Qle; lia).
    pose proof (pow2_pos 53). apply Qabs_Qle_condition. halves. split; lra. }
  destruct (round_bound (o - inject_Z t / 2) 901 ltac:(lia)) as (b & Eb & Bb).
  { apply (Qabs_sub_bound _ _ 900); assumption. }
  destruct (round_bound (b / inject_Z (T - t)) 901 ltac:(lia)) as (c & Ec & Bc).
  { apply Qabs_div_bound; assumption. }
  destruct (round_bound (c * inject_Z (S - V)) 954 ltac:(lia)) as (r & Er & Br).
  { apply (Qabs_mul_bound c _ 901 53 Bc). apply inject_Z_le_pow2; lia. }
  eauto 7.
Qed.

(** X3.  On whole pixels up to [2^53], with a content larger than the
    viewport and a thumb shorter than the track, [computeThumbOffset] never
    decreases when the scroll value grows and [computeScrollForOffset] never
    decreases when the pointer offset grows (values of magnitude up to
    [2^900], so that no operation overflows): rounding keeps the order. *)
Theorem geometry_monotone (T t S V : Z) :
  (0 <= V < S)%Z -> (S <= 2 ^ 53)%Z -> (0 <= t < T)%Z -> (T <= 2 ^ 53)%Z ->
  (forall s1 s2 : Q,
     (Qabs s1 <= pow2 900)%Q -> (Qabs s2 <= pow2 900)%Q -> (s1 <= s2)%Q ->
     num_le (computeThumbOffset T t S V (Num s1)) (computeThumbOffset T t S V (Num s2))) /\
  (forall o1 o2 : Q,
     (Qabs o1 <= pow2 900)%Q -> (Qabs o2 <= pow2 900)%Q -> (o1 <= o2)%Q ->
     num_le (computeScrollForOffset T t (Num o1) S V) (computeScrollForOffset T t (Num o2) S V)).
Proof.
  intros HV HS Ht HT.
  assert (0 < inject_Z (S - V))%Q as HD by (apply inject_Z_pos; lia).
  assert (0 < inject_Z (T - t))%Q as HL by (apply inject_Z_pos; lia).
  split.
  - intros s1 s2 B1 B2 H.
    destruct (Z.eq_dec t 0) as [->|Nt].
    { exists 0%Q, 0%Q. rewrite !computeThumbOffset_no_thumb.
      repeat split; try apply is_num_Num. apply Qle_refl. }
    destruct (computeThumbOffset_steps T t S V s1) as (a1 & o1 & Ea1 & Eo1); try lia; try assumption.
    destruct (computeThumbOffset_steps T t S V s2) as (a2 & o2 & Ea2 & Eo2); try lia; try assumption.
    exists o1, o2.
    split; [apply (computeThumbOffset_rounded T t S V s1 a1 o1); try lia; assumption|].
    split; [apply (computeThumbOffset_rounded T t S V s2 a2 o2); try lia; assumption|].
    assert (a1 <= a2)%Q as Ha.
    { apply (round_mono _ _ _ _ (Qmult_le_compat_r _ _ _ H
               (Qlt_le_weak _ _ (Qinv_lt_0_compat _ HD))) Ea1 Ea2). }
    apply (round_mono _ _ _ _ (Qmult_le_compat_r _ _ _ Ha (Qlt_le_weak _ _ HL)) Eo1 Eo2).
  - intros o1 o2 B1 B2 H.
    destruct (computeScrollForOffset_steps T t S V o1) as (b1 & c1 & r1 & Eb1 & Ec1 & Er1);
      try lia; try assumption.
    destruct (computeScrollForOffset_steps T t S V o2) as (b2 & c2 & r2 & Eb2 & Ec2 & Er2);
      try lia; try assumption.
    exists r1, r2.
    split; [apply (computeScrollForOffset_rounded T t S V o1 b1 c1 r1); try lia; assumption|].
    split; [apply (computeScrollForOffset_rounded T t S V o2 b2 c2 r2); try lia; assumption|].
    assert (b1 <= b2)%Q as Hb.
    { apply (round_mono (o1 - inject_Z t / 2) (o2 - inject_Z t / 2) _ _); [lra|assumption..]. }
    assert (c1 <= c2)%Q as Hc.
    { apply (round_mono _ _ _ _ (Qmult_le_compat_r _ _ _ Hb
               (Qlt_le_weak _ _ (Qinv_lt_0_compat _ HL))) Ec1 Ec2). }
    apply (round_mono _ _ _ _ (Qmult_le_compat_r _ _ _ Hc (Qlt_le_weak _ _ HD)) Er1 Er2).
Qed.

Lemma geometry_monotone_witness :
  num_le (computeThumbOffset 100%Z 30%Z 500%Z 100%Z (Num 100))
         (computeThumbOffset 100%Z 30%Z 500%Z 100%Z (Num (401 # 2))) /\
  num_le (computeScrollForOffset 100%Z 30%Z (Num 15) 500%Z 100%Z)
         (computeScrollForOffset 100%Z 30%Z (Num (171 # 2)) 500%Z 100%Z).
Proof.
  assert (forall q : Q, Qle_bool (Qabs q) (pow2 900) = true -> (Qabs q <= pow2 900)%Q) as B
    by (intros q; apply Qle_bool_iff).
  split.
  - apply (proj1 (geometry_monotone 100 30 500 100 ltac:(lia) ltac:(lia) ltac:(lia) ltac:(lia)));
      [apply B; vm_compute; reflexivity..|].
    unfold Qle. cbn. lia.
  - apply (proj2 (geometry_monotone 100 30 500 100 ltac:(lia) ltac:(lia) ltac:(lia) ltac:(lia)));
      [apply B; vm_compute; reflexivity..|].
    unfold Qle. cbn. lia.
Defined.

(** A ratio of a part to the whole rounds into [0, 1], and a product of it
    with an integer length into [0, length]. *)
Lemma fraction_of_length (x y : Q) (n : Z) :
  (0 <= x)%Q -> (x <= y)%Q -> (0 < y)%Q -> (0 <= n <= 2 ^ 53)%Z ->
  exists a p : Q,
    round (x / y) = Num a /\ round (a * inject_Z n) = Num p /\
    (0 <= a)%Q /\ (a <= 1)%Q /\ (0 <= p)%Q /\ (p <= inject_Z n)%Q.
Proof.
  intros Hx Hxy Hy Hn.
  destruct (round_between (x / y) 0 1) as (a & Ea & A0 & A1); try lia.
  { apply Qle_shift_div_l; [exact Hy|]. change (inject_Z 0) with 0%Q. lra. }
  { apply Qle_shift_div_r; [exact Hy|]. change (inject_Z 1) with 1%Q. lra. }
  change (inject_Z 0) with 0%Q in A0. change (inject_Z 1) with 1%Q in A1.
  assert (0 <= inject_Z n)%Q as Hn0 by (apply inject_Z_nonneg; lia).
  destruct (round_between (a * inject_Z n) 0 n) as (p & Ep & P0 & P1); try lia.
  { change (inject_Z 0) with 0%Q. apply Qmult_le_0_compat; assumption. }
  { assert (a * inject_Z n <= 1 * inject_Z n)%Q; [|lra].
    apply Qmult_le_compat_r; assumption. }
  change (inject_Z 0) with 0%Q in P0.
  exists a, p. repeat split; assumption.
Qed.

(** X1.  On whole pixels up to [2^53], with a content larger than the
    viewport and a thumb no longer than the track, the offset of a scroll
    value between 0 and the largest is between 0 and
    [trackSize - thumbSize], and its right-to-left placement
    [thumbSize + offset - trackSize] is between [thumbSize - trackSize] and
    0: the thumb stays on the track, rounding included. *)
Theorem thumb_offset_within_track (T t S V : Z) (s : Q) :
  (0 <= V < S)%Z -> (S <= 2 ^ 53)%Z -> (0 <= t <= T)%Z -> (T <= 2 ^ 53)%Z ->
  (0 <= s)%Q -> (s <= inject_Z (S - V))%Q ->
  exists o : Q,
    computeThumbOffset T t S V (Num s) ~= o /\
    (0 <= o)%Q /\ (o <= inject_Z (T - t))%Q /\
    exists m : Q,
      JS.sub (JS.add t (computeThumbOffset T t S V (Num s))) T ~= m /\
      (inject_Z (t - T) <= m)%Q /\ (m <= 0)%Q.
Proof.
  intros HV HS Ht HT Hs0 Hs1.
  assert (exists o, computeThumbOffset T t S V (Num s) ~= o /\
                    (0 <= o)%Q /\ (o <= inject_Z (T - t))%Q) as (o & Ho & O0 & O1).
  { destruct (Z.eq_dec t 0) as [->|Nt].
    - exists 0%Q. rewrite computeThumbOffset_no_thumb.
      split; [apply is_num_Num|]. split; [apply Qle_refl|apply inject_Z_nonneg; lia].
    - destruct (fraction_of_length s (inject_Z (S - V)) (T - t))
        as (a & o & Ea & Eo & _ & _ & O0 & O1); try assumption; try lia.
      { apply inject_Z_pos. lia. }
      exists o. split; [|split; assumption].
      apply (computeThumbOffset_rounded T t S V s a o); try lia; assumption. }
  exists o. repeat split; try assumption.
  assert (inject_Z (T - t) == inject_Z T - inject_Z t)%Q as ETt
    by (unfold Z.sub; rewrite inject_Z_plus, inject_Z_opp; ring).
  assert (inject_Z (t - T) == inject_Z t - inject_Z T)%Q as EtT
    by (unfold Z.sub; rewrite inject_Z_plus, inject_Z_opp; ring).
  rewrite (add_round (int t) _ _ o (is_num_Num _) Ho).
  destruct (round_between (inject_Z t + o) t T) as (w & Ew & W0 & W1); try lia; try lra.
  rewrite Ew, (sub_round (Num w) (int T) _ _ (is_num_Num _) (is_num_Num _)).
  destruct (round_between (w - inject_Z T) (t - T) 0) as (m & Em & M0 & M1); try lia.
  { lra. }
  { change (inject_Z 0) with 0%Q. lra. }
  exists m. rewrite Em. split; [apply is_num_Num|]. split; assumption.
Qed.

Lemma thumb_offset_within_track_witness :
  exists o : Q,
    computeThumbOffset 100%Z 30%Z 500%Z 100%Z (Num 200) ~= o /\
    (0 <= o)%Q /\ (o <= inject_Z (100 - 30))%Q /\
    exists m : Q,
      JS.sub (JS.add 30%Z (computeThumbOffset 100%Z 30%Z 500%Z 100%Z (Num 200))) 100%Z ~= m /\
      (inject_Z (30 - 100) <= m)%Q /\ (m <= 0)%Q.
Proof.
  apply (thumb_offset_within_track 100 30 500 100 200); try lia; unfold Qle; cbn; lia.
Defined.

Lemma Qceiling_bounds (x : Q) (lo hi : Z) :
  (inject_Z lo <= x)%Q -> (x <= inject_Z hi)%Q -> (lo <= Qceiling x <= hi)%Z.
Proof.
  intros H1 H2. split.
  - rewrite <- (Qceiling_Z lo). apply Qceiling_resp_le. exact H1.
  - rewrite <- (Qceiling_Z hi). apply Qceiling_resp_le. exact H2.
Qed.

(** X5.  For a whole track size up to [2^53] and a viewport no larger than
    the content, [computeThumbSize] is 0 or at least [minimalSize], never
    negative, and no more than the larger of [minimalSize] and
    [trackSize - 1]. *)
Theorem thumb_size_zero_or_clamped (z : Z) (S V m : Q) :
  (0 <= z <= 2 ^ 53)%Z -> (0 < S)%Q -> (0 <= V)%Q -> (V <= S)%Q ->
  exists r : Q,
    computeThumbSize z (Num S) (Num V) (Num m) ~= r /\
    ((r == 0)%Q \/
     ((m <= r)%Q /\ (0 <= r)%Q /\ ((r <= m)%Q \/ (r <= inject_Z (z - 1))%Q))).
Proof.
  intros Hz HS HV HVS.
  destruct (fraction_of_length V S z HV HVS HS Hz) as (a & p & Ea & Ep & _ & _ & P0 & P1).
  change (inject_Z 0) with 0%Q in P0.
  pose proof (Qceiling_bounds p 0 z P0 P1) as Hc.
  unfold computeThumbSize.
  rewrite (div_round (Num V) (Num S) _ _ (is_num_Num _) (is_num_Num _)) by lra.
  rewrite Ea, (mul_round (Num a) (int z) _ _ (is_num_Num _) (is_num_Num _)), Ep.
  cbn [JS.ceil]. rewrite or_zero_int. unfold JS.strict_eq, int at 1.
  rewrite Qeq_bool_inject_Z.
  destruct (Z.eqb_spec z (Qceiling p)) as [E|NE].
  - exists 0%Q. split; [apply is_num_Num|]. left. reflexivity.
  - unfold JS.max. destruct (Qle_bool (inject_Z (Qceiling p)) m) eqn:B.
    + apply Qle_bool_iff in B. exists m. split; [apply is_num_Num|]. right.
      assert (0 <= inject_Z (Qceiling p))%Q by (apply inject_Z_nonneg; lia).
      split; [apply Qle_refl|]. split; [lra|]. left. apply Qle_refl.
    + exists (inject_Z (Qceiling p)). split; [apply is_num_Num|]. right.
      assert (m < inject_Z (Qceiling p))%Q as Hm.
      { apply Qnot_le_lt. intros K. apply Qle_bool_iff in K. congruence. }
      split; [lra|]. split; [apply inject_Z_nonneg; lia|].
      right. rewrite <- Zle_Qle. lia.
Qed.

Lemma thumb_size_zero_or_clamped_witness :
  exists r : Q,
    computeThumbSize 100%Z (Num 500) (Num 100) (Num 30) ~= r /\
    ((r == 0)%Q \/
     ((30 <= r)%Q /\ (0 <= r)%Q /\ ((r <= 30)%Q \/ (r <= inject_Z (100 - 1))%Q))).
Proof.
  apply (thumb_size_zero_or_clamped 100 500 100 30); try lia; unfold Qlt, Qle; cbn; lia.
Defined.

(** X6.  On whole pixels up to [2^53] with a viewport no larger than the
    content: when the exact proportion, less a [2^-51] part of it, is still
    above [trackSize - 1], the proportional size is the track size,
    [computeThumbSize] returns 0 and the offset computed with that size is 0
    for every scroll value.  This includes contents that overflow a little
    (track 100, content 1000, viewport 995): no thumb is shown. *)
Theorem thumb_vanishes_when_size_rounds_to_track (z S V : Z) (m s : number) :
  (0 <= z <= 2 ^ 53)%Z -> (0 <= V <= S)%Z -> (0 < S <= 2 ^ 53)%Z ->
  (inject_Z (z - 1)
   < exact_proportion (inject_Z z) (inject_Z S) (inject_Z V) * (1 - pow2 (-51)))%Q ->
  computeThumbSize z S V m = 0%Z /\
  computeThumbOffset z (computeThumbSize z S V m) S V s = 0%Z.
Proof.
  intros Hz HV HS H.
  assert (computeThumbSize z S V m = 0%Z) as E.
  { destruct (proportion_rounded z S V Hz HS ltac:(lia)) as (x & Ex & X1 & _).
    destruct (fraction_of_length (inject_Z V) (inject_Z S) z)
      as (a & p & Ea & Ep & _ & _ & _ & P1); try lia.
    { apply inject_Z_nonneg; lia. }
    { rewrite <- Zle_Qle. lia. }
    { apply inject_Z_pos; lia. }
    assert (x = p) as ->.
    { rewrite (div_round (int V) (int S) _ _ (is_num_Num _) (is_num_Num _)) in Ex
        by (apply inject_Z_neq0; lia).
      rewrite Ea, (mul_round (Num a) (int z) _ _ (is_num_Num _) (is_num_Num _)), Ep in Ex.
      congruence. }
    rewrite (computeThumbSize_of_proportion z S V m p Ex).
    assert (Qceiling p = z) as ->; [|now rewrite Z.eqb_refl].
    assert (inject_Z (z - 1) < p)%Q as Hlo by lra.
    pose proof (Qceiling_bounds p (z - 1) z (Qlt_le_weak _ _ Hlo) P1) as [C1 C2].
    destruct (Z.eq_dec (Qceiling p) (z - 1)) as [K|K]; [|lia].
    exfalso. pose proof (Qle_ceiling p) as Hp. rewrite K in Hp. lra. }
  split; [exact E|]. rewrite E. apply computeThumbOffset_no_thumb.
Qed.

Lemma thumb_vanishes_when_size_rounds_to_track_witness :
  computeThumbSize 100%Z 1000%Z 995%Z 30%Z = 0%Z /\
  computeThumbOffset 100%Z (computeThumbSize 100%Z 1000%Z 995%Z 30%Z) 1000%Z 995%Z 3%Z = 0%Z.
Proof.
  apply (thumb_vanishes_when_size_rounds_to_track 100 1000 995 30%Z 3%Z); try lia.
  vm_compute. reflexivity.
Defined.



(** ** The synchronization pass, the handlers and the detector *)

(** The two ways a pass with a known orientation ends: at once, when nothing
    changed and it is not forced; or by committing, from the instance as it
    was or as [write_visibility] left it, with the visibility bits clear and
    every other bit as the first comparison found it. *)
Lemma update_cases (fuel : nat) (forced : bool) (this this' : Scrollbar)
  (isRtl : bool) (el : Element.t) (v : ScrollValues.t) :
  State.isRtl (state this) = Some isRtl -> contentEl this = Some el ->
  update (S (S fuel)) forced this = Normal (v, this') ->
  let cur := sample (props this) el isRtl in
  (forced = false /\ changeMask (scrollValues this) cur = 0%Z /\
   v = scrollValues this /\ this' = this) \/
  (exists w : Scrollbar,
     (w = this \/ w = write_visibility cur this) /\
     has (changeMask (scrollValues w) cur) 10 = false /\
     has (changeMask (scrollValues w) cur) 11 = false /\
     (forall k : Z, (0 <= k)%Z -> k <> 10%Z -> k <> 11%Z ->
        has (changeMask (scrollValues w) cur) k = has (changeMask (scrollValues this) cur) k) /\
     commit (changeMask (scrollValues w) cur) cur isRtl w = Normal (v, this')).
Proof.
  intros H1 H2 E cur. erewrite update_resolved in E by eassumption. cbv zeta in E.
  fold cur in E.
  destruct ((changeMask (scrollValues this) cur =? 0)%Z && negb forced) eqn:F.
  - left. apply andb_true_iff in F. destruct F as [F1 F2].
    apply Z.eqb_eq in F1. apply negb_true_iff in F2. injection E as <- <-. auto.
  - right. destruct (has (changeMask (scrollValues this) cur) 10
                     || has (changeMask (scrollValues this) cur) 11) eqn:Vis.
    + pose proof (@update_rerun fuel this isRtl el H1 H2) as R. cbv zeta in R. fold cur in R.
      rewrite R in E. exists (write_visibility cur this).
      destruct (write_visibility_settles this cur) as [S10 S11].
      split; [right; reflexivity|]. split; [exact S10|]. split; [exact S11|].
      split; [intros k Hk K10 K11; apply write_visibility_keeps_bits; assumption|exact E].
    + apply orb_false_iff in Vis. destruct Vis as [V10 V11].
      exists this. split; [left; reflexivity|]. auto.
Qed.

Lemma update_frame :
  forall (fuel : nat) (forced : bool) (this this' : Scrollbar) (v : ScrollValues.t),
    update fuel forced this = Normal (v, this') ->
    v = scrollValues this' /\ untouched_by_pass this this'.
Proof.
  induction fuel as [|fuel IH]; intros forced this this' v E; [discriminate E|].
  step_update_in E.
  destruct (State.isRtl (state this)) as [isRtl|] eqn:H1.
  - destruct (contentEl this) as [el|] eqn:H2; cbn [deref bind] in E; [|discriminate E].
    cbv zeta in E.
    destruct ((changeMask (scrollValues this) (sample (props this) el isRtl) =? 0)%Z
              && negb forced).
    + injection E as <- <-. split; [reflexivity|]. repeat split.
    + destruct (has (changeMask (scrollValues this) (sample (props this) el isRtl)) 10
                || has (changeMask (scrollValues this) (sample (props this) el isRtl)) 11)
        eqn:Vis.
      * destruct (IH _ _ _ _ E) as (Hv & P & C & W & TY & TX & TO & N).
        split; [exact Hv|]. repeat split; assumption.
      * apply orb_false_iff in Vis. destruct Vis as [V10 V11].
        destruct (commit_effect _ _ _ _ _ _ V10 V11 E) as (Hv & Hsv & _ & U & _).
        split; [congruence|exact U].
  - destruct (contentEl this) as [el|] eqn:H2; cbn [deref bind] in E; [|discriminate E].
    injection E as <- <-. split; [reflexivity|]. repeat split.
Qed.


(** What a committing pass starts from keeps props, viewport and orientation. *)
Lemma commit_start (this w : Scrollbar) (cur : ScrollValues.t) :
  w = this \/ w = write_visibility cur this ->
  props w = props this /\ contentEl w = contentEl this /\
  State.isRtl (state w) = State.isRtl (state this) /\
  trackYEl w = trackYEl this /\ trackXEl w = trackXEl this /\
  thumbYEl w = thumbYEl this /\ thumbXEl w = thumbXEl this /\ holderEl w = holderEl this /\
  wrapperEl w = wrapperEl this /\ calls w = calls this /\
  ScrollValues.scrollTop (scrollValues w) = ScrollValues.scrollTop (scrollValues this).
Proof. intros [-> | ->]; repeat split. Qed.








(** What a pass never writes, however the host renders. *)
Lemma update_in_frame (host : rendering) :
  forall (fuel : nat) (forced : bool) (this this' : Scrollbar) (v : ScrollValues.t),
    update_in host fuel forced this = Normal (v, this') ->
    v = scrollValues this' /\ props this' = props this /\
    timeout this' = timeout this /\ now this' = now this.
Proof.
  induction fuel as [|fuel IH]; intros forced this this' v E; [discriminate E|].
  cbn [update_in] in E.
  destruct (State.isRtl (state this)) as [isRtl|] eqn:H1.
  - destruct (contentEl this) as [el|] eqn:H2; cbn [deref bind] in E; [|discriminate E].
    cbv zeta in E.
    destruct ((changeMask (scrollValues this) (sample (props this) el isRtl) =? 0)%Z
              && negb forced).
    + injection E as <- <-. repeat split.
    + destruct (has (changeMask (scrollValues this) (sample (props this) el isRtl)) 10
                || has (changeMask (scrollValues this) (sample (props this) el isRtl)) 11)
        eqn:Vis.
      * destruct (IH _ _ _ _ E) as (Hv & P & T & N).
        destruct (rerender_keeps host
                    (write_visibility (sample (props this) el isRtl) this))
          as (Rp & _ & _ & Rt & Rn & _).
        rewrite Rp in P. rewrite Rt in T. rewrite Rn in N.
        split; [exact Hv|]. split; [exact P|]. split; [exact T|exact N].
      * apply orb_false_iff in Vis. destruct Vis as [V10 V11].
        destruct (commit_effect _ _ _ _ _ _ V10 V11 E)
          as (Hv & Hsv & _ & (P & _ & _ & _ & _ & T & N) & _).
        split; [congruence|]. split; [exact P|]. split; [exact T|exact N].
  - destruct (contentEl this) as [el|] eqn:H2; cbn [deref bind] in E; [|discriminate E].
    destruct (rerender_keeps host
                (setState_isRtl (String.eqb (Element.direction el) "rtl") this))
      as (Rp & _ & _ & Rt & Rn & _).
    destruct host as [|render].
    + injection E as <- <-. repeat split.
    + destruct (update_in (Immediate render) fuel false _) as [[v1 w]| |] eqn:E1;
        cbn [bind snd] in E; try discriminate E.
      injection E as <- <-.
      destruct (IH _ _ _ _ E1) as (_ & P & T & N).
      rewrite Rp in P. rewrite Rt in T. rewrite Rn in N.
      split; [reflexivity|]. split; [exact P|]. split; [exact T|exact N].
Qed.

(** A pass that finds the track visibility as the snapshot has it is a
    commit, or nothing at all: the host does not come into it. *)
Lemma update_in_without_visibility_change (host : rendering) (fuel : nat) (forced : bool)
  (this : Scrollbar) (isRtl : bool) (el : Element.t) :
  State.isRtl (state this) = Some isRtl -> contentEl this = Some el ->
  let cur := sample (props this) el isRtl in
  let mask := changeMask (scrollValues this) cur in
  has mask 10 || has mask 11 = false ->
  update_in host (S fuel) forced this =
    if (mask =? 0)%Z && negb forced then Normal (scrollValues this, this)
    else commit mask cur isRtl this.
Proof.
  intros H1 H2 cur mask Vis. erewrite update_in_resolved by eassumption. cbv zeta.
  fold cur. fold mask. rewrite Vis. reflexivity.
Qed.

(** X7.  [update] calls itself at most once when the orientation is known and
    the comparison that follows the re-render finds the track visibility as
    the snapshot has it, however the host renders: two levels of calls give
    the result of any deeper allowance, and never run out. *)
Theorem update_calls_itself_at_most_once (host : rendering) (fuel : nat) (forced : bool)
  (this : Scrollbar) (isRtl : bool) :
  State.isRtl (state this) = Some isRtl ->
  (forall el el1 : Element.t,
     contentEl this = Some el ->
     let this1 := rerender host (write_visibility (sample (props this) el isRtl) this) in
     contentEl this1 = Some el1 ->
     let mask1 := changeMask (scrollValues this1) (sample (props this) el1 isRtl) in
     has mask1 10 || has mask1 11 = false) ->
  update_in host (S (S fuel)) forced this <> OutOfFuel /\
  update_in host (S (S fuel)) forced this = update_in host 2 forced this.
Proof.
  intros H1 Stable.
  destruct (contentEl this) as [el|] eqn:H2.
  2:{ cbn [update_in]. rewrite H1, H2. cbn. split; congruence. }
  erewrite !update_in_resolved by eassumption. cbv zeta.
  destruct (_ && negb forced); [split; congruence|].
  destruct (has _ 10 || has _ 11); [|split; [apply commit_returns|reflexivity]].
  specialize (Stable el). cbv zeta in Stable.
  set (this1 := rerender host (write_visibility (sample (props this) el isRtl) this)) in *.
  destruct (rerender_keeps host (write_visibility (sample (props this) el isRtl) this))
    as (Rp & Rst & _). fold this1 in Rp, Rst.
  assert (props this1 = props this) as Hp by exact Rp.
  assert (State.isRtl (state this1) = Some isRtl) as H1' by (rewrite Rst; exact H1).
  destruct (contentEl this1) as [el1|] eqn:H2'.
  2:{ cbn [update_in]. rewrite H1', H2'. cbn. split; congruence. }
  specialize (Stable el1 eq_refl eq_refl).
  rewrite !(update_in_without_visibility_change host _ true this1 isRtl el1 H1' H2')
    by (rewrite Hp; exact Stable).
  rewrite andb_false_r. split; [apply commit_returns|reflexivity].
Qed.

(** X13.  [update] on an instance whose viewport reference is [null] throws,
    forced or not and whatever the orientation. *)
Theorem update_throws_when_detached (fuel : nat) (forced : bool) (this : Scrollbar) :
  contentEl this = None -> update (S fuel) forced this = TypeError.
Proof.
  intros H. step_update. rewrite H. destruct (State.isRtl (state this)); reflexivity.
Qed.

Lemma update_trackY_returns (mask : Z) (cur : ScrollValues.t) (this : Scrollbar)
  (thumbY : Element.t) :
  thumbYEl this = Some thumbY -> exists a, update_trackY mask cur this = Normal a.
Proof.
  intros H. unfold update_trackY. destruct (trackYEl this); [|eauto].
  cbv zeta. change (thumbYEl (set_trackYEl this _)) with (thumbYEl this). rewrite H.
  cbn [deref bind]. repeat match goal with |- context [if ?c then _ else _] => destruct c end;
    eauto.
Qed.

Lemma update_trackX_returns (mask : Z) (cur : ScrollValues.t) (isRtl : bool)
  (this : Scrollbar) (thumbX : Element.t) :
  thumbXEl this = Some thumbX -> exists a, update_trackX mask cur isRtl this = Normal a.
Proof.
  intros H. unfold update_trackX. destruct (trackXEl this); [|eauto].
  cbv zeta. change (thumbXEl (set_trackXEl this _)) with (thumbXEl this). rewrite H.
  cbn [deref bind]. repeat match goal with |- context [if ?c then _ else _] => destruct c end;
    eauto.
Qed.

Lemma update_holder_returns (mask : Z) (cur : ScrollValues.t) (this : Scrollbar)
  (holder : Element.t) :
  holderEl this = Some holder -> exists a, update_holder mask cur this = Normal a.
Proof.
  intros H. unfold update_holder. rewrite H. cbn [deref bind].
  destruct (_ && _ && _); eauto.
Qed.

Lemma commit_returns_normally (mask : Z) (cur : ScrollValues.t) (isRtl : bool)
  (this : Scrollbar) (thumbY thumbX holder : Element.t) :
  has mask 10 = false -> has mask 11 = false ->
  thumbYEl this = Some thumbY -> thumbXEl this = Some thumbX -> holderEl this = Some holder ->
  exists v this', commit mask cur isRtl this = Normal (v, this').
Proof.
  intros H10 H11 HY HX HH. unfold commit.
  destruct (update_trackY_returns mask cur (set_scrollValues this cur) thumbY HY) as [a Ea].
  rewrite Ea. cbn [bind].
  destruct (update_trackY_frame _ _ _ _ H10 Ea) as (_ & Ax & Ah).
  cbn [set_scrollValues thumbXEl holderEl] in Ax, Ah.
  destruct (update_trackX_returns mask cur isRtl a thumbX) as [b Eb]; [congruence|].
  rewrite Eb. cbn [bind].
  destruct (update_trackX_frame _ _ _ _ _ H11 Eb) as (_ & _ & Bh).
  destruct (update_holder_returns mask cur b holder) as [c Ec]; [congruence|].
  rewrite Ec. cbn [bind]. eauto.
Qed.

Lemma update_returns (fuel : nat) (forced : bool) (this : Scrollbar)
  (content thumbY thumbX holder : Element.t) :
  contentEl this = Some content ->
  thumbYEl this = Some thumbY -> thumbXEl this = Some thumbX -> holderEl this = Some holder ->
  exists v this', update (S (S fuel)) forced this = Normal (v, this').
Proof.
  intros HC HY HX HH.
  destruct (State.isRtl (state this)) as [isRtl|] eqn:H1.
  2:{ step_update. rewrite H1, HC. cbn [deref bind]. eauto. }
  erewrite update_resolved by eassumption. cbv zeta.
  destruct (_ && negb forced); [eauto|].
  destruct (has _ 10 || has _ 11) eqn:Vis.
  - erewrite update_rerun by eassumption. cbv zeta.
    destruct (write_visibility_settles this (sample (props this) content isRtl)) as [S10 S11].
    eapply commit_returns_normally; eassumption.
  - apply orb_false_iff in Vis. destruct Vis as [V10 V11].
    eapply commit_returns_normally; eassumption.
Qed.


(** X15.  A pass that finds the track visibility as the snapshot has it, and
    a vertical metric changed (client height, content height, scroll top,
    blocked or possible), writes the vertical thumb if its track is mounted:
    placed at [computeThumbOffset], [computeThumbSize] pixels high and shown
    when vertical scrolling is possible, and without transform, 0 pixels high
    and hidden when it is not, nothing else of the thumb being written.  With
    no vertical track mounted the thumb reference is left as it was.  This
    is so however the host renders. *)
Theorem update_lays_out_vertical_thumb (host : rendering) (fuel : nat) (forced : bool)
  (this : Scrollbar) (isRtl : bool) (el : Element.t) :
  State.isRtl (state this) = Some isRtl -> contentEl this = Some el ->
  let mask := changeMask (scrollValues this) (sample (props this) el isRtl) in
  has mask 10 || has mask 11 = false ->
  has mask 0 || has mask 2 || has mask 4 || has mask 6 || has mask 8 = true ->
  thumbs_mounted this ->
  exists this',
    update_in host (S fuel) forced this = Normal (sample (props this) el isRtl, this') /\
    (forall trackY thumbY : Element.t,
       trackYEl this = Some trackY -> thumbYEl this = Some thumbY ->
       let size :=
         computeThumbSize (getInnerHeight trackY) (Element.scrollHeight el)
           (Element.clientHeight el) (Props.minimalThumbsSize (props this)) in
       let offset :=
         computeThumbOffset (getInnerHeight trackY) size (Element.scrollHeight el)
           (Element.clientHeight el) (Element.scrollTop el) in
       let possible :=
         negb (Props.noScroll (props this) || Props.noScrollY (props this))
         && JS.lt (Element.clientHeight el) (Element.scrollHeight el) in
       thumbYEl this' =
         Some (Element.set_style
                 (vertical_thumb_style possible offset size (Element.style thumbY)) thumbY)) /\
    (trackYEl this = None -> thumbYEl this' = thumbYEl this).
Proof.
  intros H1 H2 mask Vis Hbits HM.
  assert ((mask =? 0)%Z = false) as NZ.
  { destruct (mask =? 0)%Z eqn:Z0; [|reflexivity]. apply Z.eqb_eq in Z0.
    rewrite Z0, !has_0 in Hbits. discriminate Hbits. }
  pose proof (update_in_without_visibility_change host fuel forced this isRtl el H1 H2 Vis)
    as U. cbv zeta in U. fold mask in U. rewrite NZ in U. cbn [andb] in U.
  apply orb_false_iff in Vis. destruct Vis as [V10 V11].
  destruct (commit_returns_mounted mask (sample (props this) el isRtl) isRtl this V10 V11 HM)
    as (v & this' & E).
  destruct (commit_effect _ _ _ _ _ _ V10 V11 E)
    as (Hv & _ & _ & _ & _ & a & b & c & Ea & _ & _ & Ta & _).
  subst v. exists this'. split; [rewrite U; exact E|]. split.
  - intros trackY thumbY HT HY. cbv zeta. rewrite Ta.
    rewrite (update_trackY_layout mask (sample (props this) el isRtl)
               (set_scrollValues this (sample (props this) el isRtl)) a trackY thumbY
               V10 HT HY Hbits Ea).
    reflexivity.
  - intros HT. rewrite Ta. revert Ea. unfold update_trackY.
    change (trackYEl (set_scrollValues this _)) with (trackYEl this). rewrite HT.
    intros Ea. injection Ea as <-. reflexivity.
Qed.

(** X16.  A pass that finds the track visibility as the snapshot has it, and
    a horizontal metric changed, writes the horizontal thumb if its track is
    mounted: placed at the offset (mirrored when right-to-left),
    [computeThumbSize] pixels wide and shown when horizontal scrolling is
    possible, and without transform, 0 pixels wide and hidden when it is
    not.  With no horizontal track mounted the thumb reference is left as it
    was.  This is so however the host renders. *)
Theorem update_lays_out_horizontal_thumb (host : rendering) (fuel : nat) (forced : bool)
  (this : Scrollbar) (isRtl : bool) (el : Element.t) :
  State.isRtl (state this) = Some isRtl -> contentEl this = Some el ->
  let mask := changeMask (scrollValues this) (sample (props this) el isRtl) in
  has mask 10 || has mask 11 = false ->
  has mask 1 || has mask 3 || has mask 5 || has mask 7 || has mask 9 = true ->
  thumbs_mounted this ->
  exists this',
    update_in host (S fuel) forced this = Normal (sample (props this) el isRtl, this') /\
    (forall trackX thumbX : Element.t,
       trackXEl this = Some trackX -> thumbXEl this = Some thumbX ->
       let size :=
         computeThumbSize (getInnerWidth trackX) (Element.scrollWidth el)
           (Element.clientWidth el) (Props.minimalThumbsSize (props this)) in
       let offset :=
         computeThumbOffset (getInnerWidth trackX) size (Element.scrollWidth el)
           (Element.clientWidth el) (Element.scrollLeft el) in
       let placed :=
         if isRtl then JS.sub (JS.add size offset) (getInnerWidth trackX) else offset in
       let possible :=
         negb (Props.noScroll (props this) || Props.noScrollX (props this))
         && JS.lt (Element.clientWidth el) (Element.scrollWidth el) in
       thumbXEl this' =
         Some (Element.set_style
                 (horizontal_thumb_style possible placed size (Element.style thumbX)) thumbX)) /\
    (trackXEl this = None -> thumbXEl this' = thumbXEl this).
Proof.
  intros H1 H2 mask Vis Hbits HM.
  assert ((mask =? 0)%Z = false) as NZ.
  { destruct (mask =? 0)%Z eqn:Z0; [|reflexivity]. apply Z.eqb_eq in Z0.
    rewrite Z0, !has_0 in Hbits. discriminate Hbits. }
  pose proof (update_in_without_visibility_change host fuel forced this isRtl el H1 H2 Vis)
    as U. cbv zeta in U. fold mask in U. rewrite NZ in U. cbn [andb] in U.
  apply orb_false_iff in Vis. destruct Vis as [V10 V11].
  destruct (commit_returns_mounted mask (sample (props this) el isRtl) isRtl this V10 V11 HM)
    as (v & this' & E).
  destruct (commit_effect _ _ _ _ _ _ V10 V11 E)
    as (Hv & _ & _ & _ & _ & a & b & c & Ea & Eb & _ & _ & Tb & _).
  destruct (update_trackY_frame _ _ _ _ V10 Ea)
    as ((Ap & _ & _ & _ & _ & _ & Atx & _) & Athx & _).
  cbn [set_scrollValues props trackXEl thumbXEl] in Ap, Atx, Athx.
  subst v. exists this'. split; [rewrite U; exact E|]. split.
  - intros trackX thumbX HT HX. cbv zeta. rewrite Tb.
    rewrite (update_trackX_layout mask (sample (props this) el isRtl) isRtl a b trackX thumbX
               V11 ltac:(congruence) ltac:(congruence) Hbits Eb).
    rewrite Ap. reflexivity.
  - intros HT. rewrite Tb. revert Eb. unfold update_trackX. rewrite Atx, HT.
    intros Eb. injection Eb as <-. exact Athx.
Qed.

(** X8.  A call of [update] that returns hands back the stored snapshot of the
    instance and never writes the props, the timer of the scroll detector or
    the clock, however the host renders.  A pass that finds the track
    visibility as the snapshot has it sets no state, so whatever the host it
    also leaves the state and the references to the viewport (so the scroll
    position), the wrapper and the two tracks as they were. *)
Theorem update_leaves_host_alone :
  (forall (host : rendering) (fuel : nat) (forced : bool) (this this' : Scrollbar)
          (v : ScrollValues.t),
     update_in host fuel forced this = Normal (v, this') ->
     v = scrollValues this' /\ props this' = props this /\
     timeout this' = timeout this /\ now this' = now this) /\
  (forall (host : rendering) (fuel : nat) (forced : bool) (this this' : Scrollbar)
          (v : ScrollValues.t) (isRtl : bool) (el : Element.t),
     State.isRtl (state this) = Some isRtl -> contentEl this = Some el ->
     has (changeMask (scrollValues this) (sample (props this) el isRtl)) 10
     || has (changeMask (scrollValues this) (sample (props this) el isRtl)) 11 = false ->
     update_in host fuel forced this = Normal (v, this') ->
     untouched_by_pass this this' /\ state this' = state this).
Proof.
  split; [exact update_in_frame|].
  intros host [|fuel] forced this this' v isRtl el H1 H2 Vis E; [discriminate E|].
  rewrite (update_in_without_visibility_change host fuel forced this isRtl el H1 H2 Vis) in E.
  destruct (_ && negb forced).
  - injection E as <- <-. repeat split.
  - apply orb_false_iff in Vis. destruct Vis as [V10 V11].
    destruct (commit_effect _ _ _ _ _ _ V10 V11 E) as (_ & _ & St & U & _).
    split; [exact U|exact St].
Qed.

(** X20.  A thumb drag on an axis whose elements are present sets the scroll
    position of that axis to [computeScrollForOffset] of the pointer offset
    and leaves the other axis where it was; it counts as scroll activity
    (the timer is the one [scrollDetect] leaves), calls the dragged thumb's
    [onDrag] after that when it is configured, and touches neither the
    snapshot, the state nor any other element. *)
Theorem thumb_drag_moves_only_the_dragged_axis (p : params) (this : Scrollbar)
  (target : number) :
  scrollTarget p this = Normal target ->
  exists this',
    handleThumbDrag p this = Normal this' /\
    position (p_axis p) this' = target /\
    position (other_axis (p_axis p)) this' = position (other_axis (p_axis p)) this /\
    timeout this' = timeout (scrollDetect this) /\
    calls this' =
      (if onDrag_configured p this
       then call_thumb_onDrag p :: calls (scrollDetect this)
       else calls (scrollDetect this)) /\
    untouched_by_gesture this this'.
Proof. apply handleThumbDrag_effect. Qed.

(** X21.  A track click on an axis whose elements are present never moves the
    other axis, never touches the timer, the snapshot, the state or another
    element, and calls the clicked track's [onClick] first when it is
    configured; with a [trackClickBehavior] other than ["jump"] and ["step"]
    it leaves the viewport as it is. *)
Theorem track_click_leaves_the_rest_alone (p : params) (this : Scrollbar) (target : number) :
  scrollTarget p this = Normal target ->
  exists this',
    handleTrackClick p this = Normal this' /\
    position (other_axis (p_axis p)) this' = position (other_axis (p_axis p)) this /\
    timeout this' = timeout this /\
    calls this' =
      (if onClick_configured p this then call_track_onClick p :: calls this else calls this) /\
    untouched_by_gesture this this' /\
    (Props.trackClickBehavior (props this) <> "jump" ->
     Props.trackClickBehavior (props this) <> "step" ->
     contentEl this' = contentEl this).
Proof. apply handleTrackClick_effect. Qed.

(** X22.  A track click and a thumb drag return normally when the track, the
    thumb and the viewport of their axis are present, and throw when one of
    them is missing (a click also when [trackClickBehavior] would have it do
    nothing). *)
Theorem gestures_need_the_elements_of_their_axis (p : params) (this : Scrollbar) :
  if axis_elements (p_axis p) this
  then (exists this', handleTrackClick p this = Normal this') /\
       (exists this', handleThumbDrag p this = Normal this')
  else handleTrackClick p this = TypeError /\ handleThumbDrag p this = TypeError.
Proof.
  destruct (scrollTarget_elements p this) as [Hyes Hno].
  destruct (axis_elements (p_axis p) this).
  - destruct (Hyes eq_refl) as [target Ht]. split.
    + destruct (handleTrackClick_effect p this target Ht) as (w & E & _). eauto.
    + destruct (handleThumbDrag_effect p this target Ht) as (w & E & _). eauto.
  - pose proof (Hno eq_refl) as Ht. split.
    + unfold handleTrackClick.
      destruct (axis_eqb (p_axis p) TYPE_X && Props.trackXProps_onClick (props this)); project;
      destruct (axis_eqb (p_axis p) TYPE_Y && Props.trackYProps_onClick (props this)); project;
      rewrite Ht; reflexivity.
    + unfold handleThumbDrag. cbv zeta. rewrite <- scrollTarget_scrollDetect in Ht.
      revert Ht. generalize (scrollDetect this) as w. intros w Ht.
      destruct (p_axis p);
        [destruct (Props.thumbXProps_onDrag (props w))
        |destruct (Props.thumbYProps_onDrag (props w))]; project; rewrite Ht; reflexivity.
Qed.

(** X25.  Two scroll signals at least the threshold apart are two bursts: with
    no timer pending before the first, [onScrollStart] is called twice and
    [onScrollStop] once if configured, and the timer is armed again, due one
    threshold after the second signal. *)
Theorem signals_a_threshold_apart_are_separate_bursts (this : Scrollbar) (gap : nat) :
  timeout this = None -> (threshold this <= gap)%nat ->
  let this' := handleScrollEvent (wait gap (handleScrollEvent this)) in
  starts this' = (starts this + 2 * Nat.b2n (Props.onScrollStart (props this)))%nat /\
  stops this' = (stops this + Nat.b2n (Props.onScrollStop (props this)))%nat /\
  (observed this = true -> timeout this' = Some (now this + gap + threshold this)%nat).
Proof.
  intros T Hgap. cbv zeta. unfold handleScrollEvent.
  destruct (observed this) eqn:Hobs.
  - destruct (scrollDetect_observed this Hobs) as (T1 & N1 & P1 & S1 & S1').
    cbv zeta in *.
    destruct (wait_due gap (scrollDetect this) _ T1) as (T2 & S2 & S2'); [lia|].
    set (b := wait gap (scrollDetect this)) in *.
    assert (props b = props this) as P2.
    { subst b. unfold wait. cbn [set_now timeout now]. rewrite T1.
      destruct (_ <=? _)%nat; [|exact P1]. unfold scrollDetect_elapsed.
      cbn [set_timeout props]. destruct (Props.onScrollStop _); exact P1. }
    assert (now b = (now this + gap)%nat) as N2.
    { subst b. unfold wait. cbn [set_now timeout now]. rewrite T1.
      destruct (_ <=? _)%nat; [|cbn; lia]. unfold scrollDetect_elapsed.
      cbn [set_timeout props]. destruct (Props.onScrollStop _); cbn; lia. }
    assert (observed b = true) as Hobs' by (unfold observed; now rewrite P2).
    destruct (scrollDetect_observed b Hobs') as (T3 & N3 & P3 & S3 & S3').
    cbv zeta in *. unfold threshold in *.
    rewrite S3, S3', T3, T2, S2, S2', S1, S1', P2, P1, N2, T.
    cbn [present negb andb]. repeat split; lia.
  - rewrite (scrollDetect_unobserved this Hobs).
    destruct (wait_idle gap this T) as (T' & P' & S1 & S2).
    assert (observed (wait gap this) = false) as Hobs' by (unfold observed; now rewrite P').
    rewrite (scrollDetect_unobserved _ Hobs'), S1, S2.
    unfold observed in Hobs. apply orb_false_iff in Hobs. destruct Hobs as [-> ->].
    cbn. repeat split; try lia; discriminate.
Qed.



Lemma first_commit (fuel : nat) (forced : bool) (this this' : Scrollbar)
  (isRtl : bool) (el : Element.t) (v : ScrollValues.t) :
  scrollValues this = ScrollValues.initial ->
  State.isRtl (state this) = Some isRtl -> contentEl this = Some el ->
  update (S (S fuel)) forced this = Normal (v, this') ->
  let cur := sample (props this) el isRtl in
  v = cur /\ scrollValues this' = cur /\ calls this' = calls this /\
  state this' =
    State.mk (ScrollValues.trackYVisible cur) (ScrollValues.trackXVisible cur) (Some isRtl).
Proof.
  intros H0 H1 H2 E cur.
  pose proof (update_cases _ _ _ _ _ _ _ H1 H2 E) as K. cbv zeta in K. fold cur in K.
  destruct K as [(_ & M & _) | (w & Hw & V10 & V11 & _ & C)].
  { exfalso. apply changeMask_eq_0 in M. destruct M as (M & _).
    rewrite H0 in M. discriminate M. }
  destruct (commit_effect _ _ _ _ _ _ V10 V11 C) as (-> & Hsv & Hst & _ & Hc & _).
  destruct (commit_start _ _ _ Hw) as (_ & _ & _ & _ & _ & _ & _ & _ & _ & Wc & Wt).
  split; [reflexivity|]. split; [exact Hsv|]. split.
  - rewrite Hc. unfold calls_after_commit. rewrite Wt, H0. exact Wc.
  - rewrite Hst. destruct Hw as [-> | ->].
    + exfalso. rewrite has_changeMask_10, H0 in V10. discriminate V10.
    + change (state (write_visibility cur this))
        with (State.mk (ScrollValues.trackYVisible cur) (ScrollValues.trackXVisible cur)
                (State.isRtl (state this))).
      rewrite H1. reflexivity.
Qed.

(** X19.  A freshly constructed instance with its elements attached: with
    [props.rtl] given, the first pass returns and stores the sample of the
    viewport; without it, the first pass returns the empty snapshot (every
    property [null]), having only read the orientation off the viewport, and
    the second pass returns and stores the sample.  [onScroll] is not called
    in either case. *)
Theorem fresh_instance_synchronizes (p : Props.t) (clock : nat)
  (holder content thumbY thumbX : Element.t) (wrapper trackY trackX : option Element.t) :
  let this :=
    attach (Some holder) wrapper (Some content) trackY trackX (Some thumbY) (Some thumbX)
      (constructor p clock) in
  match Props.rtl p with
  | Some isRtl =>
      exists this1,
        update 2 false this = Normal (sample p content isRtl, this1) /\
        scrollValues this1 = sample p content isRtl /\ calls this1 = []
  | None =>
      let isRtl := String.eqb (Element.direction content) "rtl" in
      exists this1 this2,
        update 2 false this = Normal (ScrollValues.initial, this1) /\
        scrollValues this1 = ScrollValues.initial /\
        update 2 false this1 = Normal (sample p content isRtl, this2) /\
        scrollValues this2 = sample p content isRtl /\ calls this2 = []
  end.
Proof.
  cbv zeta. destruct (Props.rtl p) as [isRtl|] eqn:R.
  - set (this := attach _ _ _ _ _ _ _ _).
    assert (State.isRtl (state this) = Some isRtl) as H1 by exact R.
    destruct (update_returns 0 false this content thumbY thumbX holder
                eq_refl eq_refl eq_refl eq_refl) as (v & this1 & E).
    pose proof (first_commit 0 false this this1 isRtl content v eq_refl H1 eq_refl E) as K.
    cbv zeta in K.
    destruct K as (-> & Hsv & Hc & _).
    exists this1. split; [exact E|]. split; [exact Hsv|exact Hc].
  - set (this := attach _ _ _ _ _ _ _ _).
    set (isRtl := String.eqb (Element.direction content) "rtl").
    assert (update 2 false this = Normal (ScrollValues.initial, setState_isRtl isRtl this))
      as E1.
    { step_update. change (State.isRtl (state this)) with (Props.rtl p). rewrite R.
      reflexivity. }
    set (this1 := setState_isRtl isRtl this) in *.
    destruct (update_returns 0 false this1 content thumbY thumbX holder
                eq_refl eq_refl eq_refl eq_refl) as (v & this2 & E2).
    pose proof (first_commit 0 false this1 this2 isRtl content v eq_refl eq_refl eq_refl E2)
      as K.
    cbv zeta in K.
    destruct K as (-> & Hsv & Hc & _).
    exists this1, this2. split; [exact E1|]. split; [reflexivity|].
    split; [exact E2|]. split; [exact Hsv|exact Hc].
Qed.

(** Settles a closed goal over rationals, booleans or instances by evaluation. *)

(** ** The further properties on the example instances *)

Ltac evaluated :=
  vm_compute;
  first [ reflexivity | discriminate
        | let H := fresh in intros H; first [discriminate H | inversion H] ].

Lemma update_leaves_host_alone_witness :
  (exists this',
     update_in remounting 2 false grown = Normal (scrollValues this', this') /\
     props this' = props grown /\ now this' = now grown) /\
  (exists this',
     update_in remounting 1 false
       (set_contentEl (synchronized Props.default false)
          (Some (Element.set_scrollTop 300%Z viewport)))
       = Normal (scrollValues this', this') /\
     trackYEl this' = Some track /\
     contentEl this' = Some (Element.set_scrollTop 300%Z viewport)).
Proof.
  split.
  - destruct (update_in remounting 2 false grown) as [[v this']| |] eqn:E;
      [|vm_compute in E; discriminate E|vm_compute in E; discriminate E].
    destruct (proj1 update_leaves_host_alone remounting 2 false grown this' v E)
      as (Hv & P & _ & N).
    exists this'. rewrite Hv. split; [reflexivity|]. split; [exact P|exact N].
  - destruct (update_in remounting 1 false
                (set_contentEl (synchronized Props.default false)
                   (Some (Element.set_scrollTop 300%Z viewport))))
      as [[v this']| |] eqn:E;
      [|vm_compute in E; discriminate E|vm_compute in E; discriminate E].
    destruct (proj1 update_leaves_host_alone remounting 1 false _ this' v E) as (Hv & _).
    destruct (proj2 update_leaves_host_alone remounting 1 false
                (set_contentEl (synchronized Props.default false)
                   (Some (Element.set_scrollTop 300%Z viewport)))
                this' v false (Element.set_scrollTop 300%Z viewport)
                ltac:(evaluated) ltac:(evaluated) ltac:(evaluated) E)
      as ((_ & C & _ & TY & _) & _).
    exists this'. rewrite Hv. split; [reflexivity|]. split; [rewrite TY|rewrite C]; evaluated.
Defined.

Lemma update_calls_itself_at_most_once_witness :
  update_in remounting 5 false grown <> OutOfFuel /\
  update_in remounting 5 false grown = update_in remounting 2 false grown.
Proof.
  apply (@update_calls_itself_at_most_once remounting 3 false grown false eq_refl).
  intros el el1 H1 this1 H2 mask1.
  injection H1 as <-. unfold this1 in H2. vm_compute in H2. injection H2 as <-.
  evaluated.
Defined.





Lemma update_throws_when_detached_witness : update 1 true detached = TypeError.
Proof. apply (@update_throws_when_detached 0 true detached). reflexivity. Defined.


Lemma update_lays_out_vertical_thumb_witness :
  exists this',
    update_in remounting 1 false
      (set_contentEl (synchronized Props.default false)
         (Some (Element.set_scrollTop 300%Z viewport)))
      = Normal (sample Props.default (Element.set_scrollTop 300%Z viewport) false, this') /\
    thumbYEl this' =
      Some (Element.set_style
              (Style.mk (css_translateY (Num (105 # 2))) css_null (css_px 30%Z) css_null) thumb).
Proof.
  destruct (@update_lays_out_vertical_thumb remounting 0 false
              (set_contentEl (synchronized Props.default false)
                 (Some (Element.set_scrollTop 300%Z viewport)))
              false (Element.set_scrollTop 300%Z viewport)
              ltac:(evaluated) ltac:(evaluated) ltac:(evaluated) ltac:(evaluated)
              ltac:(repeat split; intros; evaluated))
    as (this' & E & T & _).
  exists this'. split; [exact E|].
  rewrite (T track
             (Element.set_style
                (Style.mk (css_translateY 35%Z) css_null (css_px 30%Z) css_null) thumb)
             ltac:(evaluated) ltac:(evaluated)).
  evaluated.
Defined.

Lemma update_lays_out_horizontal_thumb_witness :
  exists this',
    update_in remounting 1 false
      (set_contentEl (synchronized Props.default true)
         (Some (Element.set_scrollLeft 300%Z viewport)))
      = Normal (sample Props.default (Element.set_scrollLeft 300%Z viewport) true, this') /\
    thumbXEl this' =
      Some (Element.set_style
              (Style.mk (css_translateX (-40)%Z) (css_px 30%Z) css_null css_null) thumb).
Proof.
  destruct (@update_lays_out_horizontal_thumb remounting 0 false
              (set_contentEl (synchronized Props.default true)
                 (Some (Element.set_scrollLeft 300%Z viewport)))
              true (Element.set_scrollLeft 300%Z viewport)
              ltac:(evaluated) ltac:(evaluated) ltac:(evaluated) ltac:(evaluated)
              ltac:(repeat split; intros; evaluated))
    as (this' & E & T & _).
  exists this'. split; [exact E|].
  rewrite (T track
             (Element.set_style
                (Style.mk (css_translateX (-60)%Z) (css_px 30%Z) css_null css_null) thumb)
             ltac:(evaluated) ltac:(evaluated)).
  evaluated.
Defined.



Lemma thumb_drag_moves_only_the_dragged_axis_witness :
  exists this',
    handleThumbDrag (mkParams TYPE_X 85%Z) (synchronized Props.default false)
      = Normal this' /\
    position TYPE_X this' = 700%Z /\ position TYPE_Y this' = 200%Z.
Proof.
  destruct (@thumb_drag_moves_only_the_dragged_axis (mkParams TYPE_X 85%Z)
              (synchronized Props.default false) 700%Z eq_refl)
    as (this' & E & P1 & P2 & _).
  exists this'. split; [exact E|]. split; [exact P1|exact P2].
Defined.

Lemma track_click_leaves_the_rest_alone_witness :
  exists this',
    handleTrackClick (mkParams TYPE_X 85%Z) (synchronized stepping false) = Normal this' /\
    position TYPE_Y this' = 200%Z.
Proof.
  destruct (@track_click_leaves_the_rest_alone (mkParams TYPE_X 85%Z)
              (synchronized stepping false) 700%Z eq_refl)
    as (this' & E & P & _).
  exists this'. split; [exact E|exact P].
Defined.

Lemma signals_a_threshold_apart_are_separate_bursts_witness :
  starts (handleScrollEvent (wait 100 (handleScrollEvent (mounted watching None)))) = 2 /\
  stops (handleScrollEvent (wait 100 (handleScrollEvent (mounted watching None)))) = 1.
Proof.
  destruct (@signals_a_threshold_apart_are_separate_bursts (mounted watching None) 100
              eq_refl (le_n 100)) as (H1 & H2 & _).
  split; [exact H1|exact H2].
Defined.
